(** * TF-IDF semantic search: a shallow embedding of
    [backend/fastapi/services/semantic_search.py]

    The development follows the Python module function by function.
    - float64 values are Rocq's primitive binary64 floats;
    - numpy arrays are lists, indexed the way numpy indexes them (negative
      indices wrap, out-of-range indices raise [IndexError]);
    - strings are sequences of characters below U+0100, lower-cased and
      split as [str.lower] and [str.split] do on these;
    - [list.sort] is the sort CPython runs on a list of fewer than 64
      items, which is the stable order at any length when no key is NaN;
    - the vocabulary is a finite map from terms to column numbers;
    - exceptions are an error monad whose [RuntimeError] keeps the exception
      it was raised from;
    - the persisted artifacts are a [storage] value that says, for each
      path, what [np.load] returns or raises.

    The configuration of the tracing back end,
    [backend/fastapi/observability/honeycomb.py], is embedded as well:
    the environment is a finite map, and the tracer provider is the
    record of what it is built from. *)

From Stdlib Require Import ZArith List Bool String Ascii Floats Lia Permutation Sorted QArith.
From stdpp Require Import base option gmap strings list.
Import ListNotations.

Local Open Scope string_scope.
Local Open Scope list_scope.
Local Open Scope Z_scope.

(** ** Exceptions and the error monad *)

Inductive exn : Type :=
| FileNotFoundError (path : string)
| KeyError (key : string)
| IndexError
| ValueError
| NameError (name : string)
| OtherError (message : string)
| RuntimeError (message : string) (cause : exn).

(** [isinstance(e, RuntimeError)], the test of the first handler. *)
Definition is_RuntimeError (e : exn) : bool :=
  match e with
  | RuntimeError _ _ => true
  | _ => false
  end.

Inductive result (A : Type) : Type :=
| Ok (a : A)
| Raise (e : exn).
Arguments Ok {A} a.
Arguments Raise {A} e.

Definition bind {A B : Type} (m : result A) (k : A -> result B) : result B :=
  match m with
  | Ok a => k a
  | Raise e => Raise e
  end.

Notation "'let*' x ':=' m 'in' k" := (bind m (fun x => k))
  (at level 10, x name, m at level 100, k at level 200).

(** [try: m except Exception as e: raise RuntimeError(f"{prefix}{e}")]:
    the new exception is raised inside the handler, so it carries [e]. *)
Definition wrap_exception {A : Type} (prefix : string) (m : result A) : result A :=
  match m with
  | Ok a => Ok a
  | Raise e => Raise (RuntimeError prefix e)
  end.

Fixpoint mapM {A B : Type} (f : A -> result B) (l : list A) : result (list B) :=
  match l with
  | [] => Ok []
  | a :: l' => let* b := f a in let* bs := mapM f l' in Ok (b :: bs)
  end.

(** ** float64 *)

Abbreviation f64 := PrimFloat.float.

Definition fzero : f64 := PrimFloat.zero.
Definition fone : f64 := PrimFloat.one.

(** [float(n)] for a Python integer: the nearest binary64 value. *)
Definition float_of_Z (z : Z) : f64 :=
  SF2Prim (binary_normalize prec emax z 0 false).

(** The exact rational value of a finite float. *)
Definition Q_of_SF (x : spec_float) : option Q :=
  match x with
  | S754_zero _ => Some 0%Q
  | S754_finite s m e =>
      let v := if (0 <=? e)%Z then inject_Z (Z.pos m * 2 ^ e)
               else Qmake (Z.pos m) (Z.to_pos (2 ^ (- e))) in
      Some (if s then Qopp v else v)
  | _ => None
  end.

Definition Q_of_float (x : f64) : option Q := Q_of_SF (Prim2SF x).

(** ** Strings: [str.lower] and [str.split]

    A string is a sequence of characters below U+0100: an 8-bit
    character stands for the code point of its number.  On these,
    [str.lower] works character by character. *)

(** The characters [str.lower] changes: A-Z and the capital letters
    U+00C0-U+00DE, the multiplication sign U+00D7 apart. *)
Definition is_upper (c : ascii) : bool :=
  let n := N_of_ascii c in
  (((65 <=? n) && (n <=? 90)) || ((192 <=? n) && (n <=? 214))
   || ((216 <=? n) && (n <=? 222)))%N.

Definition lower_char (c : ascii) : ascii :=
  if is_upper c then ascii_of_N (N_of_ascii c + 32) else c.

Fixpoint lower (s : string) : string :=
  match s with
  | EmptyString => EmptyString
  | String c s' => String (lower_char c) (lower s')
  end.

(** The characters [str.split()] treats as separators: tab, line feed,
    vertical tab, form feed, carriage return, the four information
    separators, the space, next line (U+0085) and the no-break space
    (U+00A0). *)
Definition is_space (c : ascii) : bool :=
  let n := N_of_ascii c in
  (((9 <=? n) && (n <=? 13)) || ((28 <=? n) && (n <=? 32))
   || (n =? 133) || (n =? 160))%N.

Fixpoint split_from (s : string) (cur : string) : list string :=
  match s with
  | EmptyString => if String.eqb cur "" then [] else [cur]
  | String c s' =>
      if is_space c
      then (if String.eqb cur "" then split_from s' "" else cur :: split_from s' "")
      else split_from s' (String.append cur (String c ""))
  end.

Definition split (s : string) : list string := split_from s "".

(** ** numpy arrays and Python sequences *)

(** A Python index into a sequence of [n] items. *)
Definition norm_index (n : nat) (i : Z) : option nat :=
  if (0 <=? i) && (i <? Z.of_nat n) then Some (Z.to_nat i)
  else if (- Z.of_nat n <=? i) && (i <? 0) then Some (Z.to_nat (Z.of_nat n + i))
  else None.

(** [a[i]] *)
Definition np_get {A : Type} (a : list A) (i : Z) : result A :=
  match norm_index (length a) i with
  | Some k =>
      match a !! k with
      | Some x => Ok x
      | None => Raise IndexError
      end
  | None => Raise IndexError
  end.

(** [a[i] = v] *)
Definition np_set {A : Type} (a : list A) (i : Z) (v : A) : result (list A) :=
  match norm_index (length a) i with
  | Some k => Ok (<[k := v]> a)
  | None => Raise IndexError
  end.

(** A slice bound brought into [0, len]. *)
Definition slice_bound (len : nat) (x : Z) : nat :=
  if x <? 0 then Z.to_nat (Z.max 0 (x + Z.of_nat len))
  else Z.to_nat (Z.min x (Z.of_nat len)).

(** [a[start:stop]] *)
Definition py_slice {A : Type} (a : list A) (start stop : Z) : list A :=
  let s := slice_bound (length a) start in
  let e := slice_bound (length a) stop in
  firstn (e - s)%nat (skipn s a).

(** [a[:stop]] *)
Definition py_prefix {A : Type} (a : list A) (stop : Z) : list A :=
  firstn (slice_bound (length a) stop) a.

(** [np.zeros(n)] *)
Definition np_zeros (n : Z) : result (list f64) :=
  if n <? 0 then Raise ValueError else Ok (repeat fzero (Z.to_nat n)).

(** [a[idx] = vals] for an index array [idx]: the values are broadcast to
    the shape of [idx] first (a single value fits any length), then every
    index is checked, then the values are stored in order, so that the
    last one wins on a repeated index. *)
Fixpoint store_all (a : list f64) (ivs : list (nat * f64)) : list f64 :=
  match ivs with
  | [] => a
  | (k, v) :: rest => store_all (<[k := v]> a) rest
  end.

Definition broadcast_to {A : Type} (n : nat) (vals : list A) : result (list A) :=
  if (length vals =? n)%nat then Ok vals
  else match vals with
       | [v] => Ok (repeat v n)
       | _ => Raise ValueError
       end.

Definition check_index (n : nat) (i : Z) : result nat :=
  match norm_index n i with
  | Some k => Ok k
  | None => Raise IndexError
  end.

Definition np_set_many (a : list f64) (idx : list Z) (vals : list f64) : result (list f64) :=
  let* vs := broadcast_to (length idx) vals in
  let* ks := mapM (check_index (length a)) idx in
  Ok (store_all a (combine ks vs)).

(** [np.dot(a, b)] on one-dimensional float64 arrays.  numpy leaves the
    order of the additions to its BLAS kernel; the products are added here
    from left to right, starting from 0.0. *)
Definition np_dot (a b : list f64) : result f64 :=
  if (length a =? length b)%nat
  then Ok (fold_left (fun acc p => PrimFloat.add acc (PrimFloat.mul (fst p) (snd p)))
                     (combine a b) fzero)
  else Raise ValueError.

(** [np.linalg.norm(a)]: the square root of [a.dot(a)]. *)
Definition dot_self (a : list f64) : f64 :=
  fold_left (fun acc p => PrimFloat.add acc (PrimFloat.mul (fst p) (snd p)))
            (combine a a) fzero.

Definition np_linalg_norm (a : list f64) : f64 := PrimFloat.sqrt (dot_self a).

(** ** Python dictionaries with integer keys

    A [dict] keeps its keys in insertion order; assigning to a key that is
    already present replaces the value where it stands. *)

Definition dict := list (Z * f64).

Fixpoint dict_set (d : dict) (k : Z) (v : f64) : dict :=
  match d with
  | [] => [(k, v)]
  | (k', v') :: d' => if k' =? k then (k, v) :: d' else (k', v') :: dict_set d' k v
  end.

Fixpoint dict_get (d : dict) (k : Z) : option f64 :=
  match d with
  | [] => None
  | (k', v') :: d' => if k' =? k then Some v' else dict_get d' k
  end.

(** ** The persisted index *)

Section Search.

Variable Doc : Type.

(** The content of one [.npz] archive: the arrays stored under the keys
    this module reads, each absent or present. *)
Record npz : Type := {
  npz_data : option (list f64);
  npz_indices : option (list Z);
  npz_indptr : option (list Z);
  npz_shape : option (Z * Z);
  npz_vocabulary : option (gmap string Z);
  npz_idf_values : option (list f64);
  npz_documents : option (list Doc)
}.

(** What [np.load] returns or raises for a path. *)
Definition storage := string -> result npz.

Record csr_matrix : Type := {
  data : list f64;
  indices : list Z;
  indptr : list Z;
  shape : Z * Z
}.

Record tfidf_components : Type := {
  tfidf_matrix : csr_matrix;
  vocabulary : gmap string Z;
  idf_values : list f64;
  documents : list Doc
}.

Record search_result : Type := {
  score : f64;
  document : Doc
}.

(** [os.path.join(cache_dir, name)] for a relative [name]. *)
Fixpoint ends_with_slash (s : string) : bool :=
  match s with
  | EmptyString => false
  | String c EmptyString => Ascii.eqb c "/"%char
  | String _ s' => ends_with_slash s'
  end.

Definition path_join (dir name : string) : string :=
  if String.eqb dir "" then name
  else if ends_with_slash dir then String.append dir name
  else String.append dir (String.append "/" name).

(** [archive[key]] *)
Definition npz_field {A : Type} (key : string) (field : option A) : result A :=
  match field with
  | Some a => Ok a
  | None => Raise (KeyError key)
  end.

Definition load_tfidf_components (st : storage) (cache_dir : string)
  : result tfidf_components :=
  let matrix_path := path_join cache_dir "tfidf_matrix.npz" in
  let metadata_path := path_join cache_dir "tfidf_metadata.npz" in
  let document_metadata_path := path_join cache_dir "document_metadata.npz" in
  let* matrix_data := st matrix_path in
  let* data := npz_field "data" (npz_data matrix_data) in
  let* indices := npz_field "indices" (npz_indices matrix_data) in
  let* indptr := npz_field "indptr" (npz_indptr matrix_data) in
  let* shape := npz_field "shape" (npz_shape matrix_data) in
  let* metadata := st metadata_path in
  let* vocabulary := npz_field "vocabulary" (npz_vocabulary metadata) in
  let* idf_values := npz_field "idf_values" (npz_idf_values metadata) in
  let* document_metadata := st document_metadata_path in
  let* documents := npz_field "documents" (npz_documents document_metadata) in
  Ok {| tfidf_matrix := {| data := data; indices := indices;
                           indptr := indptr; shape := shape |};
        vocabulary := vocabulary;
        idf_values := idf_values;
        documents := documents |}.

(** ** The query vectorizer *)

Definition tokenize (query : string) : list string := split (lower query).

(** [tokens.count(token)] *)
Definition count (tokens : list string) (token : string) : nat :=
  length (List.filter (String.eqb token) tokens).

(** [set(tokens)] is iterated in an order Python does not specify.
    [distinct] is one such order (first occurrences); [set_order] says
    which lists are orders of the same set. *)
Fixpoint distinct (l : list string) : list string :=
  match l with
  | [] => []
  | x :: l' => x :: List.filter (fun y => negb (String.eqb x y)) (distinct l')
  end.

Definition set_order (tokens order : list string) : Prop :=
  List.NoDup order /\ forall t, In t order <-> In t tokens.

(** [{token: tokens.count(token) for token in set(tokens)}] *)
Definition token_counts (order tokens : list string) : list (string * nat) :=
  map (fun token => (token, count tokens token)) order.

(** The loop over [token_counts.items()]. *)
Fixpoint vectorize_loop (items : list (string * nat)) (vocabulary : gmap string Z)
    (idf_values : list f64) (query_vector : dict) : result dict :=
  match items with
  | [] => Ok query_vector
  | (term, cnt) :: rest =>
      match vocabulary !! term with
      | Some index =>
          let* idf := np_get idf_values index in
          vectorize_loop rest vocabulary idf_values
            (dict_set query_vector index
               (PrimFloat.mul (float_of_Z (Z.of_nat cnt)) idf))
      | None => vectorize_loop rest vocabulary idf_values query_vector
      end
  end.

(** [vectorize_query] when the set of tokens is iterated in [order]. *)
Definition vectorize_query_in (order : list string) (query : string)
    (vocabulary : gmap string Z) (idf_values : list f64) : result dict :=
  vectorize_loop (token_counts order (tokenize query)) vocabulary idf_values [].

Definition vectorize_query (query : string) (vocabulary : gmap string Z)
    (idf_values : list f64) : result dict :=
  vectorize_query_in (distinct (tokenize query)) query vocabulary idf_values.

(** ** Cosine similarity *)

Definition cosine_similarity_manual (vec1 vec2 : list f64) : result f64 :=
  let* dot_product := np_dot vec1 vec2 in
  let norm_vec1 := np_linalg_norm vec1 in
  let norm_vec2 := np_linalg_norm vec2 in
  if negb (PrimFloat.eqb norm_vec1 fzero) && negb (PrimFloat.eqb norm_vec2 fzero)
  then Ok (PrimFloat.div dot_product (PrimFloat.mul norm_vec1 norm_vec2))
  else Ok fzero.

(** ** Scoring, ranking and assembling *)

(** The loop that copies the query dictionary into a dense vector. *)
Fixpoint fill_query (items : dict) (query_sparse_vector : list f64) : result (list f64) :=
  match items with
  | [] => Ok query_sparse_vector
  | (index, value) :: rest =>
      let* v := np_set query_sparse_vector index value in
      fill_query rest v
  end.

(** The dense expansion of row [i]. *)
Definition document_vector (m : csr_matrix) (i : nat) : result (list f64) :=
  let* zeros := np_zeros (snd (shape m)) in
  let* start_idx := np_get (indptr m) (Z.of_nat i) in
  let* end_idx := np_get (indptr m) (Z.of_nat i + 1) in
  np_set_many zeros (py_slice (indices m) start_idx end_idx)
                    (py_slice (data m) start_idx end_idx).

(** One turn of the scoring loop: the pair appended for row [i]. *)
Definition score_row (m : csr_matrix) (query_sparse_vector : list f64) (i : nat)
  : result (f64 * nat) :=
  let* dv := document_vector m i in
  let* s := cosine_similarity_manual dv query_sparse_vector in
  Ok (s, i).

(** [cosine_similarities] as it stands after the scoring loop. *)
Definition calculate_similarities (m : csr_matrix) (query_vector : dict)
  : result (list (f64 * nat)) :=
  let* zeros := np_zeros (snd (shape m)) in
  let* query_sparse_vector := fill_query query_vector zeros in
  mapM (score_row m query_sparse_vector) (seq 0 (Z.to_nat (fst (shape m)))).

(** [list.sort(reverse=True, key=lambda x: x[0])], as CPython runs it.
    Keys are compared with [<] only.  With [reverse=True] the list is
    reversed, sorted in ascending order and reversed again.  The sort
    takes the run the list starts with ([count_run]; a strictly
    descending run is reversed) and adds the other items to it one by
    one by binary insertion ([binarysort]).  That is the whole of the
    sort for a list of fewer than 64 items.  A longer list is cut into
    several such runs, which are then merged: when [<] orders the keys
    (no NaN among them) the result is the same list, the one stable
    order; with a NaN among the keys of 64 items or more it need not
    be. *)
Definition key_lt (a b : f64 * nat) : bool := PrimFloat.ltb (fst a) (fst b).

(** The items that go on the run after [prev], and the others. *)
Fixpoint run_while (descending : bool) (prev : f64 * nat) (l : list (f64 * nat))
  : list (f64 * nat) * list (f64 * nat) :=
  match l with
  | [] => ([], [])
  | x :: l' =>
      if Bool.eqb (key_lt x prev) descending
      then let '(run, rest) := run_while descending x l' in (x :: run, rest)
      else ([], l)
  end.

Definition count_run (l : list (f64 * nat))
  : list (f64 * nat) * list (f64 * nat) * bool :=
  match l with
  | a :: b :: l' =>
      let descending := key_lt b a in
      let '(run, rest) := run_while descending b l' in
      (a :: b :: run, rest, descending)
  | _ => (l, [], false)
  end.

(** The loop of [binarysort] that looks for the place of [pivot] in the
    sorted items [a], between [l] and [r]. *)
Fixpoint bisect (fuel : nat) (pivot : f64 * nat) (a : list (f64 * nat)) (l r : nat)
  : nat :=
  match fuel with
  | O => l
  | S fuel' =>
      if (l <? r)%nat
      then
        let p := (l + (r - l) / 2)%nat in
        match a !! p with
        | Some x =>
            if key_lt pivot x then bisect fuel' pivot a l p
            else bisect fuel' pivot a (p + 1)%nat r
        | None => l
        end
      else l
  end.

Definition binary_insert (a : list (f64 * nat)) (pivot : f64 * nat) : list (f64 * nat) :=
  let l := bisect (length a) pivot a 0 (length a) in
  firstn l a ++ pivot :: skipn l a.

Definition binarysort (sorted rest : list (f64 * nat)) : list (f64 * nat) :=
  fold_left binary_insert rest sorted.

Definition list_sort (l : list (f64 * nat)) : list (f64 * nat) :=
  let '(run, rest, descending) := count_run l in
  binarysort (if descending then rev run else run) rest.

Definition sort_desc (l : list (f64 * nat)) : list (f64 * nat) :=
  rev (list_sort (rev l)).

(** [top_results]: the sorted pairs cut by [[:top_n]]. *)
Definition top_results (cosine_similarities : list (f64 * nat)) (top_n : Z)
  : list (f64 * nat) :=
  py_prefix (sort_desc cosine_similarities) top_n.

(** The loop that joins the surviving rows with their documents. *)
Definition assemble (documents : list Doc) (top : list (f64 * nat))
  : result (list search_result) :=
  mapM (fun p =>
          let* document := np_get documents (Z.of_nat (snd p)) in
          Ok {| score := fst p; document := document |}) top.

(** The third [try] block. *)
Definition rank_and_assemble (c : tfidf_components) (query_vector : dict) (top_n : Z)
  : result (list search_result) :=
  let* cosine_similarities := calculate_similarities (tfidf_matrix c) query_vector in
  assemble (documents c) (top_results cosine_similarities top_n).

(** The body of [semantic_search] once the components are loaded. *)
Definition search_loaded (c : tfidf_components) (query : string) (top_n : Z)
  : result (list search_result) :=
  let* query_vector :=
    wrap_exception "Query vectorization failed: "
      (vectorize_query query (vocabulary c) (idf_values c)) in
  wrap_exception "Semantic search failed: " (rank_and_assemble c query_vector top_n).

(** [semantic_search].  [tracing] says whether the span is a real one
    (it is [None] with the fallback tracer).  The first handler catches
    [RuntimeError] only, and with a real span it goes on to name [trace],
    which the module never imports. *)
Definition semantic_search (st : storage) (tracing : bool)
    (query cache_dir : string) (top_n : Z) : result (list search_result) :=
  match load_tfidf_components st cache_dir with
  | Raise e =>
      if is_RuntimeError e
      then (if tracing then Raise (NameError "trace")
            else Raise (RuntimeError "Semantic search failed: " e))
      else Raise e
  | Ok c => search_loaded c query top_n
  end.

End Search.

Arguments Build_npz {Doc}.
Arguments Build_search_result {Doc}.
Arguments Build_tfidf_components {Doc}.
Arguments score {Doc}.
Arguments document {Doc}.
Arguments tfidf_matrix {Doc}.
Arguments vocabulary {Doc}.
Arguments idf_values {Doc}.
Arguments documents {Doc}.
Arguments load_tfidf_components {Doc}.
Arguments assemble {Doc}.
Arguments rank_and_assemble {Doc}.
Arguments search_loaded {Doc}.
Arguments semantic_search {Doc}.

(** ** The index of the worked examples *)

Module Example.

Definition vocab : gmap string Z := <["apple" := 0]> (<["banana" := 1]> ∅).
Definition idf : list f64 := [2%float; 3%float].

Definition matrix : csr_matrix :=
  {| data := [1%float; 2%float; 1%float; 1%float];
     indices := [0; 1; 0; 1];
     indptr := [0; 1; 2; 4];
     shape := (3, 2) |}.

Definition docs : list string := ["doc0"; "doc1"; "doc2"].

Definition components : tfidf_components string :=
  {| tfidf_matrix := matrix; vocabulary := vocab;
     idf_values := idf; documents := docs |}.

(** The storage that holds the three archives of [c] in directory [dir],
    and nothing else. *)
Definition store_of (c : tfidf_components string) (dir : string) : storage string :=
  fun path =>
  if String.eqb path (path_join dir "tfidf_matrix.npz") then
    Ok {| npz_data := Some (data (tfidf_matrix c));
          npz_indices := Some (indices (tfidf_matrix c));
          npz_indptr := Some (indptr (tfidf_matrix c));
          npz_shape := Some (shape (tfidf_matrix c));
          npz_vocabulary := None; npz_idf_values := None; npz_documents := None |}
  else if String.eqb path (path_join dir "tfidf_metadata.npz") then
    Ok {| npz_data := None; npz_indices := None; npz_indptr := None;
          npz_shape := None; npz_vocabulary := Some (vocabulary c);
          npz_idf_values := Some (idf_values c); npz_documents := None |}
  else if String.eqb path (path_join dir "document_metadata.npz") then
    Ok {| npz_data := None; npz_indices := None; npz_indptr := None;
          npz_shape := None; npz_vocabulary := None; npz_idf_values := None;
          npz_documents := Some (documents c) |}
  else Raise (FileNotFoundError path).

Definition store : storage string := store_of components "cache".

(** A second index, with weights large enough for a sum of squares to
    overflow: two rows over one column. *)
Definition large : tfidf_components string :=
  {| tfidf_matrix := {| data := [0x1p600%float; 1%float];
                        indices := [0; 0];
                        indptr := [0; 1; 2];
                        shape := (2, 1) |};
     vocabulary := <["apple" := 0]> ∅;
     idf_values := [0x1p600%float];
     documents := ["doc0"; "doc1"] |}.

Definition large_store : storage string := store_of large "cache".

(** A third index, seven rows over two columns.  Row 4 holds a weight
    so large that both its norm and its product with the weight of the
    query overflow: its score is NaN. *)
Definition skewed : tfidf_components string :=
  {| tfidf_matrix := {| data := [1%float; 1%float; 1%float; 1%float;
                                 0x1p1000%float; 1%float; 1%float];
                        indices := [1; 1; 1; 1; 0; 1; 0];
                        indptr := [0; 1; 2; 3; 4; 5; 6; 7];
                        shape := (7, 2) |};
     vocabulary := vocab;
     idf_values := [0x1p100%float; 1%float];
     documents := ["doc0"; "doc1"; "doc2"; "doc3"; "doc4"; "doc5"; "doc6"] |}.

Definition skewed_store : storage string := store_of skewed "cache".



End Example.

(** ** Notions the theorems are stated with *)

(** [Q] holds of every pair of items in input order.  After the sort a
    pair either still satisfies it, or it was swapped, and then the item
    that moved forward has the strictly larger key. *)
Definition kept_or_swapped (Q : f64 * nat -> f64 * nat -> Prop) (a b : f64 * nat) : Prop :=
  Q a b \/ (Q b a /\ PrimFloat.ltb (fst b) (fst a) = true).

(** Two scores are in order when the later one is not above the earlier
    one, as [>=] decides it; a NaN orders with nothing. *)
Definition in_order (a b : f64 * nat) : Prop :=
  PrimFloat.is_nan (fst a) = false -> PrimFloat.is_nan (fst b) = false ->
  PrimFloat.leb (fst b) (fst a) = true.

(** The stable descending order of a list of pairs: an item moves right
    past the items with a strictly larger key, and past no other. *)
Fixpoint insert_desc (x : f64 * nat) (l : list (f64 * nat)) : list (f64 * nat) :=
  match l with
  | [] => [x]
  | y :: l' =>
      if PrimFloat.ltb (fst x) (fst y) then y :: insert_desc x l'
      else x :: y :: l'
  end.

Fixpoint stable_desc (l : list (f64 * nat)) : list (f64 * nat) :=
  match l with
  | [] => []
  | x :: l' => insert_desc x (stable_desc l')
  end.

(** No key of the list is NaN. *)
Definition no_nan (l : list (f64 * nat)) : Prop :=
  forall p, In p l -> PrimFloat.is_nan (fst p) = false.

(** The binary64 value the code computes for row 2 of the example: the
    float nearest below 1/sqrt 2. *)
Definition doc2_score : f64 := 0x1.6a09e667f3bccp-1%float.







(** The vocabulary sends distinct terms to distinct columns. *)
Definition vocab_injective (vocab : gmap string Z) : Prop :=
  forall t1 t2 c, vocab !! t1 = Some c -> vocab !! t2 = Some c -> t1 = t2.

Definition rows {Doc : Type} (c : tfidf_components Doc) : Z := fst (shape (tfidf_matrix c)).
Definition cols {Doc : Type} (c : tfidf_components Doc) : Z := snd (shape (tfidf_matrix c)).

(** The invariants the data model puts on a persisted index. *)
Record wf_index {Doc : Type} (c : tfidf_components Doc) : Prop := {
  wf_rows : 0 <= rows c;
  wf_cols : 0 <= cols c;
  wf_data_indices : length (data (tfidf_matrix c)) = length (indices (tfidf_matrix c));
  wf_indptr_length : Z.of_nat (length (indptr (tfidf_matrix c))) = rows c + 1;
  wf_indptr_first : indptr (tfidf_matrix c) !! 0%nat = Some 0;
  wf_indptr_last : indptr (tfidf_matrix c) !! Z.to_nat (rows c)
                   = Some (Z.of_nat (length (data (tfidf_matrix c))));
  wf_indptr_mono : forall (i : nat) (a b : Z),
      indptr (tfidf_matrix c) !! i = Some a ->
      indptr (tfidf_matrix c) !! S i = Some b -> a <= b;
  wf_indices_range : List.Forall (fun j => 0 <= j < cols c) (indices (tfidf_matrix c));
  wf_vocabulary_injective : vocab_injective (vocabulary c);
  wf_vocabulary_image : forall j, (exists t, vocabulary c !! t = Some j) <-> 0 <= j < cols c;
  wf_idf_length : Z.of_nat (length (idf_values c)) = cols c;
  wf_documents_length : Z.of_nat (length (documents c)) = rows c
}.

Definition keys_below (n : Z) (d : dict) : Prop :=
  List.Forall (fun p => 0 <= fst p < n) d.

(** *** Rounding, as the binary64 specification does it *)

(** The state of a right shift: [M] is the number being shifted, [P] the
    power of two it has been divided by so far. *)
Definition shr_inv (M P : Z) (rec : shr_record) : Prop :=
  0 < P /\ 0 <= shr_m rec /\
  exists rem, M = shr_m rec * P + rem /\ 0 <= rem < P /\
              (shr_r rec = true <-> P <= 2 * rem) /\
              (shr_s rec = true <-> rem <> 0 /\ 2 * rem <> P).

(** The last step of a rounding: renormalize a mantissa that rounding up
    has pushed to the next power of two. *)
Definition finish (s : bool) (m e : Z) : spec_float :=
  let '(mrs, e') := shr_fexp prec emax m e loc_Exact in
  match shr_m mrs with
  | Z0 => S754_zero s
  | Zpos p => if e' <=? emax - prec then S754_finite s p e' else S754_infinity s
  | Zneg _ => S754_nan
  end.

(** *** Strings and exceptions *)

(** All characters of a string pass a test. *)
Fixpoint all_chars (f : ascii -> bool) (s : string) : bool :=
  match s with
  | EmptyString => true
  | String c s' => f c && all_chars f s'
  end.

(** [" ".join(tokens)] *)
Fixpoint join_spaces (tokens : list string) : string :=
  match tokens with
  | [] => ""
  | [t] => t
  | t :: rest => String.append t (String " " (join_spaces rest))
  end.

(** The exceptions numpy raises for an index or a shape. *)
Definition index_or_value_error (e : exn) : Prop := e = IndexError \/ e = ValueError.

(** ** Honeycomb configuration
    ([backend/fastapi/observability/honeycomb.py]) *)

Module Honeycomb.

(** The process environment, [os.environ]. *)
Definition environ := gmap string string.

(** [os.getenv(name)] and [os.getenv(name, default)] *)
Definition getenv (env : environ) (name : string) : option string := env !! name.

Definition getenv_default (env : environ) (name default : string) : string :=
  match env !! name with
  | Some v => v
  | None => default
  end.

(** Truth value of an [Optional[str]]: [None] and the empty string are
    false. *)
Definition truthy (x : option string) : bool :=
  match x with
  | Some s => negb (String.eqb s "")
  | None => false
  end.

(** [x or y] *)
Definition py_or (x y : option string) : option string := if truthy x then x else y.

(** [s.split(sep)] for a non-empty separator: the pieces between the
    occurrences of [sep], found from the left and not overlapping.
    [skip] counts the characters of a separator still to be passed. *)
Fixpoint split_on_from (sep s cur : string) (skip : nat) : list string :=
  match s with
  | EmptyString => [cur]
  | String c s' =>
      match skip with
      | S k => split_on_from sep s' cur k
      | O =>
          if String.prefix sep s
          then cur :: split_on_from sep s' "" (String.length sep - 1)
          else split_on_from sep s' (String.append cur (String c "")) 0
      end
  end.

Definition split_on (sep s : string) : list string := split_on_from sep s "" 0.

(** [os.getenv("OTEL_EXPORTER_OTLP_HEADERS", "")
       .split("x-honeycomb-team=")[-1].split(",")[0]] *)
Definition key_of_headers (headers : string) : string :=
  List.hd "" (split_on "," (List.last (split_on "x-honeycomb-team=" headers) "")).

(** Line 46: the API key after the three fallbacks; always a string. *)
Definition resolve_api_key (env : environ) (api_key : option string) : string :=
  match py_or (py_or api_key (getenv env "HONEYCOMB_API_KEY"))
              (Some (key_of_headers (getenv_default env "OTEL_EXPORTER_OTLP_HEADERS" "")))
  with
  | Some key => key
  | None => ""
  end.

(** Line 47: the endpoint; always a string. *)
Definition resolve_endpoint (env : environ) (endpoint : option string) : string :=
  match py_or endpoint
              (Some (getenv_default env "OTEL_EXPORTER_OTLP_ENDPOINT"
                                    "https://api.honeycomb.io:443"))
  with
  | Some e => e
  | None => ""
  end.

(** Values of resource attributes. *)
Inductive attribute : Type :=
| AttrStr (s : string)
| AttrInt (n : Z).

(** What the tracer provider is built from: the attributes given to
    [Resource.create], and the endpoint and headers given to the OTLP
    exporter of its batch processor.  (The provider also gets the
    baggage processor and is installed as the global one.) *)
Record tracer_provider : Type := {
  resource_attributes : list (string * attribute);
  exporter_endpoint : string;
  exporter_headers : list (string * string)
}.

Definition configure_honeycomb (env : environ) (service_name : string)
    (api_key dataset endpoint : option string) (sample_rate : Z)
  : option tracer_provider :=
  let api_key := resolve_api_key env api_key in
  let endpoint := resolve_endpoint env endpoint in
  let dataset := py_or dataset (getenv env "HONEYCOMB_DATASET") in
  if negb (truthy (Some api_key)) then None
  else
    let resource_attributes := [("service.name", AttrStr service_name)] in
    let resource_attributes :=
      if 1 <? sample_rate
      then resource_attributes ++ [("SampleRate", AttrInt sample_rate)]
      else resource_attributes in
    let headers := [("x-honeycomb-team", api_key)] in
    let headers :=
      match dataset with
      | Some d => if truthy dataset then headers ++ [("x-honeycomb-dataset", d)] else headers
      | None => headers
      end in
    Some {| resource_attributes := resource_attributes;
            exporter_endpoint := String.append endpoint "/v1/traces";
            exporter_headers := headers |}.

(** Number of places of [s] where [sep] starts. *)
Fixpoint occurrences (sep s : string) : nat :=
  match s with
  | EmptyString => 0
  | String _ s' => ((if String.prefix sep s then 1 else 0) + occurrences sep s')%nat
  end.

End Honeycomb.

(** ** Order facts about binary64 comparisons *)

Lemma SFcompare_swap (x y : spec_float) :
  SFcompare y x = option_map CompOpp (SFcompare x y).
Proof.
  destruct x as [sx|sx| |sx mx ex], y as [sy|sy| |sy my ey]; simpl;
    try reflexivity;
    try (destruct sx; reflexivity);
    try (destruct sy; reflexivity);
    try (destruct sx, sy; reflexivity).
  destruct sx, sy; simpl; try reflexivity;
    rewrite (Z.compare_antisym ex ey);
    destruct (ex ?= ey)%Z; simpl; try reflexivity;
    change (Pos.compare_cont Eq my mx) with (my ?= mx)%positive;
    change (Pos.compare_cont Eq mx my) with (mx ?= my)%positive;
    rewrite (Pos.compare_antisym mx my);
    destruct (mx ?= my)%positive; reflexivity.
Qed.

Lemma not_nan_SF (x : f64) : PrimFloat.is_nan x = false -> Prim2SF x <> S754_nan.
Proof.
  unfold PrimFloat.is_nan. rewrite FloatAxioms.eqb_spec. intros H E.
  rewrite E in H. discriminate H.
Qed.

Lemma SFcompare_some (x y : spec_float) :
  x <> S754_nan -> y <> S754_nan -> exists c, SFcompare x y = Some c.
Proof.
  intros Hx Hy.
  destruct x as [sx|sx| |sx mx ex], y as [sy|sy| |sy my ey]; simpl;
    try congruence; eauto.
Qed.

Lemma eqb_not_ltb (x y : f64) :
  PrimFloat.eqb x y = true -> PrimFloat.ltb y x = false.
Proof.
  rewrite FloatAxioms.eqb_spec, FloatAxioms.ltb_spec. unfold SFeqb, SFltb.
  rewrite (SFcompare_swap (Prim2SF x) (Prim2SF y)).
  destruct (SFcompare (Prim2SF x) (Prim2SF y)) as [[]|]; simpl; congruence.
Qed.

Lemma ltb_leb (x y : f64) :
  PrimFloat.ltb x y = true -> PrimFloat.leb x y = true.
Proof.
  rewrite FloatAxioms.ltb_spec, FloatAxioms.leb_spec. unfold SFltb, SFleb.
  destruct (SFcompare (Prim2SF x) (Prim2SF y)) as [[]|]; simpl; congruence.
Qed.

Lemma not_ltb_leb (x y : f64) :
  PrimFloat.is_nan x = false -> PrimFloat.is_nan y = false ->
  PrimFloat.ltb x y = false -> PrimFloat.leb y x = true.
Proof.
  intros Hx Hy. apply not_nan_SF in Hx, Hy.
  rewrite FloatAxioms.ltb_spec, FloatAxioms.leb_spec. unfold SFltb, SFleb.
  rewrite (SFcompare_swap (Prim2SF x) (Prim2SF y)).
  destruct (SFcompare_some _ _ Hx Hy) as [c ->].
  destruct c; simpl; congruence.
Qed.

Lemma leb_not_nan (x y : f64) :
  PrimFloat.leb x y = true -> PrimFloat.is_nan x = false /\ PrimFloat.is_nan y = false.
Proof.
  unfold PrimFloat.is_nan. rewrite FloatAxioms.leb_spec, !FloatAxioms.eqb_spec. unfold SFleb, SFeqb.
  destruct (Prim2SF x) as [sx|sx| |sx mx ex], (Prim2SF y) as [sy|sy| |sy my ey];
    simpl; try discriminate; intros _;
    rewrite ?Z.compare_refl, ?Pos.compare_cont_refl;
    change (Pos.compare_cont Eq) with Pos.compare; rewrite ?Pos.compare_refl;
    repeat match goal with s : bool |- _ => destruct s end; simpl; auto.
Qed.

Lemma SFleb_trans (x y z : spec_float) :
  SFleb x y = true -> SFleb y z = true -> SFleb x z = true.
Proof.
  unfold SFleb.
  destruct x as [sx|sx| |sx mx ex], y as [sy|sy| |sy my ey], z as [sz|sz| |sz mz ez];
    cbn [SFcompare];
    repeat match goal with s : bool |- _ => destruct s end;
    try reflexivity; try discriminate;
    change (Pos.compare_cont Eq) with Pos.compare;
    repeat match goal with
           | |- context [(?a ?= ?b)%Z] => destruct (Z.compare_spec a b)
           | |- context [(?a ?= ?b)%positive] => destruct (Pos.compare_spec a b)
           end;
    cbn [CompOpp]; try reflexivity; try discriminate; intros; subst; lia.
Qed.

Lemma fleb_trans (x y z : f64) :
  PrimFloat.leb x y = true -> PrimFloat.leb y z = true -> PrimFloat.leb x z = true.
Proof. rewrite !FloatAxioms.leb_spec. apply SFleb_trans. Qed.

Lemma SFltb_trans (x y z : spec_float) :
  SFltb x y = true -> SFltb y z = true -> SFltb x z = true.
Proof.
  unfold SFltb.
  destruct x as [sx|sx| |sx mx ex], y as [sy|sy| |sy my ey], z as [sz|sz| |sz mz ez];
    cbn [SFcompare];
    repeat match goal with s : bool |- _ => destruct s end;
    try reflexivity; try discriminate;
    change (Pos.compare_cont Eq) with Pos.compare;
    repeat match goal with
           | |- context [(?a ?= ?b)%Z] => destruct (Z.compare_spec a b)
           | |- context [(?a ?= ?b)%positive] => destruct (Pos.compare_spec a b)
           end;
    cbn [CompOpp]; try reflexivity; try discriminate; intros; subst; lia.
Qed.

Lemma fltb_trans (x y z : f64) :
  PrimFloat.ltb x y = true -> PrimFloat.ltb y z = true -> PrimFloat.ltb x z = true.
Proof. rewrite !FloatAxioms.ltb_spec. apply SFltb_trans. Qed.

Lemma SFltb_leb_trans (x y z : spec_float) :
  SFltb x y = true -> SFleb y z = true -> SFltb x z = true.
Proof.
  unfold SFltb, SFleb.
  destruct x as [sx|sx| |sx mx ex], y as [sy|sy| |sy my ey], z as [sz|sz| |sz mz ez];
    cbn [SFcompare];
    repeat match goal with s : bool |- _ => destruct s end;
    try reflexivity; try discriminate;
    change (Pos.compare_cont Eq) with Pos.compare;
    repeat match goal with
           | |- context [(?a ?= ?b)%Z] => destruct (Z.compare_spec a b)
           | |- context [(?a ?= ?b)%positive] => destruct (Pos.compare_spec a b)
           end;
    cbn [CompOpp]; try reflexivity; try discriminate; intros; subst; lia.
Qed.

Lemma fltb_leb_trans (x y z : f64) :
  PrimFloat.ltb x y = true -> PrimFloat.leb y z = true -> PrimFloat.ltb x z = true.
Proof. rewrite !FloatAxioms.ltb_spec, FloatAxioms.leb_spec. apply SFltb_leb_trans. Qed.

Lemma leb_not_ltb (x y : f64) :
  PrimFloat.leb y x = true -> PrimFloat.ltb x y = false.
Proof.
  rewrite FloatAxioms.ltb_spec, FloatAxioms.leb_spec. unfold SFltb, SFleb.
  rewrite (SFcompare_swap (Prim2SF x) (Prim2SF y)).
  destruct (SFcompare (Prim2SF x) (Prim2SF y)) as [[]|]; simpl; congruence.
Qed.

(** ** The stable order: permutation, stability, order *)

Lemma insert_desc_perm (x : f64 * nat) (l : list (f64 * nat)) :
  Permutation (insert_desc x l) (x :: l).
Proof.
  induction l as [|y l IH]; simpl.
  - reflexivity.
  - destruct (PrimFloat.ltb (fst x) (fst y)).
    + rewrite IH. apply perm_swap.
    + reflexivity.
Qed.

Lemma stable_desc_perm (l : list (f64 * nat)) : Permutation (stable_desc l) l.
Proof.
  induction l as [|x l IH]; simpl.
  - reflexivity.
  - rewrite insert_desc_perm. now apply perm_skip.
Qed.

Section Stability.

Variable Q : f64 * nat -> f64 * nat -> Prop.

Lemma insert_desc_pairs (x : f64 * nat) (l : list (f64 * nat)) :
  List.Forall (Q x) l ->
  ForallOrdPairs (kept_or_swapped Q) l ->
  ForallOrdPairs (kept_or_swapped Q) (insert_desc x l).
Proof.
  induction l as [|y l IH]; simpl; intros Hx Hl.
  - constructor; [constructor | constructor].
  - inversion Hx as [|? ? Hxy Hxl]; subst.
    inversion Hl as [|? ? Hy Hl']; subst.
    destruct (PrimFloat.ltb (fst x) (fst y)) eqn:Hlt.
    + constructor; [| now apply IH].
      eapply Permutation_Forall.
      * symmetry. apply insert_desc_perm.
      * constructor; [right; now split | exact Hy].
    + constructor; [| exact Hl].
      constructor; [now left |].
      eapply List.Forall_impl; [| exact Hxl]. intros b Hb. now left.
Qed.

Lemma stable_desc_pairs (l : list (f64 * nat)) :
  ForallOrdPairs Q l -> ForallOrdPairs (kept_or_swapped Q) (stable_desc l).
Proof.
  induction l as [|x l IH]; simpl; intros H.
  - constructor.
  - inversion H as [|? ? Hx Hl]; subst.
    apply insert_desc_pairs; [| now apply IH].
    eapply Permutation_Forall; [| exact Hx].
    symmetry. apply stable_desc_perm.
Qed.

End Stability.

Lemma insert_desc_sorted (x : f64 * nat) (l : list (f64 * nat)) :
  Sorted in_order l -> Sorted in_order (insert_desc x l).
Proof.
  induction l as [|y l IH]; simpl; intros H.
  - repeat constructor.
  - inversion H as [|? ? Hl Hhd]; subst.
    destruct (PrimFloat.ltb (fst x) (fst y)) eqn:Hlt.
    + constructor; [now apply IH |].
      destruct l as [|z l]; simpl.
      * constructor. intros _ _. now apply ltb_leb.
      * destruct (PrimFloat.ltb (fst x) (fst z)).
        -- constructor. inversion Hhd; subst. assumption.
        -- constructor. intros _ _. now apply ltb_leb.
    + constructor; [exact H |].
      constructor. intros Hx Hy. now apply not_ltb_leb.
Qed.

Lemma stable_desc_sorted (l : list (f64 * nat)) : Sorted in_order (stable_desc l).
Proof.
  induction l as [|x l IH]; simpl.
  - constructor.
  - now apply insert_desc_sorted.
Qed.

(** An item goes in after the items with a larger key and before the
    first one without. *)
Lemma insert_desc_app (x : f64 * nat) (front back : list (f64 * nat)) :
  (forall e, In e front -> key_lt x e = true) ->
  match back with
  | [] => True
  | e :: _ => key_lt x e = false
  end ->
  insert_desc x (front ++ back) = front ++ x :: back.
Proof.
  intros Hfront Hback. induction front as [|y front IH]; simpl.
  - destruct back as [|e back]; [reflexivity |].
    simpl. unfold key_lt in Hback. now rewrite Hback.
  - pose proof (Hfront y (or_introl eq_refl)) as Hy. unfold key_lt in Hy. rewrite Hy.
    f_equal. apply IH. intros e He. apply Hfront. now right.
Qed.

(** A list whose keys already descend is left as it is. *)
Lemma stable_desc_fixed (l : list (f64 * nat)) :
  Sorted (fun a b => PrimFloat.leb (fst b) (fst a) = true) l -> stable_desc l = l.
Proof.
  induction 1 as [|x l _ IH Hhd]; simpl; [reflexivity |].
  rewrite IH. destruct Hhd as [|y l Hyx]; simpl; [reflexivity |].
  now rewrite (leb_not_ltb _ _ Hyx).
Qed.

Lemma stable_desc_fold (rest base : list (f64 * nat)) :
  stable_desc (rev rest ++ base)
  = fold_left (fun ranked x => insert_desc x ranked) rest (stable_desc base).
Proof.
  revert base. induction rest as [|x rest IH]; intros base; [reflexivity |].
  simpl. rewrite <- app_assoc. simpl. now rewrite IH.
Qed.

(** ** The sort of the code: a permutation *)

Lemma run_while_app (descending : bool) (prev : f64 * nat) (l run rest : list (f64 * nat)) :
  run_while descending prev l = (run, rest) -> l = run ++ rest.
Proof.
  revert prev run rest. induction l as [|x l IH]; intros prev run rest H; simpl in H.
  - now injection H as <- <-.
  - destruct (Bool.eqb (key_lt x prev) descending).
    + destruct (run_while descending x l) as [run' rest'] eqn:E.
      injection H as <- <-. simpl. f_equal. now apply (IH x).
    + now injection H as <- <-.
Qed.

Lemma count_run_app (l run rest : list (f64 * nat)) (descending : bool) :
  count_run l = (run, rest, descending) -> l = run ++ rest.
Proof.
  destruct l as [|a [|b l]]; simpl; intros H.
  - now injection H as <- <- _.
  - now injection H as <- <- _.
  - destruct (run_while (key_lt b a) b l) as [run' rest'] eqn:E.
    injection H as <- <- _. simpl. do 2 f_equal. now apply run_while_app in E.
Qed.

Lemma binary_insert_perm (a : list (f64 * nat)) (pivot : f64 * nat) :
  Permutation (binary_insert a pivot) (pivot :: a).
Proof.
  unfold binary_insert.
  set (l := bisect (length a) pivot a 0 (length a)).
  rewrite <- (firstn_skipn l a) at 3.
  symmetry. apply Permutation_middle.
Qed.

Lemma binarysort_perm (sorted rest : list (f64 * nat)) :
  Permutation (binarysort sorted rest) (sorted ++ rest).
Proof.
  unfold binarysort. revert sorted.
  induction rest as [|x rest IH]; intros sorted; simpl.
  - now rewrite app_nil_r.
  - rewrite IH, binary_insert_perm. apply Permutation_middle.
Qed.

Lemma list_sort_perm (l : list (f64 * nat)) : Permutation (list_sort l) l.
Proof.
  unfold list_sort. destruct (count_run l) as [[run rest] descending] eqn:E.
  apply count_run_app in E. subst l. rewrite binarysort_perm.
  apply Permutation_app_tail. destruct descending; [| reflexivity].
  symmetry. apply Permutation_rev.
Qed.

Lemma sort_desc_perm (l : list (f64 * nat)) : Permutation (sort_desc l) l.
Proof.
  unfold sort_desc. rewrite <- Permutation_rev, list_sort_perm.
  symmetry. apply Permutation_rev.
Qed.

Lemma sort_desc_length (l : list (f64 * nat)) : length (sort_desc l) = length l.
Proof. apply Permutation_length, sort_desc_perm. Qed.

(** ** The sort of the code: the stable order when no key is NaN *)

Lemma StronglySorted_app {A : Type} (R : A -> A -> Prop) (l1 l2 : list A) :
  StronglySorted R l1 -> StronglySorted R l2 ->
  (forall a b, In a l1 -> In b l2 -> R a b) ->
  StronglySorted R (l1 ++ l2).
Proof.
  intros H1 H2 H12. induction H1 as [|x l1 Hl1 IH Hx]; simpl; [exact H2 |].
  constructor.
  - apply IH. intros a b Ha Hb. apply H12; [now right | exact Hb].
  - apply List.Forall_app. split; [exact Hx |].
    apply List.Forall_forall. intros b Hb. apply H12; [now left | exact Hb].
Qed.

Lemma StronglySorted_app_inv {A : Type} (R : A -> A -> Prop) (l1 l2 : list A) :
  StronglySorted R (l1 ++ l2) ->
  StronglySorted R l1 /\ StronglySorted R l2 /\
  (forall a b, In a l1 -> In b l2 -> R a b).
Proof.
  induction l1 as [|x l1 IH]; simpl; intros H.
  - repeat split; [constructor | exact H | intros a b []].
  - inversion H as [|? ? Hl Hx]; subst.
    destruct (IH Hl) as (H1 & H2 & H12).
    apply List.Forall_app in Hx as [Hx1 Hx2].
    repeat split; [now constructor | exact H2 |].
    intros a b [<- | Ha] Hb.
    + rewrite List.Forall_forall in Hx2. now apply Hx2.
    + now apply H12.
Qed.

Lemma StronglySorted_rev {A : Type} (R : A -> A -> Prop) (l : list A) :
  StronglySorted R l -> StronglySorted (fun a b => R b a) (rev l).
Proof.
  induction 1 as [|x l Hl IH Hx]; simpl; [constructor |].
  apply StronglySorted_app; [exact IH | repeat constructor |].
  intros a b Ha [<- | []]. rewrite List.Forall_forall in Hx.
  apply Hx. now apply in_rev.
Qed.

Lemma StronglySorted_impl {A : Type} (R R' : A -> A -> Prop) (l : list A) :
  (forall a b, In a l -> In b l -> R a b -> R' a b) ->
  StronglySorted R l -> StronglySorted R' l.
Proof.
  intros HR H. induction H as [|x l Hl IH Hx]; constructor.
  - apply IH. intros a b Ha Hb. apply HR; now right.
  - rewrite List.Forall_forall in *. intros b Hb.
    apply HR; [now left | now right | now apply Hx].
Qed.

Lemma StronglySorted_lookup {A : Type} (R : A -> A -> Prop) (l : list A)
    (i j : nat) (a b : A) :
  StronglySorted R l -> (i < j)%nat -> l !! i = Some a -> l !! j = Some b -> R a b.
Proof.
  intros H. revert i j. induction H as [|x l Hl IH Hx]; intros i j Hij Ha Hb.
  - discriminate.
  - destruct j as [|j]; [lia |]. simpl in Hb.
    destruct i as [|i]; simpl in Ha.
    + injection Ha as <-. rewrite List.Forall_forall in Hx. apply Hx.
      apply list_elem_of_In. eapply list_elem_of_lookup_2. exact Hb.
    + apply (IH i j); [lia | assumption | assumption].
Qed.

(** The run that [count_run] finds: each item stands to the one before
    it as the first two do. *)
Lemma run_while_chain (descending : bool) (prev : f64 * nat)
    (l run rest : list (f64 * nat)) :
  run_while descending prev l = (run, rest) ->
  Sorted (fun a b => key_lt b a = descending) (prev :: run).
Proof.
  revert prev run rest. induction l as [|x l IH]; intros prev run rest H; simpl in H.
  - injection H as <- _. repeat constructor.
  - destruct (Bool.eqb (key_lt x prev) descending) eqn:Ex.
    + destruct (run_while descending x l) as [run' rest'] eqn:E.
      injection H as <- _. apply Bool.eqb_prop in Ex.
      constructor; [now apply (IH x run' rest') | now constructor].
    + injection H as <- _. repeat constructor.
Qed.

Lemma count_run_chain (l run rest : list (f64 * nat)) (descending : bool) :
  count_run l = (run, rest, descending) ->
  Sorted (fun a b => key_lt b a = descending) run.
Proof.
  destruct l as [|a [|b l]]; simpl; intros H.
  - injection H as <- _ _. constructor.
  - injection H as <- _ _. repeat constructor.
  - destruct (run_while (key_lt b a) b l) as [run' rest'] eqn:E.
    injection H as <- _ <-.
    constructor; [now apply (run_while_chain _ _ _ _ _ E) | now constructor].
Qed.

(** Items in ascending order of their keys. *)
Lemma ascending_run (run : list (f64 * nat)) :
  no_nan run ->
  Sorted (fun a b => key_lt b a = false) run ->
  StronglySorted (fun a b => PrimFloat.leb (fst a) (fst b) = true) run.
Proof.
  intros Hnan H. apply Sorted_StronglySorted.
  - intros a b c. apply fleb_trans.
  - revert Hnan. induction H as [|x l Hl IH Hhd]; intros Hnan; constructor.
    + apply IH. intros p Hp. apply Hnan. now right.
    + destruct Hhd as [|y l Hxy]; constructor.
      apply not_ltb_leb; [apply Hnan; right; now left | apply Hnan; now left | exact Hxy].
Qed.

Lemma descending_run (run : list (f64 * nat)) :
  Sorted (fun a b => key_lt b a = true) run ->
  StronglySorted (fun a b => key_lt b a = true) run.
Proof.
  apply Sorted_StronglySorted.
  intros a b c Hab Hbc. unfold key_lt in *. exact (fltb_trans _ _ _ Hbc Hab).
Qed.

(** A strictly descending run is what the stable order makes of its
    reverse. *)
Lemma insert_desc_last (x : f64 * nat) (ranked : list (f64 * nat)) :
  (forall e, In e ranked -> key_lt x e = true) -> insert_desc x ranked = ranked ++ [x].
Proof.
  intros H. rewrite <- (app_nil_r ranked) at 1. now apply insert_desc_app.
Qed.

Lemma fold_insert_descending (ranked run : list (f64 * nat)) :
  StronglySorted (fun a b => key_lt b a = true) (ranked ++ run) ->
  fold_left (fun ranked x => insert_desc x ranked) run ranked = ranked ++ run.
Proof.
  revert ranked. induction run as [|x run IH]; intros ranked H; simpl.
  - now rewrite app_nil_r.
  - rewrite insert_desc_last.
    + rewrite IH; rewrite <- app_assoc; [reflexivity | exact H].
    + apply StronglySorted_app_inv in H as (_ & _ & H).
      intros e He. apply (H e x He). now left.
Qed.

Lemma stable_desc_rev_descending (run : list (f64 * nat)) :
  Sorted (fun a b => key_lt b a = true) run -> stable_desc (rev run) = run.
Proof.
  intros H. rewrite <- (app_nil_r (rev run)), stable_desc_fold.
  apply (fold_insert_descending [] run). now apply descending_run.
Qed.

(** Where the binary search stops. *)
Lemma bisect_spec (pivot : f64 * nat) (a : list (f64 * nat)) :
  StronglySorted (fun x y => PrimFloat.leb (fst x) (fst y) = true) a ->
  forall (fuel l r : nat),
    (l <= r <= length a)%nat -> (r - l <= fuel)%nat ->
    (forall i e, (i < l)%nat -> a !! i = Some e -> key_lt pivot e = false) ->
    (forall i e, (r <= i)%nat -> a !! i = Some e -> key_lt pivot e = true) ->
    let k := bisect fuel pivot a l r in
    (k <= length a)%nat /\
    (forall i e, (i < k)%nat -> a !! i = Some e -> key_lt pivot e = false) /\
    (forall i e, (k <= i)%nat -> a !! i = Some e -> key_lt pivot e = true).
Proof.
  intros Hsorted. induction fuel as [|fuel IH]; intros l r Hlr Hfuel Hlow Hhigh;
    cbv zeta; cbn [bisect].
  - assert (l = r) as -> by lia. repeat split; [lia | exact Hlow | exact Hhigh].
  - destruct (Nat.ltb_spec l r) as [Hlt | Hge].
    + set (p := (l + (r - l) / 2)%nat).
      assert (l <= p < r)%nat as Hp.
      { unfold p. pose proof (Nat.Div0.div_lt_upper_bound (r - l) 2 (r - l)).
        pose proof (Nat.Div0.div_le_upper_bound (r - l) 2 (r - l)). lia. }
      destruct (a !! p) as [x|] eqn:Ex.
      * destruct (key_lt pivot x) eqn:Hx.
        -- apply IH; [lia | lia | exact Hlow |].
           intros i e Hi He. destruct (Nat.eq_dec i p) as [-> | Hne]; [congruence |].
           unfold key_lt in *. apply (fltb_leb_trans _ _ _ Hx).
           apply (StronglySorted_lookup _ a p i x e Hsorted); [lia | exact Ex | exact He].
        -- apply IH; [lia | lia | | exact Hhigh].
           intros i e Hi He. destruct (Nat.eq_dec i p) as [-> | Hne]; [congruence |].
           destruct (key_lt pivot e) eqn:He'; [| reflexivity].
           unfold key_lt in *. rewrite <- Hx. symmetry.
           apply (fltb_leb_trans _ _ _ He').
           apply (StronglySorted_lookup _ a i p e x Hsorted); [lia | exact He | exact Ex].
      * apply lookup_ge_None in Ex. lia.
    + assert (l = r) as -> by lia. repeat split; [lia | exact Hlow | exact Hhigh].
Qed.

Lemma binary_insert_place (a : list (f64 * nat)) (pivot : f64 * nat) :
  StronglySorted (fun x y => PrimFloat.leb (fst x) (fst y) = true) a ->
  exists k : nat,
    binary_insert a pivot = firstn k a ++ pivot :: skipn k a /\
    (forall e, In e (firstn k a) -> key_lt pivot e = false) /\
    (forall e, In e (skipn k a) -> key_lt pivot e = true).
Proof.
  intros Hsorted.
  destruct (bisect_spec pivot a Hsorted (length a) 0 (length a)) as (Hk & Hlow & Hhigh);
    [lia | lia | intros i e Hi; lia | |].
  { intros i e Hi He. apply lookup_lt_Some in He. lia. }
  exists (bisect (length a) pivot a 0 (length a)). split; [reflexivity |]. split.
  - intros e He. apply list_elem_of_In, list_elem_of_lookup in He as [i Hi].
    pose proof (lookup_lt_Some _ _ _ Hi) as Hlen. rewrite length_take in Hlen.
    rewrite lookup_take_lt in Hi by lia. apply (Hlow i e); [lia | exact Hi].
  - intros e He. apply list_elem_of_In, list_elem_of_lookup in He as [i Hi].
    rewrite lookup_drop in Hi. apply (Hhigh _ e) in Hi; [exact Hi | lia].
Qed.

(** One binary insertion, seen from the other end of the list, is one
    step of the stable order. *)
Lemma binary_insert_stable (a : list (f64 * nat)) (pivot : f64 * nat) :
  StronglySorted (fun x y => PrimFloat.leb (fst x) (fst y) = true) a ->
  no_nan (pivot :: a) ->
  rev (binary_insert a pivot) = insert_desc pivot (rev a) /\
  StronglySorted (fun x y => PrimFloat.leb (fst x) (fst y) = true) (binary_insert a pivot).
Proof.
  intros Hsorted Hnan.
  destruct (binary_insert_place a pivot Hsorted) as (k & -> & Hlow & Hhigh).
  split.
  - rewrite <- (firstn_skipn k a) at 3.
    rewrite !rev_app_distr. simpl. rewrite <- app_assoc. simpl.
    symmetry. apply insert_desc_app.
    + intros e He. apply Hhigh. now apply in_rev.
    + destruct (rev (firstn k a)) as [|e l] eqn:E; [exact I |].
      apply Hlow. apply in_rev. rewrite E. now left.
  - rewrite <- (firstn_skipn k a) in Hsorted.
    apply StronglySorted_app_inv in Hsorted as (H1 & H2 & H12).
    apply StronglySorted_app; [exact H1 | |].
    + constructor; [exact H2 |]. apply List.Forall_forall. intros e He.
      apply ltb_leb. now apply Hhigh.
    + intros x y Hx [<- | Hy]; [| now apply H12].
      apply not_ltb_leb; [apply Hnan; now left | | now apply Hlow].
      apply Hnan. right. rewrite <- (firstn_skipn k a). apply in_or_app. now left.
Qed.

Lemma binarysort_stable (sorted rest : list (f64 * nat)) :
  StronglySorted (fun x y => PrimFloat.leb (fst x) (fst y) = true) sorted ->
  no_nan (sorted ++ rest) ->
  rev (binarysort sorted rest)
  = fold_left (fun ranked x => insert_desc x ranked) rest (rev sorted).
Proof.
  unfold binarysort. revert sorted.
  induction rest as [|x rest IH]; intros sorted Hsorted Hnan; simpl; [reflexivity |].
  destruct (binary_insert_stable sorted x Hsorted) as [Hrev Hnext].
  { intros p [<- | Hp]; apply Hnan, in_or_app; [right; now left | now left]. }
  rewrite IH, Hrev; [reflexivity | exact Hnext |].
  intros p Hp. apply Hnan.
  apply in_app_or in Hp as [Hp | Hp].
  - apply (Permutation_in _ (binary_insert_perm sorted x)) in Hp.
    destruct Hp as [<- | Hp]; apply in_or_app; [right; now left | now left].
  - apply in_or_app. right. now right.
Qed.

(** When no key is NaN the sort of the code gives the stable descending
    order. *)
Lemma sort_desc_stable (l : list (f64 * nat)) :
  no_nan l -> sort_desc l = stable_desc l.
Proof.
  intros Hnan. unfold sort_desc, list_sort.
  destruct (count_run (rev l)) as [[run rest] descending] eqn:E.
  pose proof (count_run_chain _ _ _ _ E) as Hchain.
  apply count_run_app in E.
  assert (l = rev rest ++ rev run) as Hl.
  { rewrite <- rev_app_distr, <- E. symmetry. apply rev_involutive. }
  assert (no_nan (run ++ rest)) as Hnan'.
  { intros p Hp. apply Hnan. apply in_rev. now rewrite E. }
  assert (no_nan run) as Hrun by (intros p Hp; apply Hnan', in_or_app; now left).
  rewrite Hl, stable_desc_fold.
  destruct descending.
  - rewrite binarysort_stable.
    + now rewrite rev_involutive, stable_desc_rev_descending.
    + apply (StronglySorted_impl (fun a b => key_lt a b = true)).
      * intros a b _ _ Hab. now apply ltb_leb.
      * apply (StronglySorted_rev _ _ (descending_run run Hchain)).
    + intros p Hp. apply Hnan'. apply in_app_or in Hp as [Hp | Hp]; apply in_or_app;
        [left; now apply in_rev | now right].
  - pose proof (ascending_run run Hrun Hchain) as Hasc.
    rewrite binarysort_stable by assumption.
    rewrite stable_desc_fixed; [reflexivity |].
    apply StronglySorted_Sorted. apply (StronglySorted_rev _ _ Hasc).
Qed.

Lemma sort_desc_sorted (l : list (f64 * nat)) :
  no_nan l -> Sorted in_order (sort_desc l).
Proof. intros H. rewrite (sort_desc_stable l H). apply stable_desc_sorted. Qed.

Section SortStability.

Variable Q : f64 * nat -> f64 * nat -> Prop.

Lemma sort_desc_pairs (l : list (f64 * nat)) :
  no_nan l -> ForallOrdPairs Q l -> ForallOrdPairs (kept_or_swapped Q) (sort_desc l).
Proof. intros H. rewrite (sort_desc_stable l H). apply stable_desc_pairs. Qed.

End SortStability.

Lemma In_firstn {A : Type} (n : nat) (l : list A) (x : A) :
  In x (firstn n l) -> In x l.
Proof.
  intros H. rewrite <- (firstn_skipn n l). apply in_or_app. now left.
Qed.

Lemma Sorted_firstn {A : Type} (R : A -> A -> Prop) (n : nat) (l : list A) :
  Sorted R l -> Sorted R (firstn n l).
Proof.
  revert l. induction n as [|n IH]; intros l H; simpl.
  - constructor.
  - destruct l as [|a l]; [constructor |].
    inversion H as [|? ? Hl Hhd]; subst.
    constructor; [now apply IH |].
    destruct l as [|b l]; destruct n; simpl; constructor.
    inversion Hhd; subst. assumption.
Qed.

Lemma ForallOrdPairs_firstn {A : Type} (R : A -> A -> Prop) (n : nat) (l : list A) :
  ForallOrdPairs R l -> ForallOrdPairs R (firstn n l).
Proof.
  revert l. induction n as [|n IH]; intros l H; simpl.
  - constructor.
  - destruct l as [|a l]; [constructor |].
    inversion H as [|? ? Ha Hl]; subst.
    constructor; [| now apply IH].
    rewrite List.Forall_forall in *. intros b Hb. apply Ha.
    rewrite <- (firstn_skipn n l). apply in_or_app. now left.
Qed.

Lemma Sorted_adjacent {A : Type} (R : A -> A -> Prop) (l : list A) (k : nat) (a b : A) :
  Sorted R l -> l !! k = Some a -> l !! S k = Some b -> R a b.
Proof.
  intros H. revert k. induction H as [|x l Hl IH Hhd]; intros k Ha Hb.
  - discriminate.
  - destruct k as [|k]; simpl in *.
    + injection Ha as <-. destruct l as [|y l]; [discriminate |].
      simpl in Hb. injection Hb as <-. inversion Hhd; subst. assumption.
    + now apply (IH k).
Qed.

Lemma ForallOrdPairs_lookup {A : Type} (R : A -> A -> Prop) (l : list A)
    (i j : nat) (a b : A) :
  ForallOrdPairs R l -> (i < j)%nat -> l !! i = Some a -> l !! j = Some b -> R a b.
Proof.
  intros H. revert i j. induction H as [|x l Hx Hl IH]; intros i j Hij Ha Hb.
  - discriminate.
  - destruct j as [|j]; [lia |]. simpl in Hb.
    destruct i as [|i]; simpl in Ha.
    + injection Ha as <-. rewrite List.Forall_forall in Hx. apply Hx.
      apply list_elem_of_In. eapply list_elem_of_lookup_2. exact Hb.
    + apply (IH i j); [lia | assumption | assumption].
Qed.

(** ** Reading a successful run backwards *)

Lemma bind_ok {A B : Type} (m : result A) (k : A -> result B) (b : B) :
  bind m k = Ok b -> exists a, m = Ok a /\ k a = Ok b.
Proof. destruct m as [a|e]; simpl; [eauto | discriminate]. Qed.

Lemma wrap_exception_ok {A : Type} (prefix : string) (m : result A) (a : A) :
  wrap_exception prefix m = Ok a -> m = Ok a.
Proof. destruct m; simpl; congruence. Qed.

Lemma mapM_Forall2 {A B : Type} (f : A -> result B) (l : list A) (bs : list B) :
  mapM f l = Ok bs -> List.Forall2 (fun a b => f a = Ok b) l bs.
Proof.
  revert bs. induction l as [|a l IH]; simpl; intros bs H.
  - injection H as <-. constructor.
  - apply bind_ok in H as (b & Hb & H).
    apply bind_ok in H as (bs' & Hbs & H).
    injection H as <-. constructor; [exact Hb | now apply IH].
Qed.

Lemma mapM_total {A B : Type} (f : A -> result B) (l : list A) :
  List.Forall (fun a => exists b, f a = Ok b) l -> exists bs, mapM f l = Ok bs.
Proof.
  induction 1 as [|a l [b Hb] _ [bs Hbs]]; simpl.
  - eauto.
  - rewrite Hb; simpl. rewrite Hbs; simpl. eauto.
Qed.

Lemma mapM_length {A B : Type} (f : A -> result B) (l : list A) (bs : list B) :
  mapM f l = Ok bs -> length bs = length l.
Proof.
  intros H. apply mapM_Forall2 in H.
  symmetry. eapply List.Forall2_length. exact H.
Qed.

Section Inversion.

Variable Doc : Type.
Implicit Types (c : tfidf_components Doc) (results : list (search_result Doc)).

Lemma semantic_search_ok (st : storage Doc) tracing query cache_dir top_n results :
  semantic_search st tracing query cache_dir top_n = Ok results ->
  exists c query_vector cosine_similarities,
    load_tfidf_components st cache_dir = Ok c /\
    vectorize_query query (vocabulary c) (idf_values c) = Ok query_vector /\
    calculate_similarities (tfidf_matrix c) query_vector = Ok cosine_similarities /\
    assemble (documents c) (top_results cosine_similarities top_n) = Ok results.
Proof.
  unfold semantic_search.
  destruct (load_tfidf_components st cache_dir) as [c|e].
  - unfold search_loaded. intros H.
    apply bind_ok in H as (qv & Hqv & H).
    apply wrap_exception_ok in Hqv, H.
    unfold rank_and_assemble in H.
    apply bind_ok in H as (sims & Hsims & H).
    exists c, qv, sims. auto.
  - destruct (is_RuntimeError e); [destruct tracing |]; discriminate.
Qed.

Lemma calculate_similarities_rows (m : csr_matrix) (qv : dict) sims :
  calculate_similarities m qv = Ok sims ->
  map snd sims = seq 0 (Z.to_nat (fst (shape m))).
Proof.
  unfold calculate_similarities. intros H.
  apply bind_ok in H as (z & _ & H).
  apply bind_ok in H as (q & _ & H).
  apply mapM_Forall2 in H.
  induction H as [|i p l sims Hp _ IH]; simpl.
  - reflexivity.
  - f_equal; [| exact IH].
    unfold score_row in Hp.
    apply bind_ok in Hp as (dv & _ & Hp).
    apply bind_ok in Hp as (s & _ & Hp).
    injection Hp as <-. reflexivity.
Qed.

Lemma assemble_scores (docs : list Doc) top results :
  assemble docs top = Ok results ->
  map score results = map fst top /\
  List.Forall2 (fun p r => score r = fst p /\
                           np_get docs (Z.of_nat (snd p)) = Ok (document r))
               top results.
Proof.
  unfold assemble. intros H. apply mapM_Forall2 in H.
  induction H as [|p r top results Hp _ [IH1 IH2]]; simpl.
  - split; [reflexivity | constructor].
  - apply bind_ok in Hp as (d & Hd & Hp). injection Hp as <-. simpl.
    split; [now f_equal |]. constructor; [now split | exact IH2].
Qed.

End Inversion.

Lemma slice_bound_le (len : nat) (x : Z) : (slice_bound len x <= len)%nat.
Proof. unfold slice_bound. destruct (x <? 0) eqn:E; lia. Qed.

Lemma slice_bound_nonneg (len : nat) (x : Z) :
  0 <= x -> Z.of_nat (slice_bound len x) <= x.
Proof. unfold slice_bound. intros H. destruct (x <? 0) eqn:E; lia. Qed.

Lemma slice_bound_large (len : nat) (x : Z) :
  Z.of_nat len <= x -> slice_bound len x = len.
Proof. unfold slice_bound. intros H. destruct (x <? 0) eqn:E; lia. Qed.


(** Rows listed in increasing order: the state of [cosine_similarities]
    before the sort. *)
Lemma seq_rows_increasing (l : list (f64 * nat)) (start len : nat) :
  map snd l = seq start len ->
  ForallOrdPairs (fun a b => (snd a < snd b)%nat) l.
Proof.
  revert start len. induction l as [|a l IH]; intros start len H.
  - constructor.
  - destruct len as [|len]; [discriminate |].
    simpl in H. injection H as Ha Hl.
    constructor; [| now apply (IH (S start) len)].
    rewrite List.Forall_forall. intros b Hb.
    assert (In (snd b) (seq (S start) len)) as Hin.
    { rewrite <- Hl. now apply in_map. }
    apply in_seq in Hin. lia.
Qed.

(** ** The worked examples *)


(** C1.  On the example index the query "apple apple" vectorizes to
    {0: 4.0}; the row similarities are 1.0, 0.0 and a float within 1e-9
    of 1/sqrt 2 (it is 0.70710678 to eight decimals); with top_n = 2 the
    search returns document 0 with score 1.0, then document 2 with that
    float. *)
Theorem apple_apple_ranking :
  vectorize_query "apple apple" Example.vocab Example.idf = Ok [(0, 4%float)] /\
  calculate_similarities Example.matrix [(0, 4%float)]
    = Ok [(1%float, 0%nat); (0%float, 1%nat); (doc2_score, 2%nat)] /\
  (exists v : Q,
     Q_of_float doc2_score = Some v /\
     ((1 # 1000000000) < v)%Q /\
     ((v - (1 # 1000000000)) * (v - (1 # 1000000000)) < (1 # 2))%Q /\
     ((1 # 2) < (v + (1 # 1000000000)) * (v + (1 # 1000000000)))%Q /\
     ((70710678 # 100000000) - (5 # 1000000000) < v)%Q /\
     (v < (70710678 # 100000000) + (5 # 1000000000))%Q) /\
  forall tracing,
    semantic_search Example.store tracing "apple apple" "cache" 2
    = Ok [ {| score := 1%float; document := "doc0" |};
           {| score := doc2_score; document := "doc2" |} ].
Proof.
  split; [vm_compute; reflexivity |].
  split; [vm_compute; reflexivity |].
  split.
  - eexists. split; [vm_compute; reflexivity |].
    repeat split; vm_compute; reflexivity.
  - intros tracing. vm_compute. reflexivity.
Qed.

Lemma lookup_map {A B : Type} (f : A -> B) (l : list A) (k : nat) :
  map f l !! k = option_map f (l !! k).
Proof.
  revert k. induction l as [|a l IH]; intros [|k]; simpl; auto.
Qed.

Lemma lookup_map_eq {A B C : Type} (f : A -> C) (g : B -> C)
    (l : list A) (l' : list B) (k : nat) (a : A) :
  map f l = map g l' -> l !! k = Some a -> exists b, l' !! k = Some b /\ g b = f a.
Proof.
  intros E Ha.
  assert (map g l' !! k = Some (f a)) as H.
  { rewrite <- E, lookup_map, Ha. reflexivity. }
  rewrite lookup_map in H. destruct (l' !! k) as [b|]; [| discriminate].
  injection H as H. eauto.
Qed.

(** C3, as the code has it.  Whenever a search succeeds and no row
    score is NaN, rows of the returned ranking that have equal scores
    stand in ascending row order.  On the example index the query "zzz"
    has the empty vector, every row scores 0.0, and with top_n = 2 the
    search returns documents 0 and 1 in that order. *)
Theorem ties_keep_row_order :
  (forall (Doc : Type) (st : storage Doc) tracing query cache_dir top_n results,
      semantic_search st tracing query cache_dir top_n = Ok results ->
      exists c query_vector cosine_similarities top,
        load_tfidf_components st cache_dir = Ok c /\
        vectorize_query query (vocabulary c) (idf_values c) = Ok query_vector /\
        calculate_similarities (tfidf_matrix c) query_vector = Ok cosine_similarities /\
        top = top_results cosine_similarities top_n /\
        assemble (documents c) top = Ok results /\
        (no_nan cosine_similarities ->
         forall (i j : nat) (a b : f64 * nat),
           (i < j)%nat -> top !! i = Some a -> top !! j = Some b ->
           PrimFloat.eqb (fst a) (fst b) = true -> (snd a < snd b)%nat)) /\
  vectorize_query "zzz" Example.vocab Example.idf = Ok [] /\
  calculate_similarities Example.matrix []
    = Ok [(0%float, 0%nat); (0%float, 1%nat); (0%float, 2%nat)] /\
  forall tracing,
    semantic_search Example.store tracing "zzz" "cache" 2
    = Ok [ {| score := 0%float; document := "doc0" |};
           {| score := 0%float; document := "doc1" |} ].
Proof.
  split; [| repeat split; try intros tracing; vm_compute; reflexivity].
  intros Doc st tracing query cache_dir top_n results H.
  apply semantic_search_ok in H as (c & qv & sims & Hc & Hqv & Hsims & Hres).
  exists c, qv, sims, (top_results sims top_n).
  repeat (split; [assumption || reflexivity |]).
  intros Hnan i j a b Hij Ha Hb Heq.
  pose proof (calculate_similarities_rows _ _ _ Hsims) as Hrows.
  apply seq_rows_increasing in Hrows.
  apply (sort_desc_pairs _ _ Hnan) in Hrows.
  apply (ForallOrdPairs_firstn _ (slice_bound (length (sort_desc sims)) top_n)) in Hrows.
  destruct (ForallOrdPairs_lookup _ _ i j a b Hrows Hij Ha Hb) as [Hlt | [_ Hlt]].
  - exact Hlt.
  - apply eqb_not_ltb in Heq. congruence.
Qed.

Lemma ties_keep_row_order_witness :
  semantic_search Example.store false "zzz" "cache" 2
  = Ok [ {| score := 0%float; document := "doc0" |};
         {| score := 0%float; document := "doc1" |} ] /\
  (snd (0%float, 0%nat) < snd (0%float, 1%nat))%nat.
Proof.
  assert (semantic_search Example.store false "zzz" "cache" 2
          = Ok [ {| score := 0%float; document := "doc0" |};
                 {| score := 0%float; document := "doc1" |} ]) as Hrun
    by (vm_compute; reflexivity).
  split; [exact Hrun |].
  destruct (proj1 ties_keep_row_order string Example.store false "zzz" "cache" 2 _ Hrun)
    as (c & qv & sims & top & Hc & Hqv & Hsims & Htop & _ & H).
  vm_compute in Hc. injection Hc as <-.
  vm_compute in Hqv. injection Hqv as <-.
  vm_compute in Hsims. injection Hsims as <-.
  vm_compute in Htop. subst top.
  apply (H ltac:(intros p [<- | [<- | [<- | []]]]; reflexivity) 0%nat 1%nat);
    [lia | reflexivity | reflexivity | reflexivity].
Defined.

(** The index with seven rows satisfies the invariants of the data
    model. *)
Lemma skewed_wf : wf_index Example.skewed.
Proof.
  constructor; try (vm_compute; congruence); try reflexivity.
  - intros i a b Ha Hb.
    assert (i < 7)%nat as Hi by (apply lookup_lt_Some in Hb; simpl in Hb; lia).
    destruct i as [|[|[|[|[|[|[|i]]]]]]]; try lia;
      vm_compute in Ha, Hb; injection Ha as <-; injection Hb as <-.
    all: lia.
  - unfold cols. simpl. repeat (apply List.Forall_cons; [lia |]). apply List.Forall_nil.
  - intros t1 t2 j. unfold Example.skewed, Example.vocab. simpl.
    rewrite !lookup_insert. repeat case_decide; subst; try congruence;
      rewrite ?lookup_empty; congruence.
  - intros j. unfold cols, Example.skewed, Example.vocab. simpl. split.
    + intros [t Ht]. rewrite !lookup_insert in Ht.
      repeat case_decide; subst; rewrite ?lookup_empty in Ht; try discriminate;
        injection Ht as <-; lia.
    + intros Hj. assert (j = 0 \/ j = 1) as [-> | ->] by lia.
      * exists "apple". reflexivity.
      * exists "banana". reflexivity.
Qed.

(** C3 as stated fails when a score is NaN.  On the index with seven
    rows, which satisfies the invariants of the data model, the query
    "apple" scores the rows 0, 0, 0, 0, NaN, 0, 1; the sort leaves them
    in the order 1, 4, 6, 0, 2, 3, 5, where row 1 stands before row 0
    although both score 0.0. *)
Lemma ties_out_of_row_order :
  wf_index Example.skewed /\
  vectorize_query "apple" Example.vocab (idf_values Example.skewed)
  = Ok [(0, 0x1p100%float)] /\
  calculate_similarities (tfidf_matrix Example.skewed) [(0, 0x1p100%float)]
  = Ok [(0%float, 0%nat); (0%float, 1%nat); (0%float, 2%nat); (0%float, 3%nat);
        (PrimFloat.nan, 4%nat); (0%float, 5%nat); (1%float, 6%nat)] /\
  semantic_search Example.skewed_store false "apple" "cache" 7
  = Ok [ {| score := 0%float; document := "doc1" |};
         {| score := PrimFloat.nan; document := "doc4" |};
         {| score := 1%float; document := "doc6" |};
         {| score := 0%float; document := "doc0" |};
         {| score := 0%float; document := "doc2" |};
         {| score := 0%float; document := "doc3" |};
         {| score := 0%float; document := "doc5" |} ] /\
  exists (i j : nat) (a b : f64 * nat),
    (i < j)%nat /\
    top_results [(0%float, 0%nat); (0%float, 1%nat); (0%float, 2%nat); (0%float, 3%nat);
                 (PrimFloat.nan, 4%nat); (0%float, 5%nat); (1%float, 6%nat)] 7 !! i
    = Some a /\
    top_results [(0%float, 0%nat); (0%float, 1%nat); (0%float, 2%nat); (0%float, 3%nat);
                 (PrimFloat.nan, 4%nat); (0%float, 5%nat); (1%float, 6%nat)] 7 !! j
    = Some b /\
    PrimFloat.eqb (fst a) (fst b) = true /\
    ~ (snd a < snd b)%nat.
Proof.
  split; [exact skewed_wf |].
  split; [vm_compute; reflexivity |].
  split; [vm_compute; reflexivity |].
  split; [vm_compute; reflexivity |].
  exists 0%nat, 3%nat, (0%float, 1%nat), (0%float, 0%nat).
  split; [lia |].
  split; [vm_compute; reflexivity |].
  split; [vm_compute; reflexivity |].
  split; [reflexivity | simpl; lia].
Qed.

(** C5, as the code has it.  The returned sequence is no longer than
    top_n when top_n is not negative, and when no row score is NaN the
    returned scores are in descending order. *)
Theorem results_bounded_and_descending :
  forall (Doc : Type) (st : storage Doc) tracing query cache_dir top_n results,
    semantic_search st tracing query cache_dir top_n = Ok results ->
    (0 <= top_n -> Z.of_nat (length results) <= top_n) /\
    forall (c : tfidf_components Doc) (query_vector : dict)
           (cosine_similarities : list (f64 * nat)),
      load_tfidf_components st cache_dir = Ok c ->
      vectorize_query query (vocabulary c) (idf_values c) = Ok query_vector ->
      calculate_similarities (tfidf_matrix c) query_vector = Ok cosine_similarities ->
      no_nan cosine_similarities ->
      forall (k : nat) (r1 r2 : search_result Doc),
        results !! k = Some r1 -> results !! S k = Some r2 ->
        PrimFloat.leb (score r2) (score r1) = true.
Proof.
  intros Doc st tracing query cache_dir top_n results H.
  apply semantic_search_ok in H as (c & qv & sims & Hc & Hqv & Hsims & Hres).
  pose proof (mapM_length _ _ _ Hres) as Hlen.
  apply assemble_scores in Hres as [Hscores _].
  unfold top_results, py_prefix in *.
  split.
  - intros Hn. rewrite Hlen, length_firstn.
    pose proof (slice_bound_nonneg (length (sort_desc sims)) top_n Hn). lia.
  - intros c' qv' sims' Hc' Hqv' Hsims' Hnan k r1 r2 H1 H2.
    assert (c' = c) as -> by congruence.
    assert (qv' = qv) as -> by congruence.
    assert (sims' = sims) as -> by congruence.
    destruct (lookup_map_eq _ _ _ _ k r1 Hscores H1) as (a & Ha & Ea).
    destruct (lookup_map_eq _ _ _ _ (S k) r2 Hscores H2) as (b & Hb & Eb).
    pose proof (Sorted_firstn in_order (slice_bound (length (sort_desc sims)) top_n)
                  _ (sort_desc_sorted sims Hnan)) as Hs.
    pose proof (Sorted_adjacent _ _ k a b Hs Ha Hb) as Hab.
    unfold in_order in Hab. rewrite Ea, Eb in Hab.
    assert (forall p, In p (firstn (slice_bound (length (sort_desc sims)) top_n)
                                   (sort_desc sims)) ->
                      PrimFloat.is_nan (fst p) = false) as Hin.
    { intros p Hp. apply Hnan. apply (Permutation_in _ (sort_desc_perm sims)).
      exact (In_firstn _ _ _ Hp). }
    apply Hab.
    + rewrite <- Ea. apply Hin. apply list_elem_of_In. eapply list_elem_of_lookup_2. exact Ha.
    + rewrite <- Eb. apply Hin. apply list_elem_of_In. eapply list_elem_of_lookup_2. exact Hb.
Qed.

Lemma results_bounded_and_descending_witness :
  (0 <= 2 -> Z.of_nat 2 <= 2) /\
  PrimFloat.leb doc2_score 1%float = true.
Proof.
  destruct (results_bounded_and_descending string Example.store false
              "apple apple" "cache" 2
              [ {| score := 1%float; document := "doc0" |};
                {| score := doc2_score; document := "doc2" |} ])
    as [Hlen Hord].
  - vm_compute. reflexivity.
  - split; [exact Hlen |].
    apply (Hord Example.components [(0, 4%float)]
                [(1%float, 0%nat); (0%float, 1%nat); (doc2_score, 2%nat)]
                ltac:(vm_compute; reflexivity) ltac:(vm_compute; reflexivity)
                ltac:(vm_compute; reflexivity)
                ltac:(intros p [<- | [<- | [<- | []]]]; reflexivity)
                0%nat {| score := 1%float; document := "doc0" |}
                      {| score := doc2_score; document := "doc2" |});
      reflexivity.
Defined.

(** C5 as stated fails twice over.  With top_n = -1 the example index
    returns two results, more than top_n; and on the index with large
    weights the first returned score is NaN, which is not [>=] the next. *)
Lemma results_not_always_bounded_or_descending :
  (exists results,
      semantic_search Example.store false "apple" "cache" (-1) = Ok results /\
      ~ (Z.of_nat (length results) <= -1)) /\
  (exists r1 r2,
      semantic_search Example.large_store false "apple" "cache" 2 = Ok [r1; r2] /\
      PrimFloat.leb (score r2) (score r1) = false).
Proof.
  split.
  - eexists. split; [vm_compute; reflexivity |]. simpl. lia.
  - do 2 eexists. split; [vm_compute; reflexivity |]. vm_compute. reflexivity.
Qed.

(** ** Cosine similarity with a zero norm *)

(** C4.  For two vectors of one length, if the norm of either is exactly
    zero then the similarity is the constant 0.0 of the branch without a
    division: no exception and no NaN. *)
Theorem zero_norm_gives_zero (vec1 vec2 : list f64) :
  length vec1 = length vec2 ->
  PrimFloat.eqb (np_linalg_norm vec1) fzero = true \/
  PrimFloat.eqb (np_linalg_norm vec2) fzero = true ->
  cosine_similarity_manual vec1 vec2 = Ok fzero /\
  PrimFloat.is_nan fzero = false.
Proof.
  intros Hlen Hz. split; [| reflexivity].
  unfold cosine_similarity_manual, np_dot.
  rewrite Hlen, Nat.eqb_refl. simpl.
  destruct Hz as [-> | ->]; simpl; [reflexivity |].
  now rewrite andb_false_r.
Qed.

Lemma zero_norm_gives_zero_witness :
  cosine_similarity_manual [0%float; 0%float] [4%float; 0%float] = Ok fzero /\
  PrimFloat.is_nan fzero = false.
Proof.
  apply (zero_norm_gives_zero [0%float; 0%float] [4%float; 0%float]).
  - reflexivity.
  - left. vm_compute. reflexivity.
Defined.

(** ** The vectorizer *)

Lemma distinct_In (l : list string) (t : string) : In t (distinct l) <-> In t l.
Proof.
  induction l as [|x l IH]; simpl; [tauto |].
  rewrite List.filter_In, IH.
  destruct (String.eqb_spec x t) as [->|Hne]; simpl; [tauto |].
  split; [tauto | intros [H | H]; [congruence | tauto]].
Qed.

Lemma NoDup_filter_bool {A : Type} (f : A -> bool) (l : list A) :
  List.NoDup l -> List.NoDup (List.filter f l).
Proof.
  induction 1 as [|x l Hx Hl IH]; simpl; [constructor |].
  destruct (f x); [| exact IH].
  constructor; [| exact IH]. rewrite List.filter_In. tauto.
Qed.

Lemma distinct_NoDup (l : list string) : List.NoDup (distinct l).
Proof.
  induction l as [|x l IH]; simpl; constructor.
  - rewrite List.filter_In. intros [_ H]. now rewrite String.eqb_refl in H.
  - now apply NoDup_filter_bool.
Qed.

Lemma distinct_set_order (tokens : list string) : set_order tokens (distinct tokens).
Proof. split; [apply distinct_NoDup | apply distinct_In]. Qed.

Lemma vectorize_loop_absent (items : list (string * nat)) (vocab : gmap string Z)
    (idf : list f64) (qv : dict) :
  (forall p, In p items -> vocab !! fst p = None) ->
  vectorize_loop items vocab idf qv = Ok qv.
Proof.
  induction items as [|[term cnt] items IH]; simpl; intros H; [reflexivity |].
  pose proof (H (term, cnt) (or_introl eq_refl)) as E. simpl in E. rewrite E.
  apply IH. intros p Hp. apply H. now right.
Qed.

(** Dropping the items whose term the vocabulary lacks changes nothing. *)
Lemma vectorize_loop_known (items : list (string * nat)) (vocab : gmap string Z)
    (idf : list f64) (qv : dict) :
  vectorize_loop items vocab idf qv
  = vectorize_loop
      (List.filter (fun p => match vocab !! fst p with Some _ => true | None => false end)
                   items)
      vocab idf qv.
Proof.
  revert qv. induction items as [|[term cnt] items IH]; simpl; intros qv; [reflexivity |].
  destruct (vocab !! term) as [index|] eqn:E; simpl.
  - rewrite E. destruct (np_get idf index); simpl; [apply IH | reflexivity].
  - apply IH.
Qed.

(** C8.  Whatever the order in which the set of tokens is visited: a
    query whose tokens are all missing from the vocabulary gives the
    empty vector and no exception; and in any query the missing tokens
    can be struck out without changing the outcome. *)
Theorem unknown_tokens_are_dropped (vocab : gmap string Z) (idf : list f64)
    (query : string) (order : list string) :
  set_order (tokenize query) order ->
  ((forall t, In t (tokenize query) -> vocab !! t = None) ->
   vectorize_query_in order query vocab idf = Ok [] /\
   vectorize_query query vocab idf = Ok []) /\
  vectorize_query_in order query vocab idf
  = vectorize_loop
      (List.filter (fun p => match vocab !! fst p with Some _ => true | None => false end)
                   (token_counts order (tokenize query)))
      vocab idf [].
Proof.
  intros [_ Hin]. split; [| apply vectorize_loop_known].
  intros Habs.
  assert (forall o, (forall t, In t o -> In t (tokenize query)) ->
                    vectorize_query_in o query vocab idf = Ok []) as H.
  { intros o Ho. unfold vectorize_query_in. apply vectorize_loop_absent.
    intros p Hp. unfold token_counts in Hp. apply in_map_iff in Hp as (t & <- & Ht).
    simpl. apply Habs, Ho, Ht. }
  split.
  - apply H. intros t. apply Hin.
  - apply H. intros t. apply distinct_In.
Qed.

Lemma unknown_tokens_are_dropped_witness :
  vectorize_query_in ["zzz"; "qqq"] "zzz QQQ zzz" Example.vocab Example.idf = Ok [] /\
  vectorize_query "zzz QQQ zzz" Example.vocab Example.idf = Ok [].
Proof.
  apply (unknown_tokens_are_dropped Example.vocab Example.idf "zzz QQQ zzz" ["zzz"; "qqq"]).
  - split.
    + repeat constructor; simpl; intuition discriminate.
    + intros t. vm_compute. tauto.
  - intros t Ht. vm_compute in Ht.
    destruct Ht as [<- | [<- | [<- | []]]]; vm_compute; reflexivity.
Defined.

(** *** Order and letter case of the tokens *)


Lemma dict_get_set (d : dict) (k k' : Z) (v : f64) :
  dict_get (dict_set d k v) k' = if k =? k' then Some v else dict_get d k'.
Proof.
  induction d as [|[k0 v0] d IH]; simpl.
  - reflexivity.
  - destruct (k0 =? k) eqn:E0; simpl.
    + apply Z.eqb_eq in E0 as ->. destruct (k =? k'); reflexivity.
    + destruct (k0 =? k') eqn:E1; [| exact IH].
      apply Z.eqb_eq in E1 as ->. now rewrite Z.eqb_sym, E0.
Qed.




Lemma np_get_raise {A : Type} (a : list A) (i : Z) (e : exn) :
  np_get a i = Raise e -> e = IndexError.
Proof.
  unfold np_get. destruct (norm_index (length a) i) as [k|]; [| congruence].
  destruct (a !! k); congruence.
Qed.

Lemma vectorize_loop_raise items (vocab : gmap string Z) idf qv e :
  vectorize_loop items vocab idf qv = Raise e -> e = IndexError.
Proof.
  revert qv. induction items as [|[term cnt] items IH]; simpl; intros qv H.
  - discriminate.
  - destruct (vocab !! term) as [index|]; [| now apply (IH qv)].
    destruct (np_get idf index) as [w|e'] eqn:E; simpl in H.
    + now apply (IH _ H).
    + injection H as <-. now apply np_get_raise in E.
Qed.




Lemma lower_append (a b : string) :
  lower (String.append a b) = String.append (lower a) (lower b).
Proof. induction a as [|c a IH]; simpl; [reflexivity | now rewrite IH]. Qed.






Lemma token_counts_terms (order tokens : list string) :
  map fst (token_counts order tokens) = order.
Proof.
  unfold token_counts. rewrite map_map. simpl. apply map_id.
Qed.







(** ** Well-formed indexes never raise *)

Lemma norm_index_inside (n : nat) (i : Z) :
  0 <= i < Z.of_nat n -> norm_index n i = Some (Z.to_nat i).
Proof.
  intros H. unfold norm_index.
  destruct (0 <=? i) eqn:E1; [| lia]. destruct (i <? Z.of_nat n) eqn:E2; [| lia].
  reflexivity.
Qed.

Lemma np_get_inside {A : Type} (a : list A) (i : Z) :
  0 <= i < Z.of_nat (length a) -> exists x, np_get a i = Ok x /\ a !! Z.to_nat i = Some x.
Proof.
  intros H. unfold np_get. rewrite norm_index_inside by exact H.
  destruct (a !! Z.to_nat i) as [x|] eqn:E; [eauto |].
  apply lookup_ge_None in E. lia.
Qed.

Lemma dict_set_keys (n : Z) (d : dict) (k : Z) (v : f64) :
  0 <= k < n -> keys_below n d -> keys_below n (dict_set d k v).
Proof.
  intros Hk. unfold keys_below.
  induction d as [|[k' v'] d IH]; simpl; intros H.
  - constructor; [exact Hk | constructor].
  - inversion H as [|? ? Hp Hd]; subst.
    destruct (k' =? k); constructor; simpl; auto.
Qed.

Lemma vectorize_loop_total items (vocab : gmap string Z) idf qv :
  (forall t j, vocab !! t = Some j -> 0 <= j < Z.of_nat (length idf)) ->
  keys_below (Z.of_nat (length idf)) qv ->
  exists qv', vectorize_loop items vocab idf qv = Ok qv' /\
              keys_below (Z.of_nat (length idf)) qv'.
Proof.
  intros Hv. revert qv. induction items as [|[term cnt] items IH]; simpl; intros qv Hqv.
  - eauto.
  - destruct (vocab !! term) as [index|] eqn:E; [| now apply IH].
    destruct (np_get_inside idf index (Hv _ _ E)) as (w & -> & _). simpl.
    apply IH. apply dict_set_keys; [now apply (Hv term) | exact Hqv].
Qed.

Lemma fill_query_total (d : dict) (v : list f64) :
  keys_below (Z.of_nat (length v)) d ->
  exists v', fill_query d v = Ok v' /\ length v' = length v.
Proof.
  revert v. induction d as [|[k x] d IH]; simpl; intros v H.
  - eauto.
  - inversion H as [|? ? Hk Hd]; subst. simpl in Hk.
    unfold np_set. rewrite norm_index_inside by exact Hk. simpl.
    destruct (IH (<[Z.to_nat k := x]> v)) as (v' & Hv' & Hlen).
    + now rewrite length_insert.
    + exists v'. split; [exact Hv' |]. now rewrite Hlen, length_insert.
Qed.

Lemma py_slice_length {A B : Type} (a : list A) (b : list B) (s e : Z) :
  length a = length b -> length (py_slice a s e) = length (py_slice b s e).
Proof.
  intros H. unfold py_slice. rewrite !length_firstn, !length_skipn, H. reflexivity.
Qed.

Lemma py_slice_In {A : Type} (a : list A) (s e : Z) (x : A) :
  In x (py_slice a s e) -> In x a.
Proof.
  unfold py_slice. intros H.
  rewrite <- (firstn_skipn (slice_bound (length a) s) a). apply in_or_app. right.
  rewrite <- (firstn_skipn (slice_bound (length a) e - slice_bound (length a) s)
                (skipn (slice_bound (length a) s) a)).
  apply in_or_app. now left.
Qed.

Lemma store_all_length (a : list f64) (ivs : list (nat * f64)) :
  length (store_all a ivs) = length a.
Proof.
  revert a. induction ivs as [|[k v] ivs IH]; intros a; simpl; [reflexivity |].
  now rewrite IH, length_insert.
Qed.

Lemma np_set_many_total (a : list f64) (idx : list Z) (vals : list f64) :
  length vals = length idx ->
  List.Forall (fun j => 0 <= j < Z.of_nat (length a)) idx ->
  exists v, np_set_many a idx vals = Ok v /\ length v = length a.
Proof.
  intros Hlen Hidx. unfold np_set_many, broadcast_to.
  rewrite Hlen, Nat.eqb_refl. simpl.
  destruct (mapM_total (check_index (length a)) idx) as [ks ->].
  - eapply List.Forall_impl; [| exact Hidx]. intros j Hj.
    unfold check_index. rewrite norm_index_inside by exact Hj. eauto.
  - simpl. eexists. split; [reflexivity | apply store_all_length].
Qed.

Lemma np_zeros_total (n : Z) :
  0 <= n -> np_zeros n = Ok (repeat fzero (Z.to_nat n)).
Proof. intros H. unfold np_zeros. destruct (n <? 0) eqn:E; [lia | reflexivity]. Qed.

Lemma cosine_similarity_total (vec1 vec2 : list f64) :
  length vec1 = length vec2 -> exists s, cosine_similarity_manual vec1 vec2 = Ok s.
Proof.
  intros H. unfold cosine_similarity_manual, np_dot. rewrite H, Nat.eqb_refl. simpl.
  match goal with |- context [if ?b then _ else _] => destruct b end; eauto.
Qed.

Lemma mapM_firstn {A B : Type} (f : A -> result B) (l : list A) (bs : list B) (n : nat) :
  mapM f l = Ok bs -> mapM f (firstn n l) = Ok (firstn n bs).
Proof.
  revert l bs. induction n as [|n IH]; intros l bs H; simpl; [reflexivity |].
  destruct l as [|a l]; simpl in *.
  - injection H as <-. reflexivity.
  - apply bind_ok in H as (b & Hb & H). apply bind_ok in H as (bs' & Hbs & H).
    injection H as <-. rewrite Hb. simpl. rewrite (IH _ _ Hbs). reflexivity.
Qed.

Section WellFormed.

Variable Doc : Type.
Variable c : tfidf_components Doc.
Hypothesis wf : wf_index c.

Lemma document_vector_total (i : nat) :
  Z.of_nat i < rows c ->
  exists dv, document_vector (tfidf_matrix c) i = Ok dv /\
             Z.of_nat (length dv) = cols c.
Proof.
  intros Hi. destruct wf. unfold document_vector. fold (cols c).
  rewrite np_zeros_total by assumption. simpl.
  destruct (np_get_inside (indptr (tfidf_matrix c)) (Z.of_nat i)) as (s & -> & _); [lia |].
  destruct (np_get_inside (indptr (tfidf_matrix c)) (Z.of_nat i + 1)) as (e & -> & _); [lia |].
  simpl.
  destruct (np_set_many_total (repeat fzero (Z.to_nat (cols c)))
              (py_slice (indices (tfidf_matrix c)) s e)
              (py_slice (data (tfidf_matrix c)) s e)) as (dv & -> & Hlen).
  - now apply py_slice_length.
  - rewrite List.Forall_forall in *. intros j Hj. apply py_slice_In in Hj.
    rewrite repeat_length. specialize (wf_indices_range0 j Hj). lia.
  - exists dv. split; [reflexivity |]. rewrite Hlen, repeat_length. lia.
Qed.

Lemma vectorize_query_total (order : list string) (query : string) :
  exists qv, vectorize_query_in order query (vocabulary c) (idf_values c) = Ok qv /\
             keys_below (cols c) qv.
Proof.
  destruct wf. unfold vectorize_query_in. rewrite <- wf_idf_length0.
  apply vectorize_loop_total; [| constructor].
  intros t j Hj. rewrite wf_idf_length0. apply wf_vocabulary_image0. eauto.
Qed.

Lemma calculate_similarities_total (qv : dict) :
  keys_below (cols c) qv ->
  exists sims, calculate_similarities (tfidf_matrix c) qv = Ok sims /\
               map snd sims = seq 0 (Z.to_nat (rows c)).
Proof.
  intros Hqv. pose proof (wf_cols c wf) as Hcols.
  assert (exists sims, calculate_similarities (tfidf_matrix c) qv = Ok sims) as [sims H].
  { unfold calculate_similarities. fold (cols c) (rows c).
    rewrite np_zeros_total by assumption. simpl.
    destruct (fill_query_total qv (repeat fzero (Z.to_nat (cols c)))) as (q & -> & Hq).
    { rewrite repeat_length, Z2Nat.id by assumption. exact Hqv. }
    simpl. rewrite repeat_length in Hq.
    apply mapM_total. rewrite List.Forall_forall. intros i Hi. apply in_seq in Hi.
    destruct (document_vector_total i) as (dv & Hdv & Hlen); [lia |].
    destruct (cosine_similarity_total dv q) as [s Hs]; [lia |].
    unfold score_row. rewrite Hdv. simpl. rewrite Hs. simpl. eauto. }
  exists sims. split; [exact H |].
  now apply (calculate_similarities_rows (tfidf_matrix c) qv).
Qed.

Lemma assemble_total (top : list (f64 * nat)) :
  List.Forall (fun p => Z.of_nat (snd p) < rows c) top ->
  exists results, assemble (documents c) top = Ok results /\
                  length results = length top.
Proof.
  intros H. destruct wf.
  destruct (mapM_total
              (fun p => let* document := np_get (documents c) (Z.of_nat (snd p)) in
                        Ok {| score := fst p; document := document |}) top)
    as [results Hres].
  - eapply List.Forall_impl; [| exact H]. intros p Hp. simpl in Hp.
    destruct (np_get_inside (documents c) (Z.of_nat (snd p))) as (d & -> & _); [lia |].
    simpl. eauto.
  - exists results. split; [exact Hres | now apply mapM_length in Hres].
Qed.

(** With a well-formed index every stage succeeds: the whole ranking is
    assembled, and each [top_n] returns its cut of it. *)
Lemma search_loaded_total (query : string) :
  exists query_vector cosine_similarities ranking,
    vectorize_query query (vocabulary c) (idf_values c) = Ok query_vector /\
    calculate_similarities (tfidf_matrix c) query_vector = Ok cosine_similarities /\
    map snd cosine_similarities = seq 0 (Z.to_nat (rows c)) /\
    assemble (documents c) (sort_desc cosine_similarities) = Ok ranking /\
    length ranking = Z.to_nat (rows c) /\
    forall top_n,
      search_loaded c query top_n
      = Ok (firstn (slice_bound (Z.to_nat (rows c)) top_n) ranking).
Proof.
  destruct (vectorize_query_total (distinct (tokenize query)) query) as (qv & Hqv & Hkeys).
  destruct (calculate_similarities_total qv Hkeys) as (sims & Hsims & Hrows).
  assert (length sims = Z.to_nat (rows c)) as Hlen.
  { rewrite <- (length_map snd), Hrows. apply length_seq. }
  destruct (assemble_total (sort_desc sims)) as (ranking & Hrank & Hrlen).
  { eapply Permutation_Forall; [symmetry; apply sort_desc_perm |].
    rewrite List.Forall_forall. intros p Hp.
    assert (In (snd p) (seq 0 (Z.to_nat (rows c)))) as Hin.
    { rewrite <- Hrows. now apply in_map. }
    apply in_seq in Hin. lia. }
  rewrite sort_desc_length, Hlen in Hrlen.
  exists qv, sims, ranking. repeat (split; [assumption |]).
  intros top_n. unfold search_loaded. fold (vectorize_query query (vocabulary c) (idf_values c)).
  unfold vectorize_query in Hqv |- *. rewrite Hqv. simpl.
  unfold rank_and_assemble. rewrite Hsims. simpl.
  unfold top_results, py_prefix, assemble in *.
  rewrite sort_desc_length, Hlen.
  rewrite (mapM_firstn _ _ _ _ Hrank). reflexivity.
Qed.

End WellFormed.

Lemma semantic_search_loaded {Doc : Type} (st : storage Doc) tracing query cache_dir top_n
    (c : tfidf_components Doc) :
  load_tfidf_components st cache_dir = Ok c ->
  semantic_search st tracing query cache_dir top_n = search_loaded c query top_n.
Proof. intros H. unfold semantic_search. now rewrite H. Qed.

Lemma example_wf : wf_index Example.components.
Proof.
  constructor; try (vm_compute; congruence); try reflexivity.
  - intros i a b Ha Hb.
    assert (i < 3)%nat as Hi by (apply lookup_lt_Some in Hb; simpl in Hb; lia).
    destruct i as [|[|[|i]]]; try lia;
      vm_compute in Ha, Hb; injection Ha as <-; injection Hb as <-.
    all: lia.
  - unfold cols. simpl. repeat (apply List.Forall_cons; [lia |]). apply List.Forall_nil.
  - intros t1 t2 j. unfold Example.components, Example.vocab. simpl.
    rewrite !lookup_insert. repeat case_decide; subst; try congruence;
      rewrite ?lookup_empty; congruence.
  - intros j. unfold cols, Example.components, Example.vocab. simpl. split.
    + intros [t Ht]. rewrite !lookup_insert in Ht.
      repeat case_decide; subst; rewrite ?lookup_empty in Ht; try discriminate;
        injection Ht as <-; lia.
    + intros Hj. assert (j = 0 \/ j = 1) as [-> | ->] by lia.
      * exists "apple". reflexivity.
      * exists "banana". reflexivity.
Qed.

(** C6.  For a loaded, well-formed index and any top_n above the number
    of rows, the search succeeds and returns exactly one result per row:
    the whole sorted list of row pairs, each row once. *)
Theorem large_top_n_returns_all_rows :
  forall (Doc : Type) (st : storage Doc) tracing query cache_dir top_n
         (c : tfidf_components Doc),
    load_tfidf_components st cache_dir = Ok c ->
    wf_index c ->
    rows c < top_n ->
    exists results query_vector cosine_similarities,
      semantic_search st tracing query cache_dir top_n = Ok results /\
      Z.of_nat (length results) = rows c /\
      vectorize_query query (vocabulary c) (idf_values c) = Ok query_vector /\
      calculate_similarities (tfidf_matrix c) query_vector = Ok cosine_similarities /\
      map snd cosine_similarities = seq 0 (Z.to_nat (rows c)) /\
      Permutation (sort_desc cosine_similarities) cosine_similarities /\
      assemble (documents c) (sort_desc cosine_similarities) = Ok results.
Proof.
  intros Doc st tracing query cache_dir top_n c Hload Hwf Hn.
  destruct (search_loaded_total Doc c Hwf query)
    as (qv & sims & ranking & Hqv & Hsims & Hrows & Hrank & Hlen & Hcut).
  pose proof (wf_rows c Hwf) as Hr.
  exists ranking, qv, sims.
  rewrite (semantic_search_loaded _ _ _ _ _ _ Hload), Hcut.
  rewrite slice_bound_large by lia.
  replace (firstn (Z.to_nat (rows c)) ranking) with ranking
    by (rewrite <- Hlen; symmetry; apply firstn_all).
  repeat split; try assumption; [lia | apply sort_desc_perm].
Qed.

Lemma large_top_n_returns_all_rows_witness :
  exists results query_vector cosine_similarities,
    semantic_search Example.store false "apple apple" "cache" 7 = Ok results /\
    Z.of_nat (length results) = rows Example.components /\
    vectorize_query "apple apple" Example.vocab Example.idf = Ok query_vector /\
    calculate_similarities Example.matrix query_vector = Ok cosine_similarities /\
    map snd cosine_similarities = seq 0 (Z.to_nat (rows Example.components)) /\
    Permutation (sort_desc cosine_similarities) cosine_similarities /\
    assemble Example.docs (sort_desc cosine_similarities) = Ok results.
Proof.
  apply (large_top_n_returns_all_rows string Example.store false "apple apple" "cache" 7
           Example.components).
  - vm_compute. reflexivity.
  - exact example_wf.
  - vm_compute. reflexivity.
Defined.



(** ** Which exceptions leave [semantic_search] *)

(** After a successful load every failure is a [RuntimeError] raised
    from the exception that caused it. *)
Lemma later_stages_are_wrapped {Doc : Type} (c : tfidf_components Doc) query top_n :
  (exists results, search_loaded c query top_n = Ok results) \/
  (exists message cause, search_loaded c query top_n = Raise (RuntimeError message cause)).
Proof.
  unfold search_loaded.
  destruct (vectorize_query query (vocabulary c) (idf_values c)) as [qv|e]; simpl.
  - destruct (rank_and_assemble c qv top_n) as [r|e]; simpl; eauto.
  - eauto.
Qed.

(** A load failure that is not a [RuntimeError] passes the first handler
    untouched. *)
Lemma load_failure_propagates {Doc : Type} (st : storage Doc) tracing query cache_dir
    top_n (e : exn) :
  load_tfidf_components st cache_dir = Raise e ->
  is_RuntimeError e = false ->
  semantic_search st tracing query cache_dir top_n = Raise e.
Proof. intros H He. unfold semantic_search. now rewrite H, He. Qed.

(** With a real span, the first handler itself fails on the name [trace]. *)
Lemma load_handler_fails_when_tracing {Doc : Type} (st : storage Doc) query cache_dir
    top_n (e : exn) :
  load_tfidf_components st cache_dir = Raise e ->
  is_RuntimeError e = true ->
  semantic_search st true query cache_dir top_n = Raise (NameError "trace").
Proof. intros H He. unfold semantic_search. now rewrite H, He. Qed.

(** C2, where the code departs from it.  A search in a directory without
    the matrix archive ends with the loader's own [FileNotFoundError],
    not with the wrapping [RuntimeError]. *)
Theorem missing_archive_escapes_unwrapped :
  forall tracing,
    semantic_search Example.store tracing "apple" "missing" 5
    = Raise (FileNotFoundError "missing/tfidf_matrix.npz") /\
    is_RuntimeError (FileNotFoundError "missing/tfidf_matrix.npz") = false.
Proof. intros tracing. split; vm_compute; reflexivity. Qed.

(** ** binary64 arithmetic: a number over the square of its root

    The similarity of a vector with itself is [d / (sqrt d * sqrt d)]
    for [d] its sum of squares.  The lemmas below follow the three
    operations through their specification, on integer mantissas. *)

Lemma digits2_size (p : positive) : digits2_pos p = Pos.size p.
Proof. induction p; simpl; congruence. Qed.

Lemma digits_bounds (p : positive) :
  2 ^ (Z.pos (digits2_pos p) - 1) <= Z.pos p < 2 ^ Z.pos (digits2_pos p).
Proof.
  rewrite digits2_size. split.
  - pose proof (Pos.size_le p) as H.
    apply Pos2Z.pos_le_pos in H. rewrite Pos2Z.inj_pow in H.
    change (Z.pos p~0) with (2 * Z.pos p) in H.
    replace (Z.pos (Pos.size p)) with (Z.pos (Pos.size p) - 1 + 1) in H by lia.
    rewrite Z.pow_add_r in H by lia. lia.
  - pose proof (Pos.size_gt p) as H.
    apply Pos2Z.pos_lt_pos in H. now rewrite Pos2Z.inj_pow in H.
Qed.

Lemma digits_unique (p : positive) (k : Z) :
  2 ^ (k - 1) <= Z.pos p < 2 ^ k -> Z.pos (digits2_pos p) = k.
Proof.
  intros [Hlo Hhi]. pose proof (digits_bounds p) as [Dlo Dhi].
  assert (0 < k) as Hk.
  { destruct (Z.le_gt_cases k 0) as [H|H]; [| exact H].
    assert (2 ^ k <= 2 ^ 0) by (destruct (Z.eq_dec k 0) as [->|]; [lia|];
      rewrite Z.pow_neg_r by lia; simpl; lia). simpl in *. lia. }
  destruct (Z.lt_trichotomy (Z.pos (digits2_pos p)) k) as [H|[H|H]]; [| exact H |].
  - assert (2 ^ Z.pos (digits2_pos p) <= 2 ^ (k - 1)) by (apply Z.pow_le_mono_r; lia). lia.
  - assert (2 ^ k <= 2 ^ (Z.pos (digits2_pos p) - 1)) by (apply Z.pow_le_mono_r; lia). lia.
Qed.


Lemma shr_1_inv (M P : Z) (rec : shr_record) :
  shr_inv M P rec -> shr_inv M (2 * P) (shr_1 rec).
Proof.
  destruct rec as [m r s]. unfold shr_inv. cbn [shr_m shr_r shr_s].
  intros (HP & Hm & rem & HM & Hrem & Hr & Hs).
  assert (orb r s = true <-> rem <> 0) as Hrs.
  { rewrite orb_true_iff, Hr, Hs. split.
    - intros [H | [H _]]; lia.
    - intros H. destruct (Z.le_gt_cases P (2 * rem)); [left | right]; lia. }
  destruct m as [|[p|p|]|p]; cbn [shr_1 shr_m shr_r shr_s]; try lia;
    (split; [lia |]); (split; [lia |]).
  - exists rem. rewrite Hrs. repeat split; try lia; try discriminate.
  - exists (P + rem). rewrite Hrs. change (Z.pos p~1) with (2 * Z.pos p + 1) in HM.
    repeat split; try lia.
  - exists rem. rewrite Hrs. change (Z.pos p~0) with (2 * Z.pos p) in HM.
    repeat split; try lia; try discriminate.
  - exists (P + rem). rewrite Hrs. repeat split; try lia.
Qed.

Lemma iter_shr_inv (n : positive) (M P : Z) (rec : shr_record) :
  shr_inv M P rec -> shr_inv M (P * 2 ^ Z.pos n) (SpecFloat.iter_pos shr_1 n rec).
Proof.
  revert P rec. induction n as [n IH|n IH|]; intros P rec H; simpl SpecFloat.iter_pos.
  - apply shr_1_inv, IH, IH in H.
    replace (P * 2 ^ Z.pos n~1) with (2 * P * 2 ^ Z.pos n * 2 ^ Z.pos n); [exact H |].
    change (Z.pos n~1) with (2 * Z.pos n + 1).
    replace (2 * Z.pos n + 1) with (Z.pos n + Z.pos n + 1) by lia.
    rewrite !Z.pow_add_r by lia. rewrite Z.pow_1_r. lia.
  - apply IH, IH in H.
    replace (P * 2 ^ Z.pos n~0) with (P * 2 ^ Z.pos n * 2 ^ Z.pos n); [exact H |].
    change (Z.pos n~0) with (2 * Z.pos n).
    replace (2 * Z.pos n) with (Z.pos n + Z.pos n) by lia.
    rewrite !Z.pow_add_r by lia. lia.
  - apply shr_1_inv in H. now replace (P * 2 ^ 1) with (2 * P) by (rewrite Z.pow_1_r; lia).
Qed.

Lemma shr_inv_exact (M : Z) : 0 <= M -> shr_inv M 1 (shr_record_of_loc M loc_Exact).
Proof.
  intros H. unfold shr_inv. cbn [shr_record_of_loc shr_m shr_r shr_s].
  repeat split; try lia.
  exists 0. repeat split; try lia; try discriminate.
Qed.

(** Rounding to nearest after a shift is off by at most half a unit. *)
Lemma round_nearest_even_inv (M P : Z) (rec : shr_record) :
  shr_inv M P rec ->
  let m := round_nearest_even (shr_m rec) (loc_of_shr_record rec) in
  (m = shr_m rec \/ m = shr_m rec + 1) /\
  2 * Z.abs (m * P - M) <= P.
Proof.
  destruct rec as [m r s]. unfold shr_inv. cbn [shr_m shr_r shr_s].
  intros (HP & Hm & rem & HM & Hrem & Hr & Hs).
  destruct r, s; cbn [loc_of_shr_record round_nearest_even].
  - assert (P <= 2 * rem) by now apply Hr.
    assert (rem <> 0 /\ 2 * rem <> P) by now apply Hs. split; [auto | lia].
  - assert (P <= 2 * rem) by now apply Hr.
    assert (~ (rem <> 0 /\ 2 * rem <> P)) by (rewrite <- Hs; discriminate).
    destruct (Z.even m); split; auto; lia.
  - assert (~ P <= 2 * rem) by (rewrite <- Hr; discriminate). split; [auto | lia].
  - assert (~ P <= 2 * rem) by (rewrite <- Hr; discriminate).
    assert (~ (rem <> 0 /\ 2 * rem <> P)) by (rewrite <- Hs; discriminate).
    split; [auto | lia].
Qed.

(** ** binary64: the format *)

Lemma fexp64 (e : Z) : fexp prec emax e = Z.max (e - 53) (-1074).
Proof. reflexivity. Qed.

Lemma bounded64 (m : positive) (e : Z) :
  bounded prec emax m e = true ->
  Z.max (Z.pos (digits2_pos m) + e - 53) (-1074) = e /\ e <= 971.
Proof.
  unfold bounded, canonical_mantissa. rewrite andb_true_iff, Z.eqb_eq, Z.leb_le, fexp64.
  intros [H1 H2]. split; [exact H1 | exact H2].
Qed.

Lemma loc_of_record_of_loc (m : Z) (l : location) :
  loc_of_shr_record (shr_record_of_loc m l) = l.
Proof. destruct l as [|[]]; reflexivity. Qed.

Lemma shr_fexp_id (m e : Z) (l : location) :
  fexp prec emax (Zdigits2 m + e) = e ->
  shr_fexp prec emax m e l = (shr_record_of_loc m l, e).
Proof. intros H. unfold shr_fexp. rewrite H, Z.sub_diag. reflexivity. Qed.


Lemma binary_round_aux_finish (s : bool) (mx ex : Z) (lx : location) :
  binary_round_aux prec emax s mx ex lx
  = let '(mrs, e) := shr_fexp prec emax mx ex lx in
    finish s (round_nearest_even (shr_m mrs) (loc_of_shr_record mrs)) e.
Proof. unfold binary_round_aux, finish. destruct (shr_fexp prec emax mx ex lx). reflexivity. Qed.

Lemma finish_plain (s : bool) (p : positive) (e : Z) :
  Z.pos p < 2 ^ 53 -> -1074 <= e <= 971 ->
  (2 ^ 52 <= Z.pos p \/ e = -1074) ->
  finish s (Z.pos p) e = S754_finite s p e.
Proof.
  intros Hhi He Hlo. unfold finish.
  rewrite shr_fexp_id.
  - cbn [shr_record_of_loc shr_m]. change (emax - prec) with 971.
    destruct (e <=? 971) eqn:E; [reflexivity | lia].
  - rewrite fexp64. cbn [Zdigits2].
    pose proof (digits_bounds p) as [Dlo Dhi].
    assert (Z.pos (digits2_pos p) <= 53).
    { destruct (Z.le_gt_cases (Z.pos (digits2_pos p)) 53) as [H|H]; [exact H |].
      assert (2 ^ 53 <= 2 ^ (Z.pos (digits2_pos p) - 1)) by (apply Z.pow_le_mono_r; lia).
      lia. }
    destruct Hlo as [Hlo | ->]; [| lia].
    assert (Z.pos (digits2_pos p) = 53) by (apply digits_unique; lia). lia.
Qed.

Lemma finish_carry (s : bool) (e : Z) :
  -1074 <= e <= 970 ->
  finish s (2 ^ 53) e = S754_finite s (2 ^ 52)%positive (e + 1).
Proof.
  intros He. unfold finish, shr_fexp. rewrite fexp64.
  change (Zdigits2 (2 ^ 53)) with 54.
  replace (Z.max (54 + e - 53) (-1074) - e) with 1 by lia.
  cbn [shr_record_of_loc shr SpecFloat.iter_pos]. change (2 ^ 53) with (Z.pos (2 ^ 52)~0).
  cbn [shr_1 shr_m]. change (emax - prec) with 971.
  destruct (e + 1 <=? 971) eqn:E; [reflexivity | lia].
Qed.

(** ** The square root of a positive binary64 number *)

Lemma sqrt_step (mx : positive) (ex : Z) :
  bounded prec emax mx ex = true ->
  exists (m1 : positive) (e1 : Z),
    SFsqrt prec emax (S754_finite false mx ex) = S754_finite false m1 e1 /\
    -589 <= e1 <= 459 /\
    52 <= ex - 2 * e1 /\
    2 ^ 52 <= Z.pos m1 < 2 ^ 53 /\
    2 ^ 104 <= Z.pos mx * 2 ^ (ex - 2 * e1) < 2 ^ 106 /\
    Z.abs (Z.pos m1 * Z.pos m1 - Z.pos mx * 2 ^ (ex - 2 * e1)) <= Z.pos m1.
Proof.
  intros Hb. apply bounded64 in Hb as [Hcan Hex].
  pose proof (digits_bounds mx) as [Dlo Dhi].
  set (k := Z.pos (digits2_pos mx)) in *.
  assert (0 < k) as Hk by (unfold k; lia).
  set (e1 := (k + ex + 1) / 2 - 53).
  set (s := ex - 2 * e1).
  assert (k <= 53 /\ -1074 <= ex) as [Hk53 Hex0] by lia.
  assert (105 - k <= s <= 106 - k) as Hs
    by (unfold s, e1; Z.div_mod_to_equations; lia).
  assert (-589 <= e1 <= 459) as He1 by (unfold e1; Z.div_mod_to_equations; lia).
  (* the scaled mantissa *)
  set (m' := Z.pos mx * 2 ^ s).
  assert (2 ^ (k - 1) * 2 ^ s <= m' /\ m' + 2 ^ s <= 2 ^ k * 2 ^ s) as [Hm'lo Hm'hi].
  { unfold m'. assert (0 < 2 ^ s) by (apply Z.pow_pos_nonneg; lia). nia. }
  rewrite <- !Z.pow_add_r in Hm'lo, Hm'hi by lia.
  assert (2 ^ 104 <= 2 ^ (k - 1 + s)) as P1 by (apply Z.pow_le_mono_r; lia).
  assert (2 ^ (k + s) <= 2 ^ 106) as P2 by (apply Z.pow_le_mono_r; lia).
  assert (2 ^ 52 <= 2 ^ s) as P3 by (apply Z.pow_le_mono_r; lia).
  assert (k + s = 106 -> 2 ^ 53 <= 2 ^ s) as P4.
  { intros H. apply Z.pow_le_mono_r; lia. }
  assert (k + s = 105 -> 2 ^ (k + s) = 2 ^ 105) as P5 by (intros ->; reflexivity).
  (* the integer square root *)
  pose proof (Z.sqrtrem_spec m') as Hsq.
  destruct (Z.sqrtrem m') as [q r] eqn:Eq.
  destruct Hsq as [Hq Hr]; [lia |].
  assert (2 ^ 52 <= q < 2 ^ 53) as Hq52.
  { change (2 ^ 104) with (2 ^ 52 * 2 ^ 52) in P1.
    change (2 ^ 106) with (2 ^ 53 * 2 ^ 53) in P2. nia. }
  assert (q < r -> q + 1 < 2 ^ 53) as Hnocarry.
  { intros Hqr. destruct (Z.eq_dec (k + s) 106) as [H106 | H106].
    - specialize (P4 H106). rewrite H106 in Hm'hi.
      change (2 ^ 106) with (2 ^ 53 * 2 ^ 53) in Hm'hi. nia.
    - assert (k + s = 105) as H105 by lia. specialize (P5 H105).
      rewrite P5 in Hm'hi. change (2 ^ 105) with (2 * (2 ^ 52 * 2 ^ 52)) in Hm'hi.
      change (2 ^ 53) with (2 * 2 ^ 52) in *. nia. }
  set (m1 := if r =? 0 then q else if r <=? q then q else q + 1).
  assert (2 ^ 52 <= m1 < 2 ^ 53) as Hm1.
  { unfold m1. destruct (r =? 0); [lia |]. destruct (r <=? q) eqn:E; [lia |].
    apply Z.leb_gt in E. specialize (Hnocarry E). lia. }
  assert (Z.abs (m1 * m1 - m') <= m1) as Herr.
  { unfold m1. destruct (r =? 0) eqn:E0; [apply Z.eqb_eq in E0; nia |].
    destruct (r <=? q) eqn:E; [apply Z.leb_le in E | apply Z.leb_gt in E]; nia. }
  destruct m1 as [|p1|p1] eqn:Em1; try lia.
  exists p1, e1. fold s. fold m'.
  split; [| repeat split; lia].
  (* unfolding the operation *)
  unfold SFsqrt, SFsqrt_core_binary. cbn [Zdigits2]. fold k.
  rewrite !Z.div2_div, fexp64.
  replace (Z.min (Z.max ((k + ex + 1) / 2 - 53) (-1074)) (ex / 2)) with e1
    by (unfold e1; Z.div_mod_to_equations; lia).
  fold s. destruct s as [|ps|ps] eqn:Es; try lia.
  rewrite Z.shiftl_mul_pow2 by lia. fold m'. rewrite Eq.
  rewrite binary_round_aux_finish, shr_fexp_id.
  - rewrite loc_of_record_of_loc.
    replace (shr_m (shr_record_of_loc q _)) with q by (destruct (r =? 0), (r <=? q); reflexivity).
    replace (round_nearest_even q _) with (Z.pos p1).
    + apply finish_plain; lia.
    + rewrite <- Em1. unfold m1. destruct (r =? 0); [reflexivity |].
      destruct (r <=? q); reflexivity.
  - rewrite fexp64. destruct q as [|pq|pq]; try lia. cbn [Zdigits2].
    assert (Z.pos (digits2_pos pq) = 53) by (apply digits_unique; lia). lia.
Qed.

Lemma shr_pos (rec : shr_record) (e k : Z) :
  0 < k -> exists kp, k = Z.pos kp /\ shr rec e k = (SpecFloat.iter_pos shr_1 kp rec, e + k).
Proof. intros H. destruct k as [|kp|kp]; try lia. exists kp. split; reflexivity. Qed.

(** ** Squaring the square root *)

Lemma mul_step (m1 mx : positive) (e1 s : Z) :
  2 ^ 52 <= Z.pos m1 < 2 ^ 53 ->
  -589 <= e1 <= 459 ->
  52 <= s -> -1074 - 2 * e1 <= s ->
  2 ^ 104 <= Z.pos mx * 2 ^ s < 2 ^ 106 ->
  Z.abs (Z.pos m1 * Z.pos m1 - Z.pos mx * 2 ^ s) <= Z.pos m1 ->
  exists (mp : positive) (ep j : Z),
    SFmul prec emax (S754_finite false m1 e1) (S754_finite false m1 e1)
    = S754_finite false mp ep /\
    0 <= j /\ ep = 2 * e1 + j /\ Z.pos mp < 2 ^ 53 /\
    Z.abs (Z.pos mx * 2 ^ s - Z.pos mp * 2 ^ j) * 2 ^ 48 <= Z.pos mp * 2 ^ j.
Proof.
  intros Hm1 He1 Hs52 Hs HA Herr.
  set (A := Z.pos mx * 2 ^ s) in *.
  set (M := Z.pos m1 * Z.pos m1) in *.
  assert (2 ^ 104 <= M < 2 ^ 106) as HM.
  { unfold M. change (2 ^ 104) with (2 ^ 52 * 2 ^ 52).
    change (2 ^ 106) with (2 ^ 53 * 2 ^ 53). nia. }
  assert (M <= 2 ^ 106 - 2 ^ 54 + 1) as HMtop.
  { unfold M. change (2 ^ 106 - 2 ^ 54 + 1) with ((2 ^ 53 - 1) * (2 ^ 53 - 1)). nia. }
  set (dx := Z.pos (digits2_pos (m1 * m1))).
  assert (dx = 105 \/ dx = 106) as Hdx.
  { unfold dx. destruct (Z.lt_ge_cases M (2 ^ 105)) as [H|H]; [left | right];
      apply digits_unique; rewrite Pos2Z.inj_mul; fold M; split;
      solve [exact H | apply HM | lia]. }
  set (k := Z.max (dx - 53) (-1074 - 2 * e1)).
  assert (52 <= k) as Hk by (unfold k; lia).
  unfold SFmul. cbn [xorb].
  rewrite binary_round_aux_finish. unfold shr_fexp. cbn [Zdigits2]. fold dx.
  rewrite fexp64.
  replace (Z.max (dx + (e1 + e1) - 53) (-1074) - (e1 + e1)) with k by (unfold k; lia).
  rewrite Pos2Z.inj_mul. fold M.
  destruct (shr_pos (shr_record_of_loc M loc_Exact) (e1 + e1) k) as (kp & Ek & ->); [lia |].
  cbv beta iota.
  pose proof (iter_shr_inv kp M 1 _ (shr_inv_exact M ltac:(lia))) as Hinv.
  rewrite Z.mul_1_l in Hinv. rewrite <- Ek in Hinv.
  pose proof (round_nearest_even_inv _ _ _ Hinv) as [Hmr Hhalf].
  destruct Hinv as (HP & Hm0 & _).
  set (mr := round_nearest_even _ _) in *.
  set (P := 2 ^ k) in *.
  assert (0 <= mr) as Hmr0 by lia.
  (* the dividend is a multiple of [P] when the result is subnormal *)
  assert (k <= s -> exists a, A = a * P) as Hmult.
  { intros Hks. exists (Z.pos mx * 2 ^ (s - k)). unfold A, P.
    rewrite <- Z.mul_assoc, <- Z.pow_add_r by lia. do 2 f_equal. lia. }
  assert (Z.abs (A - mr * P) * 2 ^ 48 <= mr * P /\ 0 < mr) as [Hclose Hpos].
  { destruct (Z.le_gt_cases k 53) as [Hk53 | Hk54].
    - assert (P <= 2 ^ 53) by (apply Z.pow_le_mono_r; lia). lia.
    - assert (2 ^ 54 <= P) by (apply Z.pow_le_mono_r; lia).
      destruct Hmult as [a Ha]; [unfold k in *; lia |].
      assert (mr = a) as ->.
      { destruct (Z.eq_dec mr a) as [E|E]; [exact E | exfalso].
        assert (P <= Z.abs (mr * P - a * P)).
        { replace (mr * P - a * P) with ((mr - a) * P) by ring.
          rewrite Z.abs_mul, (Z.abs_eq P) by lia.
          rewrite <- (Z.mul_1_l P) at 1. apply Z.mul_le_mono_nonneg_r; lia. }
        lia. }
      rewrite Ha in *. assert (0 < a) by nia. split; [lia | assumption]. }
  destruct mr as [|pr|pr] eqn:Emr; try lia.
  assert (Z.pos pr * P <= M + P) as Hup by lia.
  destruct (Z.eq_dec k (dx - 53)) as [Hnorm | Hsub].
  - (* normal result *)
    assert (P = 2 ^ 52 /\ M < 2 ^ 105 \/ P = 2 ^ 53 /\ 2 ^ 105 <= M) as HPM.
    { destruct Hdx as [Hd | Hd]; [left | right]; unfold P; rewrite Hnorm, Hd;
        (split; [reflexivity |]);
        pose proof (digits_bounds (m1 * m1)) as HD; fold dx in HD;
        rewrite Pos2Z.inj_mul in HD; fold M in HD; rewrite Hd in HD;
        simpl Z.sub in HD; lia. }
    assert (2 ^ 52 <= Z.pos pr <= 2 ^ 53) as Hpr by (destruct HPM as [[-> ?] | [-> ?]]; lia).
    destruct (Z.eq_dec (Z.pos pr) (2 ^ 53)) as [Hc | Hc].
    + (* rounded up to the next power of two *)
      assert (P = 2 ^ 52) as HP52 by (destruct HPM as [[-> ?] | [-> ?]]; lia).
      assert (k = 52) as Hk52.
      { destruct Hdx as [Hd | Hd]; [lia |]. exfalso.
        assert (P = 2 ^ 53) by (unfold P; rewrite Hnorm, Hd; reflexivity). lia. }
      exists (2 ^ 52)%positive, (e1 + e1 + k + 1), 53.
      rewrite Hc, finish_carry by lia.
      repeat split; lia.
    + exists pr, (e1 + e1 + k), k.
      rewrite finish_plain by lia.
      repeat split; try lia; exact Hclose.
  - (* subnormal result *)
    assert (k = -1074 - 2 * e1 /\ dx - 52 <= k) as [Hksub Hkbig] by (unfold k in *; lia).
    assert (2 ^ dx <= 2 ^ (k + 52)) as Hpow by (apply Z.pow_le_mono_r; lia).
    rewrite Z.pow_add_r in Hpow by lia. fold P in Hpow.
    pose proof (digits_bounds (m1 * m1)) as [_ HD]. fold dx in HD.
    rewrite Pos2Z.inj_mul in HD. fold M in HD.
    assert (Z.pos pr <= 2 ^ 52) as Hpr.
    { assert (Z.pos pr * P < (2 ^ 52 + 1) * P) as H by lia.
      apply Z.mul_lt_mono_pos_r in H; lia. }
    exists pr, (e1 + e1 + k), k.
    rewrite finish_plain by lia.
    repeat split; try lia; exact Hclose.
Qed.

(** ** Rounding a quotient that is close to a power of two *)

Lemma round_nearest_even_or (m : Z) (l : location) :
  round_nearest_even m l = m \/ round_nearest_even m l = m + 1.
Proof. destruct l as [|[]]; simpl; auto. destruct (Z.even m); auto. Qed.

Lemma shr_1_half (p : positive) (l : location) :
  shr_m (shr_1 (shr_record_of_loc (Z.pos p) l)) = Z.pos p / 2.
Proof.
  assert (forall r s, shr_m (shr_1 {| shr_m := Z.pos p; shr_r := r; shr_s := s |})
                      = Z.pos p / 2) as H.
  { intros r s. destruct p as [p|p|]; cbn [shr_1 shr_m].
    - change (Z.pos p~1) with (2 * Z.pos p + 1). Z.div_mod_to_equations. lia.
    - change (Z.pos p~0) with (2 * Z.pos p). Z.div_mod_to_equations. lia.
    - reflexivity. }
  destruct l as [|[]]; apply H.
Qed.

(** A mantissa of 53 bits is rounded in place. *)
Lemma round_53 (s : bool) (q t : Z) (l : location) :
  2 ^ 52 <= q < 2 ^ 53 -> 50 <= t <= 60 ->
  exists (ms : positive) (tf : Z),
    binary_round_aux prec emax s q (- t) l = S754_finite s ms (- tf) /\
    (tf = t /\ q <= Z.pos ms <= q + 1 \/ tf = t - 1 /\ Z.pos ms = 2 ^ 52 /\ q + 1 = 2 ^ 53).
Proof.
  intros Hq Ht. destruct q as [|pq|pq]; try lia.
  assert (Z.pos (digits2_pos pq) = 53) as Hd by (apply digits_unique; lia).
  rewrite binary_round_aux_finish, shr_fexp_id
    by (rewrite fexp64; cbn [Zdigits2]; lia).
  rewrite loc_of_record_of_loc.
  replace (shr_m (shr_record_of_loc (Z.pos pq) l)) with (Z.pos pq)
    by (destruct l as [|[]]; reflexivity).
  destruct (round_nearest_even_or (Z.pos pq) l) as [-> | ->].
  - exists pq, t. rewrite finish_plain by lia. split; [reflexivity | left; lia].
  - destruct (Z.eq_dec (Z.pos pq + 1) (2 ^ 53)) as [E | E].
    + exists (2 ^ 52)%positive, (t - 1). rewrite E, finish_carry by lia.
      split; [f_equal; lia | right; repeat split; lia].
    + destruct (Z.pos pq + 1) as [|pm|pm] eqn:Em; try lia.
      exists pm, t. rewrite finish_plain by lia. split; [reflexivity | left; lia].
Qed.

(** A mantissa of 54 bits loses its last bit first. *)
Lemma round_54 (s : bool) (q t : Z) (l : location) :
  2 ^ 53 <= q < 2 ^ 54 -> 50 <= t <= 60 ->
  exists (ms : positive) (tf : Z),
    binary_round_aux prec emax s q (- t) l = S754_finite s ms (- tf) /\
    (tf = t - 1 /\ q / 2 <= Z.pos ms <= q / 2 + 1 \/
     tf = t - 2 /\ Z.pos ms = 2 ^ 52 /\ q / 2 + 1 = 2 ^ 53).
Proof.
  intros Hq Ht. destruct q as [|pq|pq]; try lia.
  assert (Z.pos (digits2_pos pq) = 54) as Hd by (apply digits_unique; lia).
  rewrite binary_round_aux_finish. unfold shr_fexp. rewrite fexp64. cbn [Zdigits2].
  replace (Z.max (Z.pos (digits2_pos pq) + - t - 53) (-1074) - - t) with 1 by lia.
  cbn [shr SpecFloat.iter_pos].
  rewrite shr_1_half.
  assert (2 ^ 52 <= Z.pos pq / 2 < 2 ^ 53) as Hh by (Z.div_mod_to_equations; lia).
  set (h := Z.pos pq / 2) in *.
  destruct (round_nearest_even_or h
              (loc_of_shr_record (shr_1 (shr_record_of_loc (Z.pos pq) l)))) as [-> | ->].
  - destruct h as [|ph|ph] eqn:Eh; try lia.
    exists ph, (t - 1). rewrite finish_plain by lia.
    split; [f_equal; lia | left; lia].
  - destruct (Z.eq_dec (h + 1) (2 ^ 53)) as [E | E].
    + exists (2 ^ 52)%positive, (t - 2). rewrite E, finish_carry by lia.
      split; [f_equal; lia | right; repeat split; lia].
    + destruct (h + 1) as [|pm|pm] eqn:Em; try lia.
      exists pm, (t - 1). rewrite finish_plain by lia.
      split; [f_equal; lia | left; lia].
Qed.

(** ** Dividing two numbers that nearly agree *)

(** The integer quotient of two numbers that agree up to one part in
    [c]. *)
Lemma quotient_bounds (A B q T c : Z) :
  0 < B -> 0 < T -> 0 < c ->
  Z.abs (A - B) * c <= B ->
  B * q <= A * T < B * (q + 1) ->
  q * c <= (c + 1) * T /\ (c - 1) * T < (q + 1) * c /\
  (B < A -> T <= q) /\ (A < B -> q < T).
Proof.
  intros HB HT Hc Hclose [Hlo Hhi].
  assert (A * c <= B * (c + 1) /\ B * (c - 1) <= A * c) as [Hup Hdn] by lia.
  repeat split.
  - apply (Zmult_le_reg_r _ _ B); [lia |].
    apply Z.le_trans with (A * T * c).
    + replace (q * c * B) with (B * q * c) by ring.
      apply Z.mul_le_mono_nonneg_r; lia.
    + replace (A * T * c) with (A * c * T) by ring.
      replace ((c + 1) * T * B) with (B * (c + 1) * T) by ring.
      apply Z.mul_le_mono_nonneg_r; lia.
  - apply (Zmult_lt_reg_r _ _ B); [lia |].
    apply Z.le_lt_trans with (A * T * c).
    + replace ((c - 1) * T * B) with (B * (c - 1) * T) by ring.
      replace (A * T * c) with (A * c * T) by ring.
      apply Z.mul_le_mono_nonneg_r; lia.
    + replace ((q + 1) * c * B) with (B * (q + 1) * c) by ring.
      apply Z.mul_lt_mono_pos_r; lia.
  - intros HBA. assert (B * T < B * (q + 1)) as H.
    { apply Z.lt_trans with (A * T); [apply Z.mul_lt_mono_pos_r; lia | exact Hhi]. }
    apply Z.mul_lt_mono_pos_l in H; lia.
  - intros HAB. assert (B * q < B * T) as H.
    { apply Z.le_lt_trans with (A * T); [exact Hlo | apply Z.mul_lt_mono_pos_r; lia]. }
    apply Z.mul_lt_mono_pos_l in H; lia.
Qed.

Lemma scaled_division (m d q r S : Z) :
  0 < S -> m = d * q + r -> 0 <= r < d ->
  d * S * q <= m * S < d * S * (q + 1).
Proof.
  intros HS -> Hr. split.
  - replace (d * S * q) with (d * q * S) by ring.
    apply Z.mul_le_mono_nonneg_r; lia.
  - replace (d * S * (q + 1)) with ((d * q + d) * S) by ring.
    apply Z.mul_lt_mono_pos_r; lia.
Qed.

Ltac small_sub :=
  change (52 - 1) with 51 in *; change (53 - 1) with 52 in *;
  change (54 - 1) with 53 in *; change (52 - 2) with 50 in *;
  change (53 - 2) with 51 in *; change (54 - 2) with 52 in *.

Lemma div_step (mx my : positive) (ex ey sx sy : Z) :
  Z.pos mx < 2 ^ 53 ->
  0 <= sx -> 0 <= sy -> ex - sx = ey - sy ->
  Z.abs (Z.pos mx * 2 ^ sx - Z.pos my * 2 ^ sy) * 2 ^ 48 <= Z.pos my * 2 ^ sy ->
  exists (ms : positive) (tf : Z),
    SFdiv prec emax (S754_finite false mx ex) (S754_finite false my ey)
    = S754_finite false ms (- tf) /\
    51 <= tf <= 53 /\
    Z.abs (Z.pos ms - 2 ^ tf) * 2 ^ 40 <= 2 ^ tf.
Proof.
  intros Hmx Hsx Hsy Hbase Hclose.
  set (A := Z.pos mx * 2 ^ sx) in *. set (B := Z.pos my * 2 ^ sy) in *.
  pose proof (digits_bounds mx) as [D1lo D1hi].
  pose proof (digits_bounds my) as [D2lo D2hi].
  set (d1 := Z.pos (digits2_pos mx)) in *. set (d2 := Z.pos (digits2_pos my)) in *.
  assert (0 < d1 /\ 0 < d2) as [Hd1 Hd2] by (unfold d1, d2; lia).
  assert (d1 <= 53) as Hd153.
  { destruct (Z.le_gt_cases d1 53) as [H|H]; [exact H |].
    assert (2 ^ 53 <= 2 ^ (d1 - 1)) by (apply Z.pow_le_mono_r; lia). lia. }
  assert (0 < 2 ^ sx /\ 0 < 2 ^ sy) as [Px Py] by (split; apply Z.pow_pos_nonneg; lia).
  assert (2 ^ (d1 - 1 + sx) <= A < 2 ^ (d1 + sx)) as HA.
  { rewrite !Z.pow_add_r by lia. unfold A. nia. }
  assert (2 ^ (d2 - 1 + sy) <= B < 2 ^ (d2 + sy)) as HB.
  { rewrite !Z.pow_add_r by lia. unfold B. nia. }
  assert (0 < B) as HBpos by (unfold B; lia).
  assert (A < 2 * B /\ B < 2 * A) as [HAB HBA] by lia.
  set (D := d1 + sx - (d2 + sy)).
  assert (-1 <= D <= 1) as HD.
  { split.
    - destruct (Z.le_gt_cases (-1) D) as [H|H]; [exact H | exfalso].
      assert (2 ^ (d1 + sx + 1) <= 2 ^ (d2 - 1 + sy)) by (apply Z.pow_le_mono_r; unfold D in H; lia).
      rewrite (Z.pow_add_r 2 (d1 + sx) 1) in * by lia. lia.
    - destruct (Z.le_gt_cases D 1) as [H|H]; [exact H | exfalso].
      assert (2 ^ (d2 + sy + 1) <= 2 ^ (d1 - 1 + sx)) by (apply Z.pow_le_mono_r; unfold D in H; lia).
      rewrite (Z.pow_add_r 2 (d2 + sy) 1) in * by lia. lia. }
  assert (D = 1 -> B < A) as Hgt.
  { intros H. assert (d2 + sy = d1 - 1 + sx) as E by (unfold D in H; lia).
    rewrite E in HB. lia. }
  assert (D = -1 -> A < B) as Hlt.
  { intros H. assert (d1 + sx = d2 - 1 + sy) as E by (unfold D in H; lia).
    rewrite E in HA. lia. }
  set (t := 53 - D).
  set (sh := 53 + d2 - d1).
  (* the quotient of the aligned mantissas *)
  assert (Z.pos mx * 2 ^ sh * 2 ^ sy = A * 2 ^ t) as Hscale.
  { unfold A. rewrite <- !Z.mul_assoc, <- !Z.pow_add_r by (unfold sh, t, D; lia).
    do 2 f_equal. unfold sh, t, D. lia. }
  pose proof (Z.div_eucl_eq (Z.pos mx * 2 ^ sh) (Z.pos my) ltac:(lia)) as Hdiv.
  pose proof (Z.mod_pos_bound (Z.pos mx * 2 ^ sh) (Z.pos my) ltac:(lia)) as Hmod.
  unfold Z.modulo, Z.div in *.
  destruct (Z.div_eucl (Z.pos mx * 2 ^ sh) (Z.pos my)) as [q r] eqn:Ediv.
  assert (B * q <= A * 2 ^ t < B * (q + 1)) as Hq.
  { rewrite <- Hscale. unfold B.
    now apply scaled_division with (r := r). }
  assert (0 < 2 ^ t) as Pt by (apply Z.pow_pos_nonneg; unfold t; lia).
  destruct (quotient_bounds A B q (2 ^ t) (2 ^ 48) HBpos Pt ltac:(reflexivity) Hclose Hq)
    as (Hqhi & Hqlo & Hq1' & Hq2').
  assert (D = 1 -> 2 ^ t <= q) as Hq1 by auto.
  assert (D = -1 -> q < 2 ^ t) as Hq2 by auto.
  clear Hq1' Hq2' Hq Hscale Hdiv HA HB D1lo D1hi D2lo D2hi Hgt Hlt HAB HBA Hclose.
  (* unfolding the operation *)
  unfold SFdiv, SFdiv_core_binary. cbn [Zdigits2 xorb]. fold d1 d2.
  rewrite fexp64.
  replace (d1 + ex - (d2 + ey)) with D by (unfold D; lia).
  replace (Z.min (Z.max (D - 53) (-1074)) (ex - ey)) with (- t) by (unfold t, D in *; lia).
  replace (ex - ey - - t) with sh by (unfold sh, t, D; lia).
  destruct sh as [|psh|psh] eqn:Esh; try lia.
  rewrite Z.shiftl_mul_pow2 by lia. rewrite Ediv.
  assert (t = 52 \/ t = 53 \/ t = 54) as Ht by (unfold t; lia).
  assert (2 ^ 52 <= q < 2 ^ 53 \/ 2 ^ 53 <= q < 2 ^ 54) as [Hq53 | Hq54].
  { destruct Ht as [E | [E | E]]; rewrite E in *.
    - left. specialize (Hq1 ltac:(unfold t in E; lia)). lia.
    - lia.
    - right. specialize (Hq2 ltac:(unfold t in E; lia)). lia. }
  - destruct (round_53 false q t (new_location (Z.pos my) r) Hq53 ltac:(lia))
      as (ms & tf & -> & Hms).
    exists ms, tf. split; [reflexivity |].
    destruct Ht as [E | [E | E]]; rewrite E in *;
      destruct Hms as [[-> Hms] | (-> & Hms & Hc)]; small_sub; lia.
  - destruct (round_54 false q t (new_location (Z.pos my) r) Hq54 ltac:(lia))
      as (ms & tf & -> & Hms).
    exists ms, tf. split; [reflexivity |].
    destruct Ht as [E | [E | E]]; rewrite E in *;
      destruct Hms as [[-> Hms] | (-> & Hms & Hc)]; small_sub;
      Z.div_mod_to_equations; lia.
Qed.

(** ** A positive number divided by the square of its square root *)

Lemma self_ratio_SF (mx : positive) (ex : Z) :
  bounded prec emax mx ex = true ->
  exists (ms : positive) (tf : Z),
    SFdiv prec emax (S754_finite false mx ex)
      (SFmul prec emax (SFsqrt prec emax (S754_finite false mx ex))
                       (SFsqrt prec emax (S754_finite false mx ex)))
    = S754_finite false ms (- tf) /\
    51 <= tf <= 53 /\
    Z.abs (Z.pos ms - 2 ^ tf) * 2 ^ 40 <= 2 ^ tf.
Proof.
  intros Hb.
  destruct (sqrt_step mx ex Hb) as (m1 & e1 & -> & He1 & Hs & Hm1 & HA & Herr).
  apply bounded64 in Hb as [Hcan Hex].
  pose proof (digits_bounds mx) as [Dlo Dhi].
  assert (Z.pos (digits2_pos mx) <= 53 /\ -1074 <= ex) as [Hd Hex0] by lia.
  assert (Z.pos mx < 2 ^ 53) as Hmx.
  { assert (2 ^ Z.pos (digits2_pos mx) <= 2 ^ 53) by (apply Z.pow_le_mono_r; lia). lia. }
  destruct (mul_step m1 mx e1 (ex - 2 * e1) Hm1 He1 Hs ltac:(lia) HA Herr)
    as (mp & ep & j & -> & Hj & Hep & Hmp & Hclose).
  apply (div_step mx mp ex ep (ex - 2 * e1) j); try lia; exact Hclose.
Qed.


Lemma near_one_bounds (ms : positive) (tf : Z) :
  51 <= tf <= 53 ->
  Z.abs (Z.pos ms - 2 ^ tf) * 2 ^ 40 <= 2 ^ tf ->
  (1 - (1 # 1000000000) <= Qmake (Z.pos ms) (Z.to_pos (2 ^ tf)) <= 1 + (1 # 1000000000))%Q.
Proof.
  intros Ht H.
  assert (tf = 51 \/ tf = 52 \/ tf = 53) as [-> | [-> | ->]] by lia.
  - change (Z.to_pos (2 ^ 51)) with (2 ^ 51)%positive.
    unfold Qle, Qminus, Qplus, Qopp. cbn [Qnum Qden]. lia.
  - change (Z.to_pos (2 ^ 52)) with (2 ^ 52)%positive.
    unfold Qle, Qminus, Qplus, Qopp. cbn [Qnum Qden]. lia.
  - change (Z.to_pos (2 ^ 53)) with (2 ^ 53)%positive.
    unfold Qle, Qminus, Qplus, Qopp. cbn [Qnum Qden]. lia.
Qed.

Lemma self_ratio (d : f64) :
  PrimFloat.ltb fzero (PrimFloat.sqrt d) = true ->
  PrimFloat.ltb (PrimFloat.sqrt d) PrimFloat.infinity = true ->
  exists v : Q,
    Q_of_float (PrimFloat.div d (PrimFloat.mul (PrimFloat.sqrt d) (PrimFloat.sqrt d)))
    = Some v /\
    (1 - (1 # 1000000000) <= v <= 1 + (1 # 1000000000))%Q.
Proof.
  intros Hpos Hfin. unfold Q_of_float.
  rewrite div_spec, mul_spec, sqrt_spec.
  rewrite FloatAxioms.ltb_spec, sqrt_spec in Hpos, Hfin.
  assert (Prim2SF fzero = S754_zero false) as Ez by reflexivity.
  assert (Prim2SF infinity = S754_infinity false) as Ei by reflexivity.
  rewrite Ez in Hpos. rewrite Ei in Hfin.
  pose proof (Prim2SF_valid d) as Hvalid.
  unfold SF64div, SF64mul, SF64sqrt in *.
  destruct (Prim2SF d) as [s|s| |s m e].
  - destruct s; discriminate Hpos.
  - destruct s; [discriminate Hpos | discriminate Hfin].
  - discriminate Hpos.
  - destruct s; [discriminate Hpos |].
    destruct (self_ratio_SF m e Hvalid) as (ms & tf & -> & Ht & Hb).
    unfold Q_of_SF.
    destruct (0 <=? - tf) eqn:E; [apply Z.leb_le in E; lia |].
    rewrite Z.opp_involutive.
    eexists. split; [reflexivity |]. now apply near_one_bounds.
Qed.

(** ** Self-similarity *)

(** C9, as the code has it.  For a row whose norm, as computed, is
    strictly positive and finite, scoring the row's dense expansion
    against itself gives a finite float within 1e-9 of 1. *)
Theorem self_similarity_is_one :
  forall (m : csr_matrix) (i : nat) (dv : list f64),
    document_vector m i = Ok dv ->
    PrimFloat.ltb fzero (np_linalg_norm dv) = true ->
    PrimFloat.ltb (np_linalg_norm dv) PrimFloat.infinity = true ->
    exists (s : f64) (v : Q),
      score_row m dv i = Ok (s, i) /\
      cosine_similarity_manual dv dv = Ok s /\
      Q_of_float s = Some v /\
      (1 - (1 # 1000000000) <= v <= 1 + (1 # 1000000000))%Q.
Proof.
  intros m i dv Hdv Hpos Hfin.
  destruct (self_ratio (dot_self dv) Hpos Hfin) as (v & Hv & Hbound).
  assert (PrimFloat.eqb (np_linalg_norm dv) fzero = false) as Hnz.
  { destruct (PrimFloat.eqb (np_linalg_norm dv) fzero) eqn:E; [| reflexivity].
    apply eqb_not_ltb in E. congruence. }
  assert (cosine_similarity_manual dv dv
          = Ok (PrimFloat.div (dot_self dv)
                  (PrimFloat.mul (np_linalg_norm dv) (np_linalg_norm dv)))) as Hcos.
  { unfold cosine_similarity_manual, np_dot. rewrite Nat.eqb_refl.
    cbn [bind]. rewrite Hnz. reflexivity. }
  eexists. exists v. unfold score_row. rewrite Hdv. cbn [bind]. rewrite Hcos. cbn [bind].
  repeat split; try reflexivity; try exact Hv; apply Hbound.
Qed.

Lemma self_similarity_is_one_witness :
  exists (s : f64) (v : Q),
    score_row Example.matrix [1%float; 1%float] 2 = Ok (s, 2%nat) /\
    cosine_similarity_manual [1%float; 1%float] [1%float; 1%float] = Ok s /\
    Q_of_float s = Some v /\
    (1 - (1 # 1000000000) <= v <= 1 + (1 # 1000000000))%Q.
Proof.
  apply (self_similarity_is_one Example.matrix 2 [1%float; 1%float]).
  - vm_compute. reflexivity.
  - vm_compute. reflexivity.
  - vm_compute. reflexivity.
Defined.

(** C9 as stated fails when the sum of squares overflows: row 0 of the
    index with large weights has norm +infinity, which is strictly
    positive, and its similarity with itself is NaN. *)
Lemma self_similarity_overflows :
  exists dv : list f64,
    document_vector (tfidf_matrix Example.large) 0 = Ok dv /\
    PrimFloat.ltb fzero (np_linalg_norm dv) = true /\
    score_row (tfidf_matrix Example.large) dv 0 = Ok (PrimFloat.nan, 0%nat) /\
    Q_of_float PrimFloat.nan = None.
Proof.
  exists [0x1p600%float]. repeat split; vm_compute; reflexivity.
Qed.

(** * Further properties of the search *)

(** ** Cutting the ranking *)

Lemma slice_bound_id (len : nat) (x : Z) :
  0 <= x -> slice_bound len x = Nat.min (Z.to_nat x) len.
Proof. intros H. unfold slice_bound. destruct (x <? 0) eqn:E; lia. Qed.

(** X1.  Asking for fewer results gives a prefix of what asking for more
    gives: if the search succeeds with top_n = n', then for 0 <= n <= n'
    it succeeds with top_n = n and returns the first n of those results. *)
Theorem fewer_results_are_a_prefix :
  forall (Doc : Type) (st : storage Doc) tracing query cache_dir (n n' : Z)
         (results' : list (search_result Doc)),
    0 <= n <= n' ->
    semantic_search st tracing query cache_dir n' = Ok results' ->
    semantic_search st tracing query cache_dir n = Ok (firstn (Z.to_nat n) results').
Proof.
  intros Doc st tracing query cache_dir n n' results' Hn H.
  apply semantic_search_ok in H as (c & qv & sims & Hc & Hqv & Hsims & Hres).
  rewrite (semantic_search_loaded _ _ _ _ _ _ Hc).
  unfold search_loaded, rank_and_assemble. rewrite Hqv. cbn [wrap_exception bind].
  rewrite Hsims. cbn [bind].
  unfold top_results, py_prefix, assemble in *.
  rewrite slice_bound_id in * by lia.
  replace (firstn (Nat.min (Z.to_nat n) (length (sort_desc sims))) (sort_desc sims))
    with (firstn (Z.to_nat n)
            (firstn (Nat.min (Z.to_nat n') (length (sort_desc sims))) (sort_desc sims))).
  - rewrite (mapM_firstn _ _ _ _ Hres). reflexivity.
  - rewrite firstn_firstn. f_equal. lia.
Qed.

Lemma fewer_results_are_a_prefix_witness :
  semantic_search Example.store false "apple" "cache" 1
  = Ok (firstn (Z.to_nat 1)
          [ {| score := 1%float; document := "doc0" |};
            {| score := doc2_score; document := "doc2" |};
            {| score := 0%float; document := "doc1" |} ]).
Proof.
  apply (fewer_results_are_a_prefix string Example.store false "apple" "cache" 1 3).
  - lia.
  - vm_compute. reflexivity.
Defined.

(** ** Scores stay with their rows *)

Lemma np_get_nat {A : Type} (a : list A) (i : nat) (x : A) :
  np_get a (Z.of_nat i) = Ok x -> a !! i = Some x.
Proof.
  unfold np_get, norm_index.
  destruct ((0 <=? Z.of_nat i) && (Z.of_nat i <? Z.of_nat (length a))) eqn:E.
  - rewrite Nat2Z.id. destruct (a !! i); congruence.
  - destruct ((- Z.of_nat (length a) <=? Z.of_nat i) && (Z.of_nat i <? 0)) eqn:E'.
    + apply andb_true_iff in E' as [_ E']. apply Z.ltb_lt in E'. lia.
    + discriminate.
Qed.

Lemma NoDup_firstn {A : Type} (n : nat) (l : list A) :
  List.NoDup l -> List.NoDup (firstn n l).
Proof.
  intros H. rewrite <- (firstn_skipn n l) in H.
  now apply NoDup_app_remove_r in H.
Qed.

(** X2.  Every result of a successful search pairs the score of one row
    with the document stored at that same row, every such row was scored
    by the scoring loop, and no row is returned twice. *)
Theorem results_pair_scores_with_their_rows :
  forall (Doc : Type) (st : storage Doc) tracing query cache_dir top_n
         (results : list (search_result Doc)),
    semantic_search st tracing query cache_dir top_n = Ok results ->
    exists (c : tfidf_components Doc) (query_vector : dict)
           (cosine_similarities top : list (f64 * nat)),
      load_tfidf_components st cache_dir = Ok c /\
      vectorize_query query (vocabulary c) (idf_values c) = Ok query_vector /\
      calculate_similarities (tfidf_matrix c) query_vector = Ok cosine_similarities /\
      List.Forall2 (fun p r => score r = fst p /\
                               documents c !! snd p = Some (document r))
                   top results /\
      List.NoDup (map snd top) /\
      (forall p, In p top -> In p cosine_similarities).
Proof.
  intros Doc st tracing query cache_dir top_n results H.
  apply semantic_search_ok in H as (c & qv & sims & Hc & Hqv & Hsims & Hres).
  exists c, qv, sims, (top_results sims top_n).
  repeat (split; [assumption |]).
  apply assemble_scores in Hres as [_ Hres].
  split; [| split].
  - eapply List.Forall2_impl; [| exact Hres].
    intros p r [Hs Hd]. split; [exact Hs | now apply np_get_nat].
  - unfold top_results, py_prefix. rewrite <- firstn_map. apply NoDup_firstn.
    eapply Permutation_NoDup.
    + apply Permutation_map. symmetry. apply sort_desc_perm.
    + rewrite (calculate_similarities_rows _ _ _ Hsims). apply List.seq_NoDup.
  - intros p Hp. unfold top_results, py_prefix in Hp. apply In_firstn in Hp.
    eapply Permutation_in; [apply sort_desc_perm | exact Hp].
Qed.

Lemma results_pair_scores_with_their_rows_witness :
  exists (c : tfidf_components string) (query_vector : dict)
         (cosine_similarities top : list (f64 * nat)),
    load_tfidf_components Example.store "cache" = Ok c /\
    vectorize_query "apple" (vocabulary c) (idf_values c) = Ok query_vector /\
    calculate_similarities (tfidf_matrix c) query_vector = Ok cosine_similarities /\
    List.Forall2 (fun p r => score r = fst p /\
                             documents c !! snd p = Some (document r))
                 top
                 [ {| score := 1%float; document := "doc0" |};
                   {| score := doc2_score; document := "doc2" |} ] /\
    List.NoDup (map snd top) /\
    (forall p, In p top -> In p cosine_similarities).
Proof.
  apply (results_pair_scores_with_their_rows string Example.store false "apple" "cache" 2).
  vm_compute. reflexivity.
Defined.

(** ** Every exception that can leave the search *)

Lemma mapM_raise {A B : Type} (f : A -> result B) (l : list A) (e : exn) :
  mapM f l = Raise e -> exists a, In a l /\ f a = Raise e.
Proof.
  induction l as [|a l IH]; simpl; intros H; [discriminate |].
  destruct (f a) as [b|e'] eqn:Ea; simpl in H.
  - destruct (mapM f l) as [bs|e'']; simpl in H; [discriminate |].
    injection H as <-. destruct (IH eq_refl) as (a' & Hin & Ha'). eauto.
  - injection H as <-. eauto.
Qed.

Lemma np_zeros_raise (n : Z) (e : exn) : np_zeros n = Raise e -> e = ValueError.
Proof. unfold np_zeros. destruct (n <? 0); congruence. Qed.

Lemma fill_query_raise (d : dict) (v : list f64) (e : exn) :
  fill_query d v = Raise e -> e = IndexError.
Proof.
  revert v. induction d as [|[k x] d IH]; simpl; intros v H; [discriminate |].
  unfold np_set in H. destruct (norm_index (length v) k); simpl in H.
  - now apply (IH _ H).
  - congruence.
Qed.

Lemma np_set_many_raise (a : list f64) (idx : list Z) (vals : list f64) (e : exn) :
  np_set_many a idx vals = Raise e -> index_or_value_error e.
Proof.
  unfold np_set_many, broadcast_to. intros H.
  assert (forall vs, (let* ks := mapM (check_index (length a)) idx in
                      Ok (store_all a (combine ks vs))) = Raise e -> e = IndexError) as Hk.
  { intros vs Hvs. destruct (mapM (check_index (length a)) idx) as [ks|e'] eqn:E;
      simpl in Hvs; [discriminate |]. injection Hvs as <-.
    apply mapM_raise in E as (j & _ & Hj). unfold check_index in Hj.
    destruct (norm_index (length a) j); congruence. }
  destruct (length vals =? length idx)%nat; simpl in H.
  - left. now apply (Hk vals).
  - destruct vals as [|v [|v' vals]]; simpl in H.
    + right. congruence.
    + left. now apply (Hk (repeat v (length idx))).
    + right. congruence.
Qed.

Lemma document_vector_raise (m : csr_matrix) (i : nat) (e : exn) :
  document_vector m i = Raise e -> index_or_value_error e.
Proof.
  unfold document_vector. intros H.
  destruct (np_zeros (snd (shape m))) as [z|e0] eqn:Ez; simpl in H;
    [| injection H as <-; right; now apply np_zeros_raise in Ez].
  destruct (np_get (indptr m) (Z.of_nat i)) as [s|e0] eqn:Es; simpl in H;
    [| injection H as <-; left; now apply np_get_raise in Es].
  destruct (np_get (indptr m) (Z.of_nat i + 1)) as [t|e0] eqn:Et; simpl in H;
    [| injection H as <-; left; now apply np_get_raise in Et].
  now apply np_set_many_raise in H.
Qed.

Lemma cosine_similarity_raise (vec1 vec2 : list f64) (e : exn) :
  cosine_similarity_manual vec1 vec2 = Raise e ->
  e = ValueError /\ length vec1 <> length vec2.
Proof.
  unfold cosine_similarity_manual, np_dot.
  destruct (length vec1 =? length vec2)%nat eqn:E; simpl.
  - match goal with |- context [if ?b then _ else _] => destruct b end; discriminate.
  - intros H. apply Nat.eqb_neq in E. split; congruence.
Qed.

Lemma rank_and_assemble_raise {Doc : Type} (c : tfidf_components Doc) (qv : dict)
    (top_n : Z) (e : exn) :
  rank_and_assemble c qv top_n = Raise e -> index_or_value_error e.
Proof.
  unfold rank_and_assemble. intros H.
  destruct (calculate_similarities (tfidf_matrix c) qv) as [sims|e0] eqn:Es; simpl in H.
  - left. unfold assemble in H. apply mapM_raise in H as (p & _ & Hp).
    destruct (np_get (documents c) (Z.of_nat (snd p))) as [d|e1] eqn:Ed; simpl in Hp;
      [discriminate |].
    injection Hp as <-. now apply np_get_raise in Ed.
  - injection H as <-. unfold calculate_similarities in Es.
    destruct (np_zeros (snd (shape (tfidf_matrix c)))) as [z|e1] eqn:Ez; simpl in Es;
      [| injection Es as <-; right; now apply np_zeros_raise in Ez].
    destruct (fill_query qv z) as [q|e1] eqn:Eq; simpl in Es;
      [| injection Es as <-; left; now apply fill_query_raise in Eq].
    apply mapM_raise in Es as (i & _ & Hi). unfold score_row in Hi.
    destruct (document_vector (tfidf_matrix c) i) as [dv|e1] eqn:Ed; simpl in Hi;
      [| injection Hi as <-; now apply document_vector_raise in Ed].
    destruct (cosine_similarity_manual dv q) as [s|e1] eqn:Ec; simpl in Hi;
      [discriminate |].
    injection Hi as <-. right. now apply cosine_similarity_raise in Ec.
Qed.

(** X3.  The complete list of what [semantic_search] can raise: the
    loader's own exception when it is not a RuntimeError; for a loader
    RuntimeError, NameError with a real span and otherwise a RuntimeError
    raised from it; after a successful load, "Query vectorization
    failed" raised from an IndexError, or "Semantic search failed" raised
    from an IndexError or a ValueError. *)
Theorem exceptions_of_semantic_search :
  forall (Doc : Type) (st : storage Doc) tracing query cache_dir top_n (e : exn),
    semantic_search st tracing query cache_dir top_n = Raise e ->
    (exists e0, load_tfidf_components st cache_dir = Raise e0 /\
                is_RuntimeError e0 = false /\ e = e0) \/
    (exists e0, load_tfidf_components st cache_dir = Raise e0 /\
                is_RuntimeError e0 = true /\
                e = if tracing then NameError "trace"
                    else RuntimeError "Semantic search failed: " e0) \/
    (exists c, load_tfidf_components st cache_dir = Ok c /\
               vectorize_query query (vocabulary c) (idf_values c) = Raise IndexError /\
               e = RuntimeError "Query vectorization failed: " IndexError) \/
    (exists c query_vector cause,
        load_tfidf_components st cache_dir = Ok c /\
        vectorize_query query (vocabulary c) (idf_values c) = Ok query_vector /\
        rank_and_assemble c query_vector top_n = Raise cause /\
        (cause = IndexError \/ cause = ValueError) /\
        e = RuntimeError "Semantic search failed: " cause).
Proof.
  intros Doc st tracing query cache_dir top_n e. unfold semantic_search.
  destruct (load_tfidf_components st cache_dir) as [c|e0].
  - unfold search_loaded.
    destruct (vectorize_query query (vocabulary c) (idf_values c)) as [qv|e1] eqn:Eq;
      cbn [wrap_exception bind].
    + destruct (rank_and_assemble c qv top_n) as [r|e2] eqn:Er; cbn [wrap_exception];
        [discriminate |].
      intros H. injection H as <-. right. right. right.
      exists c, qv, e2. repeat split; try reflexivity; try assumption.
      now apply rank_and_assemble_raise in Er.
    + intros H. injection H as <-. right. right. left.
      assert (e1 = IndexError) as -> by (eapply vectorize_loop_raise; exact Eq).
      exists c. repeat split; reflexivity || assumption.
  - destruct (is_RuntimeError e0) eqn:Er.
    + intros H. right. left. exists e0.
      split; [reflexivity |]. split; [exact Er |]. destruct tracing; congruence.
    + intros H. left. exists e0. split; [reflexivity |]. split; [exact Er | congruence].
Qed.

Lemma exceptions_of_semantic_search_witness :
  (exists e0, load_tfidf_components Example.store "missing" = Raise e0 /\
              is_RuntimeError e0 = false /\
              FileNotFoundError "missing/tfidf_matrix.npz" = e0) \/
  (exists e0, load_tfidf_components Example.store "missing" = Raise e0 /\
              is_RuntimeError e0 = true /\
              FileNotFoundError "missing/tfidf_matrix.npz"
              = if false then NameError "trace"
                else RuntimeError "Semantic search failed: " e0) \/
  (exists c, load_tfidf_components Example.store "missing" = Ok c /\
             vectorize_query "apple" (vocabulary c) (idf_values c) = Raise IndexError /\
             FileNotFoundError "missing/tfidf_matrix.npz"
             = RuntimeError "Query vectorization failed: " IndexError) \/
  (exists c query_vector cause,
      load_tfidf_components Example.store "missing" = Ok c /\
      vectorize_query "apple" (vocabulary c) (idf_values c) = Ok query_vector /\
      rank_and_assemble c query_vector 5 = Raise cause /\
      (cause = IndexError \/ cause = ValueError) /\
      FileNotFoundError "missing/tfidf_matrix.npz"
      = RuntimeError "Semantic search failed: " cause).
Proof.
  apply (exceptions_of_semantic_search string Example.store false "apple" "missing" 5).
  vm_compute. reflexivity.
Defined.

(** ** What the query vector holds *)

Lemma vectorize_loop_lookup (items : list (string * nat)) (vocab : gmap string Z)
    (idf : list f64) (qv0 qv : dict) :
  vocab_injective vocab ->
  List.NoDup (map fst items) ->
  vectorize_loop items vocab idf qv0 = Ok qv ->
  forall j : Z,
    (forall t cnt, In (t, cnt) items -> vocab !! t = Some j ->
       exists w, np_get idf j = Ok w /\
                 dict_get qv j = Some (PrimFloat.mul (float_of_Z (Z.of_nat cnt)) w)) /\
    ((forall t cnt, In (t, cnt) items -> vocab !! t <> Some j) ->
     dict_get qv j = dict_get qv0 j).
Proof.
  intros Hinj. revert qv0.
  induction items as [|[t0 c0] items IH]; intros qv0 Hnd Hrun j.
  - simpl in Hrun. injection Hrun as <-. split; [intros t cnt [] | reflexivity].
  - simpl in Hnd. inversion Hnd as [|? ? Hnotin Hnd']; subst.
    simpl in Hrun.
    destruct (vocab !! t0) as [i0|] eqn:E0.
    + destruct (np_get idf i0) as [w0|e] eqn:Ew; simpl in Hrun; [| discriminate].
      destruct (IH _ Hnd' Hrun j) as [IH1 IH2].
      assert (forall t cnt, In (t, cnt) items -> vocab !! t <> Some i0) as Hrest.
      { intros t cnt Hin Ht. apply Hnotin.
        rewrite (Hinj t0 t i0 E0 Ht). apply (in_map fst _ _ Hin). }
      split.
      * intros t cnt [Heq | Hin] Ht.
        -- injection Heq as <- <-. assert (j = i0) as -> by congruence.
           exists w0. split; [exact Ew |].
           destruct (IH _ Hnd' Hrun i0) as [_ IH2']. rewrite (IH2' Hrest).
           rewrite dict_get_set, Z.eqb_refl. reflexivity.
        -- now apply (IH1 t cnt).
      * intros Hnone. rewrite IH2.
        -- rewrite dict_get_set. destruct (i0 =? j) eqn:Ej; [| reflexivity].
           apply Z.eqb_eq in Ej as ->. exfalso. apply (Hnone t0 c0); [now left | exact E0].
        -- intros t cnt Hin. apply (Hnone t cnt). now right.
    + destruct (IH _ Hnd' Hrun j) as [IH1 IH2]. split.
      * intros t cnt [Heq | Hin] Ht.
        -- injection Heq as <- <-. congruence.
        -- now apply (IH1 t cnt).
      * intros Hnone. apply IH2. intros t cnt Hin. apply (Hnone t cnt). now right.
Qed.

(** X4.  With a vocabulary that sends distinct terms to distinct columns,
    a successful vectorization maps the column of every known query
    token to (number of occurrences of the token) times (idf of that
    column), and has no entry for any other column; this holds in
    whatever order the set of tokens is visited. *)
Theorem query_vector_weights :
  forall (vocab : gmap string Z) (idf : list f64) (query : string)
         (order : list string) (query_vector : dict),
    vocab_injective vocab ->
    set_order (tokenize query) order ->
    vectorize_query_in order query vocab idf = Ok query_vector ->
    forall j : Z,
      (forall t, In t (tokenize query) -> vocab !! t = Some j ->
         exists w, np_get idf j = Ok w /\
                   dict_get query_vector j
                   = Some (PrimFloat.mul
                             (float_of_Z (Z.of_nat (count (tokenize query) t))) w)) /\
      ((forall t, In t (tokenize query) -> vocab !! t <> Some j) ->
       dict_get query_vector j = None).
Proof.
  intros vocab idf query order qv Hinj [Hnd Hin] Hrun j.
  unfold vectorize_query_in in Hrun.
  destruct (vectorize_loop_lookup _ vocab idf [] qv Hinj
              ltac:(rewrite token_counts_terms; exact Hnd) Hrun j) as [H1 H2].
  split.
  - intros t Ht Hj. apply (H1 t (count (tokenize query) t)); [| exact Hj].
    unfold token_counts. apply in_map_iff. exists t. split; [reflexivity |].
    now apply Hin.
  - intros Hnone. rewrite H2; [reflexivity |].
    intros t cnt Hitem. unfold token_counts in Hitem.
    apply in_map_iff in Hitem as (t' & Heq & Ht'). injection Heq as -> _.
    apply Hnone. now apply Hin.
Qed.

Lemma example_vocab_injective : vocab_injective Example.vocab.
Proof.
  intros t1 t2 c. unfold Example.vocab.
  rewrite !lookup_insert. repeat case_decide; subst; try congruence;
    rewrite ?lookup_empty; congruence.
Qed.

Lemma query_vector_weights_witness :
  (forall t, In t (tokenize "banana Apple BANANA") -> Example.vocab !! t = Some 1 ->
     exists w, np_get Example.idf 1 = Ok w /\
               dict_get [(1, 6%float); (0, 2%float)] 1
               = Some (PrimFloat.mul
                         (float_of_Z (Z.of_nat (count (tokenize "banana Apple BANANA") t)))
                         w)) /\
  ((forall t, In t (tokenize "banana Apple BANANA") -> Example.vocab !! t <> Some 1) ->
   dict_get [(1, 6%float); (0, 2%float)] 1 = None).
Proof.
  apply (query_vector_weights Example.vocab Example.idf "banana Apple BANANA"
           ["banana"; "apple"] [(1, 6%float); (0, 2%float)]).
  - exact example_vocab_injective.
  - split.
    + repeat constructor; simpl; intuition discriminate.
    + intros t. vm_compute. tauto.
  - vm_compute. reflexivity.
Defined.

(** ** The tokens of a query *)

Lemma lower_char_idem (c : ascii) : lower_char (lower_char c) = lower_char c.
Proof. destruct c as [[] [] [] [] [] [] [] []]; reflexivity. Qed.

Lemma all_chars_append (f : ascii -> bool) (a b : string) :
  all_chars f (String.append a b) = all_chars f a && all_chars f b.
Proof.
  induction a as [|c a IH]; simpl; [reflexivity |].
  rewrite IH. now rewrite andb_assoc.
Qed.

Lemma split_from_tokens (f : ascii -> bool) (s cur : string) (t : string) :
  all_chars f s = true -> all_chars f cur = true ->
  all_chars (fun c => negb (is_space c)) cur = true ->
  In t (split_from s cur) ->
  t <> "" /\ all_chars f t = true /\ all_chars (fun c => negb (is_space c)) t = true.
Proof.
  revert cur. induction s as [|c s IH]; intros cur Hs Hcur Hsp Hin; simpl in *.
  - destruct (String.eqb_spec cur ""); [destruct Hin |].
    destruct Hin as [<- | []]. auto.
  - apply andb_true_iff in Hs as [Hc Hs].
    destruct (is_space c) eqn:Ec.
    + destruct (String.eqb_spec cur "").
      * now apply (IH "").
      * destruct Hin as [<- | Hin]; [auto | now apply (IH "")].
    + apply (IH (String.append cur (String c ""))); try assumption.
      * rewrite all_chars_append, Hcur. simpl. now rewrite Hc.
      * rewrite all_chars_append, Hsp. simpl. now rewrite Ec.
Qed.

Lemma all_chars_lower (s : string) :
  all_chars (fun c => Ascii.eqb (lower_char c) c) (lower s) = true.
Proof.
  induction s as [|c s IH]; simpl; [reflexivity |].
  rewrite lower_char_idem, Ascii.eqb_refl. exact IH.
Qed.

Lemma lower_fixed (t : string) :
  all_chars (fun c => Ascii.eqb (lower_char c) c) t = true -> lower t = t.
Proof.
  induction t as [|c t IH]; simpl; intros H; [reflexivity |].
  apply andb_true_iff in H as [Hc Ht]. apply Ascii.eqb_eq in Hc.
  now rewrite Hc, IH.
Qed.

Lemma tokenize_tokens (query t : string) :
  In t (tokenize query) ->
  t <> "" /\
  all_chars (fun c => Ascii.eqb (lower_char c) c) t = true /\
  all_chars (fun c => negb (is_space c)) t = true.
Proof.
  intros Hin.
  exact (split_from_tokens (fun c => Ascii.eqb (lower_char c) c) (lower query) "" t
           (all_chars_lower query) eq_refl eq_refl Hin).
Qed.

(** X5.  Every token of a query (a string of characters below U+0100)
    is a non-empty string without white space and without upper-case
    letters (lower-casing it changes nothing). *)
Theorem tokens_are_clean (query t : string) :
  In t (tokenize query) ->
  t <> "" /\
  all_chars (fun c => negb (is_space c)) t = true /\
  lower t = t.
Proof.
  intros Hin. destruct (tokenize_tokens query t Hin) as (Hne & Hlow & Hsp).
  repeat split; try assumption. now apply lower_fixed.
Qed.

Lemma tokens_are_clean_witness :
  "apple" <> "" /\
  all_chars (fun c => negb (is_space c)) "apple" = true /\
  lower "apple" = "apple".
Proof.
  apply (tokens_are_clean "  Apple	pie " "apple").
  vm_compute. auto.
Defined.

Lemma append_cons (c : ascii) (a b : string) :
  String.append (String c a) b = String c (String.append a b).
Proof. reflexivity. Qed.

Lemma append_empty_r (s : string) : String.append s "" = s.
Proof.
  induction s as [|c s IH]; [reflexivity |]. now rewrite append_cons, IH.
Qed.

Lemma append_char_assoc (a : string) (c : ascii) (b : string) :
  String.append (String.append a (String c "")) b = String.append a (String c b).
Proof.
  induction a as [|d a IH]; [reflexivity |]. now rewrite !append_cons, IH.
Qed.

Lemma split_from_clean (t s cur : string) :
  all_chars (fun c => negb (is_space c)) t = true ->
  split_from (String.append t s) cur = split_from s (String.append cur t).
Proof.
  revert cur. induction t as [|c t IH]; intros cur Ht; simpl.
  - now rewrite append_empty_r.
  - simpl in Ht. apply andb_true_iff in Ht as [Hc Ht].
    apply negb_true_iff in Hc. rewrite Hc, (IH _ Ht), append_char_assoc. reflexivity.
Qed.

Lemma append_nonempty (a b : string) : b <> "" -> String.append a b <> "".
Proof. destruct a; simpl; [auto | discriminate]. Qed.

(** X6.  Tokenizing is a round trip on its own output: joining the
    tokens of a query (a string of characters below U+0100) with single
    spaces and tokenizing the result gives the same tokens back. *)
Theorem tokenize_join_round_trip (query : string) :
  tokenize (join_spaces (tokenize query)) = tokenize query.
Proof.
  assert (forall tokens,
             (forall t, In t tokens ->
                t <> "" /\ all_chars (fun c => negb (is_space c)) t = true /\ lower t = t) ->
             tokenize (join_spaces tokens) = tokens) as H.
  { intros tokens. unfold tokenize, split.
    induction tokens as [|t tokens IH]; intros Hall; [reflexivity |].
    destruct (Hall t (or_introl eq_refl)) as (Hne & Hsp & Hlow).
    assert (forall t', In t' tokens ->
              t' <> "" /\ all_chars (fun c => negb (is_space c)) t' = true /\ lower t' = t')
      as Hrest by (intros t' Ht'; apply Hall; now right).
    specialize (IH Hrest).
    destruct tokens as [|t2 tokens].
    - simpl. rewrite Hlow.
      rewrite <- (append_empty_r t) at 1.
      rewrite split_from_clean by exact Hsp.
      change (String.append "" t) with t. cbn [split_from].
      destruct (String.eqb_spec t ""); [contradiction | reflexivity].
    - change (join_spaces (t :: t2 :: tokens))
        with (String.append t (String " " (join_spaces (t2 :: tokens)))).
      rewrite lower_append, Hlow. simpl lower.
      rewrite split_from_clean by exact Hsp.
      change (String.append "" t) with t.
      change (lower_char " ") with " "%char. cbn [split_from].
      change (is_space " ") with true. cbv iota.
      destruct (String.eqb_spec t ""); [contradiction |].
      f_equal. exact IH. }
  apply H. intros t Hin. destruct (tokenize_tokens query t Hin) as (Hne & Hlow & Hsp).
  repeat split; try assumption. now apply lower_fixed.
Qed.

(** ** The dense expansion of a row *)

Lemma store_all_untouched (a : list f64) (ivs : list (nat * f64)) (j : nat) :
  (forall k v, In (k, v) ivs -> k <> j) -> store_all a ivs !! j = a !! j.
Proof.
  revert a. induction ivs as [|[k v] ivs IH]; intros a H; simpl; [reflexivity |].
  rewrite IH by (intros k' v' Hin; apply (H k' v'); now right).
  apply list_lookup_insert_ne. apply (H k v). now left.
Qed.

Lemma store_all_last_write (a : list f64) (ivs : list (nat * f64)) (p k : nat) (v : f64) :
  ivs !! p = Some (k, v) -> (k < length a)%nat ->
  (forall p' k' v', (p < p')%nat -> ivs !! p' = Some (k', v') -> k' <> k) ->
  store_all a ivs !! k = Some v.
Proof.
  revert a p. induction ivs as [|[k0 v0] ivs IH]; intros a p Hp Hk Hlater; [discriminate |].
  destruct p as [|p]; simpl in *.
  - injection Hp as -> ->. rewrite store_all_untouched.
    + now apply list_lookup_insert_eq.
    + intros k' v' Hin. apply list_elem_of_In, list_elem_of_lookup in Hin as [p' Hp'].
      apply (Hlater (S p') k' v'); [lia | exact Hp'].
  - apply (IH _ p Hp); [now rewrite length_insert |].
    intros p' k' v' Hlt Hp'. apply (Hlater (S p') k' v'); [lia | exact Hp'].
Qed.

Lemma repeat_lookup {A : Type} (x : A) (n j : nat) :
  (j < n)%nat -> repeat x n !! j = Some x.
Proof.
  revert j. induction n as [|n IH]; intros [|j] H; simpl; try lia; [reflexivity |].
  apply IH. lia.
Qed.

Lemma combine_lookup {A B : Type} (l1 : list A) (l2 : list B) (p : nat) (a : A) (b : B) :
  combine l1 l2 !! p = Some (a, b) <-> l1 !! p = Some a /\ l2 !! p = Some b.
Proof.
  revert l2 p. induction l1 as [|x l1 IH]; intros [|y l2] [|p]; simpl;
    try (split; [discriminate | intros [? ?]; discriminate]).
  - split; [intros H; injection H as -> ->; auto | intros [H1 H2]; congruence].
  - apply IH.
Qed.

Lemma check_index_lookup (n : nat) (idx : list Z) (ks : list nat) (p : nat) :
  mapM (check_index n) idx = Ok ks ->
  (forall c, idx !! p = Some c -> exists k, ks !! p = Some k /\ norm_index n c = Some k) /\
  (forall k, ks !! p = Some k -> exists c, idx !! p = Some c /\ norm_index n c = Some k).
Proof.
  intros H. apply mapM_Forall2 in H. revert p.
  induction H as [|c k idx ks Hck _ IH]; intros p.
  - split; intros ? H; discriminate.
  - assert (norm_index n c = Some k) as Hn.
    { unfold check_index in Hck. destruct (norm_index n c); congruence. }
    destruct p as [|p]; simpl.
    + split; intros ? H; injection H as <-; eauto.
    + apply IH.
Qed.

(** X7.  When the dense expansion of row i succeeds, it has one entry
    per column; a column that no index of the row's slice addresses is
    0.0; and a column holds the data value of the last position of the
    slice that addresses it. *)
Theorem dense_expansion_of_a_row :
  forall (m : csr_matrix) (i : nat) (dv : list f64),
    document_vector m i = Ok dv ->
    exists start_idx end_idx : Z,
      np_get (indptr m) (Z.of_nat i) = Ok start_idx /\
      np_get (indptr m) (Z.of_nat i + 1) = Ok end_idx /\
      Z.of_nat (length dv) = snd (shape m) /\
      (forall j : nat,
          (j < length dv)%nat ->
          (forall c, In c (py_slice (indices m) start_idx end_idx) ->
                     norm_index (length dv) c <> Some j) ->
          dv !! j = Some fzero) /\
      (forall (p j : nat) (c : Z) (v : f64),
          length (py_slice (data m) start_idx end_idx)
          = length (py_slice (indices m) start_idx end_idx) ->
          py_slice (indices m) start_idx end_idx !! p = Some c ->
          py_slice (data m) start_idx end_idx !! p = Some v ->
          norm_index (length dv) c = Some j ->
          (forall p' c', (p < p')%nat ->
                         py_slice (indices m) start_idx end_idx !! p' = Some c' ->
                         norm_index (length dv) c' <> Some j) ->
          dv !! j = Some v).
Proof.
  intros m i dv H. unfold document_vector in H.
  apply bind_ok in H as (zeros & Hz & H).
  apply bind_ok in H as (s & Hs & H).
  apply bind_ok in H as (e & He & H).
  exists s, e. split; [exact Hs |]. split; [exact He |].
  unfold np_zeros in Hz. destruct (snd (shape m) <? 0) eqn:Ec; [discriminate |].
  injection Hz as <-. apply Z.ltb_ge in Ec.
  set (idx := py_slice (indices m) s e) in *.
  set (vals := py_slice (data m) s e) in *.
  set (zeros := repeat fzero (Z.to_nat (snd (shape m)))) in *.
  unfold np_set_many in H.
  apply bind_ok in H as (vs & Hvs & H).
  apply bind_ok in H as (ks & Hks & H).
  injection H as <-.
  assert (length (store_all zeros (combine ks vs)) = length zeros) as Hlen
    by apply store_all_length.
  assert (length zeros = Z.to_nat (snd (shape m))) as Hzl by apply repeat_length.
  rewrite Hlen.
  split; [lia |]. split.
  - intros j Hj Hnone. rewrite store_all_untouched.
    + unfold zeros. apply repeat_lookup. lia.
    + intros k v Hin Hkj. subst k.
      apply list_elem_of_In, list_elem_of_lookup in Hin as [p Hp].
      apply combine_lookup in Hp as [Hk _].
      destruct (proj2 (check_index_lookup _ _ _ p Hks) j Hk) as (c & Hc & Hn).
      apply (Hnone c); [| exact Hn].
      apply list_elem_of_In. eapply list_elem_of_lookup_2. exact Hc.
  - intros p j c v Hsame Hc Hv Hn Hlater.
    assert (vs = vals) as ->.
    { unfold broadcast_to in Hvs. rewrite Hsame, Nat.eqb_refl in Hvs. congruence. }
    destruct (proj1 (check_index_lookup _ _ _ p Hks) c Hc) as (k & Hk & Hn').
    assert (k = j) as -> by congruence.
    apply (store_all_last_write _ _ p).
    + apply combine_lookup. auto.
    + unfold norm_index in Hn.
      destruct ((0 <=? c) && (c <? Z.of_nat (length zeros))) eqn:E1.
      * injection Hn as <-. apply andb_true_iff in E1 as [E0 E1].
        apply Z.leb_le in E0. apply Z.ltb_lt in E1. lia.
      * destruct ((- Z.of_nat (length zeros) <=? c) && (c <? 0)) eqn:E2; [| discriminate].
        injection Hn as <-. apply andb_true_iff in E2 as [E2 E3].
        apply Z.leb_le in E2. apply Z.ltb_lt in E3. lia.
    + intros p' k' v' Hlt Hp' ->.
      apply combine_lookup in Hp' as [Hk' _].
      destruct (proj2 (check_index_lookup _ _ _ p' Hks) j Hk') as (c' & Hc' & Hn'').
      now apply (Hlater p' c').
Qed.

Lemma dense_expansion_of_a_row_witness :
  exists start_idx end_idx : Z,
    np_get (indptr Example.matrix) (Z.of_nat 2) = Ok start_idx /\
    np_get (indptr Example.matrix) (Z.of_nat 2 + 1) = Ok end_idx /\
    Z.of_nat (length [1%float; 1%float]) = snd (shape Example.matrix) /\
    (forall j : nat,
        (j < length [1%float; 1%float])%nat ->
        (forall c, In c (py_slice (indices Example.matrix) start_idx end_idx) ->
                   norm_index (length [1%float; 1%float]) c <> Some j) ->
        [1%float; 1%float] !! j = Some fzero) /\
    (forall (p j : nat) (c : Z) (v : f64),
        length (py_slice (data Example.matrix) start_idx end_idx)
        = length (py_slice (indices Example.matrix) start_idx end_idx) ->
        py_slice (indices Example.matrix) start_idx end_idx !! p = Some c ->
        py_slice (data Example.matrix) start_idx end_idx !! p = Some v ->
        norm_index (length [1%float; 1%float]) c = Some j ->
        (forall p' c', (p < p')%nat ->
                       py_slice (indices Example.matrix) start_idx end_idx !! p' = Some c' ->
                       norm_index (length [1%float; 1%float]) c' <> Some j) ->
        [1%float; 1%float] !! j = Some v).
Proof.
  apply (dense_expansion_of_a_row Example.matrix 2 [1%float; 1%float]).
  vm_compute. reflexivity.
Defined.

(** ** A query without a known term *)

Lemma dot_self_zeros (n : nat) : dot_self (repeat fzero n) = fzero.
Proof.
  unfold dot_self. induction n as [|n IH]; simpl; [reflexivity |].
  change (PrimFloat.add fzero (PrimFloat.mul fzero fzero)) with fzero. exact IH.
Qed.

Lemma cosine_with_zero_query (dv : list f64) (n : nat) :
  length dv = n -> cosine_similarity_manual dv (repeat fzero n) = Ok fzero.
Proof.
  intros H. unfold cosine_similarity_manual, np_dot.
  rewrite repeat_length, H, Nat.eqb_refl. cbn [bind].
  unfold np_linalg_norm at 2. rewrite dot_self_zeros.
  change (PrimFloat.eqb (PrimFloat.sqrt fzero) fzero) with true.
  now rewrite andb_false_r.
Qed.

Lemma mapM_map {A B : Type} (f : A -> result B) (g : A -> B) (l : list A) :
  (forall a, In a l -> f a = Ok (g a)) -> mapM f l = Ok (map g l).
Proof.
  induction l as [|a l IH]; intros H; simpl; [reflexivity |].
  rewrite (H a) by now left. simpl. rewrite IH by (intros a' Ha'; apply H; now right).
  reflexivity.
Qed.

Lemma sort_desc_equal_keys (l : list (f64 * nat)) :
  (forall p, In p l -> fst p = fzero) -> sort_desc l = l.
Proof.
  intros H. rewrite sort_desc_stable by (intros p Hp; now rewrite (H p Hp)).
  induction l as [|x l IH]; simpl; [reflexivity |].
  rewrite IH by (intros p Hp; apply H; now right).
  destruct l as [|y l]; simpl; [reflexivity |].
  rewrite (H x) by now left. rewrite (H y) by (right; now left). reflexivity.
Qed.

Lemma assemble_rows {Doc : Type} (docs : list Doc) (s k : nat) :
  (s + k <= length docs)%nat ->
  assemble docs (map (fun i => (fzero, i)) (seq s k))
  = Ok (map (fun d => {| score := fzero; document := d |}) (firstn k (skipn s docs))).
Proof.
  unfold assemble. revert s. induction k as [|k IH]; intros s H; simpl; [reflexivity |].
  destruct (np_get_inside docs (Z.of_nat s)) as (d & Hd & Hlook); [lia |].
  rewrite Hd. cbn [bind]. rewrite IH by lia. cbn [bind].
  rewrite Nat2Z.id in Hlook.
  rewrite (drop_S docs d s Hlook). reflexivity.
Qed.

(** X8.  On a loaded, well-formed index, a query none of whose tokens
    is in the vocabulary (the empty query included) scores every row 0.0
    and, for top_n >= 0, returns the first top_n documents in row order,
    each with score 0.0. *)
Theorem unknown_query_returns_first_documents :
  forall (Doc : Type) (st : storage Doc) tracing query cache_dir top_n
         (c : tfidf_components Doc),
    load_tfidf_components st cache_dir = Ok c ->
    wf_index c ->
    (forall t, In t (tokenize query) -> vocabulary c !! t = None) ->
    0 <= top_n ->
    calculate_similarities (tfidf_matrix c) []
    = Ok (map (fun i => (fzero, i)) (seq 0 (Z.to_nat (rows c)))) /\
    semantic_search st tracing query cache_dir top_n
    = Ok (map (fun d => {| score := fzero; document := d |})
              (firstn (Z.to_nat top_n) (documents c))).
Proof.
  intros Doc st tracing query cache_dir top_n c Hload Hwf Habs Hn.
  pose proof (wf_cols c Hwf) as Hcols.
  pose proof (wf_rows c Hwf) as Hrows.
  pose proof (wf_documents_length c Hwf) as Hdocs.
  assert (vectorize_query query (vocabulary c) (idf_values c) = Ok []) as Hqv.
  { unfold vectorize_query, vectorize_query_in. apply vectorize_loop_absent.
    intros p Hp. unfold token_counts in Hp. apply in_map_iff in Hp as (t & <- & Ht).
    apply Habs. now apply distinct_In. }
  assert (calculate_similarities (tfidf_matrix c) []
          = Ok (map (fun i => (fzero, i)) (seq 0 (Z.to_nat (rows c))))) as Hsims.
  { unfold calculate_similarities. fold (cols c) (rows c).
    rewrite np_zeros_total by assumption. cbn [bind fill_query].
    apply mapM_map. intros i Hi. apply in_seq in Hi.
    destruct (document_vector_total Doc c Hwf i ltac:(lia)) as (dv & Hdv & Hlen).
    unfold score_row. rewrite Hdv. cbn [bind].
    rewrite cosine_with_zero_query by lia. reflexivity. }
  split; [exact Hsims |].
  rewrite (semantic_search_loaded _ _ _ _ _ _ Hload).
  unfold search_loaded, rank_and_assemble. rewrite Hqv. cbn [wrap_exception bind].
  rewrite Hsims. cbn [bind].
  unfold top_results, py_prefix.
  rewrite sort_desc_equal_keys
    by (intros p Hp; apply in_map_iff in Hp as (i & <- & _); reflexivity).
  rewrite length_map, length_seq, slice_bound_id by lia.
  rewrite firstn_map, take_seq.
  rewrite assemble_rows by (simpl; lia).
  cbn [wrap_exception skipn]. do 2 f_equal.
  change (drop 0 (documents c)) with (documents c).
  destruct (Nat.le_ge_cases (Z.to_nat top_n) (Z.to_nat (rows c))) as [H | H].
  - f_equal. lia.
  - rewrite !firstn_all2 by lia. reflexivity.
Qed.

Lemma unknown_query_returns_first_documents_witness :
  calculate_similarities (tfidf_matrix Example.components) []
  = Ok (map (fun i => (fzero, i)) (seq 0 (Z.to_nat (rows Example.components)))) /\
  semantic_search Example.store false "zzz  qqq" "cache" 2
  = Ok (map (fun d => {| score := fzero; document := d |})
            (firstn (Z.to_nat 2) (documents Example.components))).
Proof.
  apply (unknown_query_returns_first_documents string Example.store false "zzz  qqq"
           "cache" 2 Example.components).
  - vm_compute. reflexivity.
  - exact example_wf.
  - intros t Ht. vm_compute in Ht.
    destruct Ht as [<- | [<- | []]]; vm_compute; reflexivity.
  - lia.
Defined.

(** ** Symmetry of the similarity *)

Lemma SFmul_comm (x y : spec_float) : SFmul prec emax x y = SFmul prec emax y x.
Proof.
  destruct x as [sx|sx| |sx mx ex], y as [sy|sy| |sy my ey]; unfold SFmul;
    rewrite ?(xorb_comm sx sy); try reflexivity.
  now rewrite (Pos.mul_comm mx my), (Z.add_comm ex ey).
Qed.

Lemma fmul_comm (x y : f64) : PrimFloat.mul x y = PrimFloat.mul y x.
Proof.
  apply Prim2SF_inj. rewrite !mul_spec. apply SFmul_comm.
Qed.

Lemma dot_fold_comm (a b : list f64) (acc : f64) :
  fold_left (fun acc p => PrimFloat.add acc (PrimFloat.mul (fst p) (snd p)))
            (combine a b) acc
  = fold_left (fun acc p => PrimFloat.add acc (PrimFloat.mul (fst p) (snd p)))
              (combine b a) acc.
Proof.
  revert b acc. induction a as [|x a IH]; intros [|y b] acc; simpl; try reflexivity.
  rewrite (fmul_comm x y). apply IH.
Qed.

(** X9.  The similarity does not depend on the order of its two
    arguments: same score, or the same exception. *)
Theorem cosine_similarity_is_symmetric (vec1 vec2 : list f64) :
  cosine_similarity_manual vec1 vec2 = cosine_similarity_manual vec2 vec1.
Proof.
  unfold cosine_similarity_manual, np_dot.
  rewrite (Nat.eqb_sym (length vec2) (length vec1)).
  destruct (length vec1 =? length vec2)%nat; [| reflexivity]. cbn [bind].
  rewrite (dot_fold_comm vec1 vec2).
  rewrite (fmul_comm (np_linalg_norm vec1) (np_linalg_norm vec2)).
  rewrite (andb_comm (negb (PrimFloat.eqb (np_linalg_norm vec1) fzero))). reflexivity.
Qed.

(** ** The returned rows are the best ones *)

Lemma Sorted_in_order_no_nan (l : list (f64 * nat)) :
  (forall p, In p l -> PrimFloat.is_nan (fst p) = false) ->
  Sorted in_order l ->
  StronglySorted (fun a b => PrimFloat.leb (fst b) (fst a) = true) l.
Proof.
  intros Hnan Hs. apply Sorted_StronglySorted.
  - intros a b c Hab Hbc. exact (fleb_trans _ _ _ Hbc Hab).
  - induction Hs as [|a l Hl IH Hhd]; constructor.
    + apply IH. intros p Hp. apply Hnan. now right.
    + destruct Hhd as [|b l Hab]; constructor.
      apply Hab; apply Hnan; [now left | right; now left].
Qed.

Lemma StronglySorted_split {A : Type} (R : A -> A -> Prop) (l1 l2 : list A) :
  StronglySorted R (l1 ++ l2) -> forall a b, In a l1 -> In b l2 -> R a b.
Proof.
  induction l1 as [|x l1 IH]; simpl; intros H a b Ha Hb; [destruct Ha |].
  inversion H as [|? ? Hss Hall]; subst.
  destruct Ha as [<- | Ha].
  - rewrite List.Forall_forall in Hall. apply Hall, in_or_app. now right.
  - now apply IH.
Qed.

(** X10.  When no score is NaN, every score a successful search returns
    is at least as large as the score of every row it leaves out: the
    search returns the top_n best rows. *)
Theorem returned_rows_are_the_best :
  forall (Doc : Type) (st : storage Doc) tracing query cache_dir top_n
         (results : list (search_result Doc)) (c : tfidf_components Doc)
         (query_vector : dict) (cosine_similarities : list (f64 * nat)),
    load_tfidf_components st cache_dir = Ok c ->
    vectorize_query query (vocabulary c) (idf_values c) = Ok query_vector ->
    calculate_similarities (tfidf_matrix c) query_vector = Ok cosine_similarities ->
    semantic_search st tracing query cache_dir top_n = Ok results ->
    (forall p, In p cosine_similarities -> PrimFloat.is_nan (fst p) = false) ->
    forall (r : search_result Doc) (q : f64 * nat),
      In r results -> In q cosine_similarities ->
      In q (top_results cosine_similarities top_n) \/
      PrimFloat.leb (fst q) (score r) = true.
Proof.
  intros Doc st tracing query cache_dir top_n results c qv sims Hc Hqv Hsims H Hnan r q Hr Hq.
  rewrite (semantic_search_loaded _ _ _ _ _ _ Hc) in H.
  unfold search_loaded, rank_and_assemble in H.
  rewrite Hqv in H. cbn [wrap_exception bind] in H. rewrite Hsims in H. cbn [bind] in H.
  apply wrap_exception_ok in H.
  unfold top_results, py_prefix in *.
  set (k := slice_bound (length (sort_desc sims)) top_n) in *.
  apply assemble_scores in H as [Hscores _].
  assert (In (score r) (map fst (firstn k (sort_desc sims)))) as Hin.
  { rewrite <- Hscores. now apply in_map. }
  apply in_map_iff in Hin as (p & <- & Hp).
  assert (In q (firstn k (sort_desc sims) ++ skipn k (sort_desc sims))) as Hq'.
  { rewrite firstn_skipn. eapply Permutation_in; [symmetry; apply sort_desc_perm | exact Hq]. }
  apply in_app_or in Hq' as [Hq' | Hq']; [now left | right].
  assert (StronglySorted (fun a b => PrimFloat.leb (fst b) (fst a) = true)
            (firstn k (sort_desc sims) ++ skipn k (sort_desc sims))) as Hss.
  { rewrite firstn_skipn. apply Sorted_in_order_no_nan; [| now apply sort_desc_sorted].
    intros p' Hp'. apply Hnan. eapply Permutation_in; [apply sort_desc_perm | exact Hp']. }
  exact (StronglySorted_split _ _ _ Hss p q Hp Hq').
Qed.

Lemma returned_rows_are_the_best_witness :
  In (0%float, 1%nat)
     (top_results [(1%float, 0%nat); (0%float, 1%nat); (doc2_score, 2%nat)] 2) \/
  PrimFloat.leb (fst (0%float, 1%nat))
                (score {| score := doc2_score; document := "doc2" |}) = true.
Proof.
  apply (returned_rows_are_the_best string Example.store false "apple" "cache" 2
           [ {| score := 1%float; document := "doc0" |};
             {| score := doc2_score; document := "doc2" |} ]
           Example.components [(0, 2%float)]
           [(1%float, 0%nat); (0%float, 1%nat); (doc2_score, 2%nat)]).
  - vm_compute. reflexivity.
  - vm_compute. reflexivity.
  - vm_compute. reflexivity.
  - vm_compute. reflexivity.
  - intros p [<- | [<- | [<- | []]]]; reflexivity.
  - right. now left.
  - right. now left.
Defined.

(** ** The denominator of the division *)

(** The product of two square roots is a finite number: it neither
    overflows nor rounds to zero. *)
Lemma mul_of_roots (ma mb : positive) (ea eb : Z) :
  2 ^ 52 <= Z.pos ma < 2 ^ 53 -> 2 ^ 52 <= Z.pos mb < 2 ^ 53 ->
  -589 <= ea <= 459 -> -589 <= eb <= 459 ->
  exists (mp : positive) (ep : Z),
    SFmul prec emax (S754_finite false ma ea) (S754_finite false mb eb)
    = S754_finite false mp ep.
Proof.
  intros Hma Hmb Hea Heb.
  set (M := Z.pos ma * Z.pos mb).
  assert (2 ^ 104 <= M < 2 ^ 106) as HM.
  { unfold M. change (2 ^ 104) with (2 ^ 52 * 2 ^ 52).
    change (2 ^ 106) with (2 ^ 53 * 2 ^ 53). nia. }
  assert (M <= 2 ^ 106 - 2 ^ 54 + 1) as HMtop.
  { unfold M. change (2 ^ 106 - 2 ^ 54 + 1) with ((2 ^ 53 - 1) * (2 ^ 53 - 1)). nia. }
  set (dx := Z.pos (digits2_pos (ma * mb))).
  pose proof (digits_bounds (ma * mb)) as HD. fold dx in HD.
  rewrite Pos2Z.inj_mul in HD. fold M in HD.
  assert (dx = 105 \/ dx = 106) as Hdx.
  { unfold dx. destruct (Z.lt_ge_cases M (2 ^ 105)) as [H|H]; [left | right];
      apply digits_unique; rewrite Pos2Z.inj_mul; fold M; split;
      solve [exact H | apply HM | lia]. }
  set (k := Z.max (dx - 53) (-1074 - (ea + eb))).
  assert (52 <= k <= 104) as Hk by (unfold k; lia).
  unfold SFmul. cbn [xorb].
  rewrite binary_round_aux_finish. unfold shr_fexp. cbn [Zdigits2]. fold dx.
  rewrite fexp64.
  replace (Z.max (dx + (ea + eb) - 53) (-1074) - (ea + eb)) with k by (unfold k; lia).
  rewrite Pos2Z.inj_mul. fold M.
  destruct (shr_pos (shr_record_of_loc M loc_Exact) (ea + eb) k) as (kp & Ek & ->); [lia |].
  cbv beta iota.
  pose proof (iter_shr_inv kp M 1 _ (shr_inv_exact M ltac:(lia))) as Hinv.
  rewrite Z.mul_1_l in Hinv. rewrite <- Ek in Hinv.
  pose proof (round_nearest_even_inv _ _ _ Hinv) as [Hmr Hhalf].
  destruct Hinv as (HP & Hm0 & rem & Hrem & Hremlt & _).
  set (mr := round_nearest_even _ _) in *.
  set (P := 2 ^ k) in *.
  assert (P <= 2 ^ 104) as HP104 by (apply Z.pow_le_mono_r; lia).
  set (m0 := shr_m (SpecFloat.iter_pos shr_1 kp (shr_record_of_loc M loc_Exact))) in *.
  assert (1 <= m0) as Hm1.
  { destruct (Z.le_gt_cases 1 m0) as [H|H]; [exact H | exfalso].
    assert (m0 = 0) as E0 by lia. rewrite E0 in Hrem. lia. }
  destruct mr as [|pr|pr] eqn:Emr; try lia.
  destruct (Z.eq_dec k (dx - 53)) as [Hnorm | Hsub].
  - assert (P = 2 ^ 52 /\ M < 2 ^ 105 \/ P = 2 ^ 53 /\ 2 ^ 105 <= M) as HPM.
    { destruct Hdx as [Hd | Hd]; [left | right]; unfold P; rewrite Hnorm, Hd;
        (split; [reflexivity |]); rewrite Hd in HD;
        change (105 - 1) with 104 in HD; change (106 - 1) with 105 in HD; lia. }
    assert (2 ^ 52 <= Z.pos pr <= 2 ^ 53) as Hpr by (destruct HPM as [[-> ?] | [-> ?]]; lia).
    destruct (Z.eq_dec (Z.pos pr) (2 ^ 53)) as [Hc | Hc].
    + assert (k = 52) as Hk52.
      { destruct Hdx as [Hd | Hd]; [lia |]. exfalso.
        assert (P = 2 ^ 53) by (unfold P; rewrite Hnorm, Hd; reflexivity). lia. }
      rewrite Hc, finish_carry by lia. eauto.
    + rewrite finish_plain by (unfold k in *; lia). eauto.
  - assert (k = -1074 - (ea + eb) /\ dx - 52 <= k) as [Hksub Hkbig] by (unfold k in *; lia).
    assert (2 ^ dx <= 2 ^ (k + 52)) as Hpow by (apply Z.pow_le_mono_r; lia).
    rewrite Z.pow_add_r in Hpow by lia. fold P in Hpow.
    assert (Z.pos pr <= 2 ^ 52) as Hpr.
    { assert (Z.pos pr * P < (2 ^ 52 + 1) * P) as H by lia.
      apply Z.mul_lt_mono_pos_r in H; lia. }
    rewrite finish_plain by lia. eauto.
Qed.

(** What a square root can be. *)
Lemma sqrt_kinds (x : spec_float) :
  valid_binary x = true ->
  (exists s, SFsqrt prec emax x = S754_zero s) \/
  SFsqrt prec emax x = S754_infinity false \/
  SFsqrt prec emax x = S754_nan \/
  (exists (m : positive) (e : Z),
      SFsqrt prec emax x = S754_finite false m e /\
      2 ^ 52 <= Z.pos m < 2 ^ 53 /\ -589 <= e <= 459).
Proof.
  intros Hv. destruct x as [s|s| |s m e].
  - left. exists s. reflexivity.
  - destruct s; [right; right; left | right; left]; reflexivity.
  - right. right. left. reflexivity.
  - destruct s; [right; right; left; reflexivity |].
    right. right. right.
    destruct (sqrt_step m e Hv) as (m1 & e1 & -> & He1 & _ & Hm1 & _). eauto.
Qed.

(** X13.  Whenever both norms pass the test [!= 0], their product, the
    denominator of the division, is not zero either: the division is
    never by zero. *)
Theorem denominator_is_never_zero (vec1 vec2 : list f64) :
  PrimFloat.eqb (np_linalg_norm vec1) fzero = false ->
  PrimFloat.eqb (np_linalg_norm vec2) fzero = false ->
  PrimFloat.eqb (PrimFloat.mul (np_linalg_norm vec1) (np_linalg_norm vec2)) fzero = false.
Proof.
  unfold np_linalg_norm.
  rewrite !FloatAxioms.eqb_spec, mul_spec, !sqrt_spec.
  change (Prim2SF fzero) with (S754_zero false).
  unfold SF64mul, SF64sqrt.
  destruct (sqrt_kinds _ (Prim2SF_valid (dot_self vec1)))
    as [[s1 ->] | [-> | [-> | (m1 & e1 & -> & Hm1 & He1)]]];
    destruct (sqrt_kinds _ (Prim2SF_valid (dot_self vec2)))
    as [[s2 ->] | [-> | [-> | (m2 & e2 & -> & Hm2 & He2)]]];
    intros H1 H2; try reflexivity;
    try (destruct s1; discriminate H1); try (destruct s2; discriminate H2).
  destruct (mul_of_roots m1 m2 e1 e2 Hm1 Hm2 He1 He2) as (mp & ep & ->). reflexivity.
Qed.

Lemma denominator_is_never_zero_witness :
  PrimFloat.eqb (PrimFloat.mul (np_linalg_norm [0x1p-537%float])
                               (np_linalg_norm [0x1p-537%float])) fzero = false.
Proof.
  apply (denominator_is_never_zero [0x1p-537%float] [0x1p-537%float]);
    vm_compute; reflexivity.
Defined.

(** ** The Honeycomb API key *)

Lemma append_assoc_string (a b c : string) :
  String.append (String.append a b) c = String.append a (String.append b c).
Proof. induction a as [|x a IH]; [reflexivity |]. now rewrite !append_cons, IH. Qed.

Lemma split_on_none (sep s cur : string) :
  Honeycomb.occurrences sep s = 0%nat ->
  Honeycomb.split_on_from sep s cur 0 = [String.append cur s].
Proof.
  revert cur. induction s as [|c s IH]; intros cur H.
  - cbn. now rewrite append_empty_r.
  - cbn [Honeycomb.occurrences] in H. cbn [Honeycomb.split_on_from].
    destruct (String.prefix sep (String c s)); [discriminate |].
    rewrite IH by exact H. now rewrite append_char_assoc.
Qed.

Lemma split_on_skip (sep u b cur : string) :
  Honeycomb.split_on_from sep (String.append u b) cur (String.length u)
  = Honeycomb.split_on_from sep b cur 0.
Proof.
  induction u as [|c u IH]; [reflexivity |].
  rewrite append_cons. cbn [String.length Honeycomb.split_on_from]. exact IH.
Qed.

Lemma prefix_append (a b : string) : String.prefix a (String.append a b) = true.
Proof.
  induction a as [|c a IH]; [now destruct b |].
  rewrite append_cons. cbn [String.prefix].
  destruct (ascii_dec c c); [exact IH | contradiction].
Qed.

Lemma occurrences_append_ge (sep a b : string) :
  (Honeycomb.occurrences sep b <= Honeycomb.occurrences sep (String.append a b))%nat.
Proof.
  induction a as [|c a IH]; [apply Nat.le_refl |].
  rewrite append_cons. cbn [Honeycomb.occurrences]. lia.
Qed.

Lemma occurrences_at_start (sep b : string) :
  sep <> "" -> (1 <= Honeycomb.occurrences sep (String.append sep b))%nat.
Proof.
  intros Hsep. pose proof (prefix_append sep b) as Hp.
  destruct sep as [|c sep]; [contradiction |].
  rewrite append_cons in *. cbn [Honeycomb.occurrences]. rewrite Hp. lia.
Qed.

(** When [sep] occurs once in a string, the last piece of the split is
    the text after that occurrence. *)
Lemma split_on_last (sep pre b cur : string) :
  sep <> "" ->
  Honeycomb.occurrences sep (String.append pre (String.append sep b)) = 1%nat ->
  List.last (Honeycomb.split_on_from sep (String.append pre (String.append sep b)) cur 0) ""
  = b.
Proof.
  intros Hsep. revert cur. induction pre as [|c pre IH]; intros cur H.
  - change (String.append "" (String.append sep b)) with (String.append sep b) in *.
    pose proof (prefix_append sep b) as Hp.
    destruct sep as [|c sep]; [contradiction |].
    rewrite append_cons in *. cbn [Honeycomb.occurrences] in H.
    cbn [Honeycomb.split_on_from]. rewrite Hp in *.
    replace (String.length (String c sep) - 1)%nat with (String.length sep)
      by (cbn [String.length]; lia).
    rewrite split_on_skip, split_on_none.
    + reflexivity.
    + pose proof (occurrences_append_ge (String c sep) sep b). lia.
  - rewrite append_cons in *. cbn [Honeycomb.occurrences] in H.
    cbn [Honeycomb.split_on_from].
    pose proof (occurrences_append_ge sep pre (String.append sep b)) as Hge.
    pose proof (occurrences_at_start sep b Hsep) as H1.
    destruct (String.prefix sep (String c (String.append pre (String.append sep b))));
      [lia |].
    apply IH. lia.
Qed.

(** The first piece of a split at commas. *)
Lemma split_on_comma_first (key rest cur : string) :
  Honeycomb.occurrences "," key = 0%nat ->
  rest = "" \/ (exists r, rest = String "," r) ->
  List.hd "" (Honeycomb.split_on_from "," (String.append key rest) cur 0)
  = String.append cur key.
Proof.
  intros Hkey Hrest. revert cur Hkey. induction key as [|c key IH]; intros cur Hkey.
  - change (String.append "" rest) with rest. rewrite append_empty_r.
    destruct Hrest as [-> | [[|c r] ->]]; reflexivity.
  - rewrite append_cons. cbn [Honeycomb.occurrences String.prefix] in Hkey.
    cbn [Honeycomb.split_on_from String.prefix].
    destruct (ascii_dec "," c).
    + destruct key; discriminate Hkey.
    + rewrite IH by exact Hkey. apply append_char_assoc.
Qed.

Lemma key_of_headers_marked (pre key rest : string) :
  Honeycomb.occurrences "x-honeycomb-team="
    (String.append pre (String.append "x-honeycomb-team=" (String.append key rest)))
  = 1%nat ->
  Honeycomb.occurrences "," key = 0%nat ->
  rest = "" \/ (exists r, rest = String "," r) ->
  Honeycomb.key_of_headers
    (String.append pre (String.append "x-honeycomb-team=" (String.append key rest)))
  = key.
Proof.
  intros Hone Hkey Hrest. unfold Honeycomb.key_of_headers, Honeycomb.split_on.
  rewrite (split_on_last "x-honeycomb-team=" pre (String.append key rest) ""
             ltac:(discriminate) Hone).
  now rewrite split_on_comma_first.
Qed.

Lemma key_of_headers_unmarked (segment rest : string) :
  Honeycomb.occurrences "x-honeycomb-team=" (String.append segment rest) = 0%nat ->
  Honeycomb.occurrences "," segment = 0%nat ->
  rest = "" \/ (exists r, rest = String "," r) ->
  Honeycomb.key_of_headers (String.append segment rest) = segment.
Proof.
  intros Hnone Hseg Hrest. unfold Honeycomb.key_of_headers, Honeycomb.split_on.
  rewrite (split_on_none _ _ "" Hnone).
  change (List.last [String.append "" (String.append segment rest)] "")
    with (String.append segment rest).
  now rewrite split_on_comma_first.
Qed.

Lemma resolve_from_headers (env : Honeycomb.environ) (api_key : option string)
    (headers : string) :
  Honeycomb.truthy api_key = false ->
  Honeycomb.truthy (Honeycomb.getenv env "HONEYCOMB_API_KEY") = false ->
  env !! "OTEL_EXPORTER_OTLP_HEADERS" = Some headers ->
  Honeycomb.resolve_api_key env api_key = Honeycomb.key_of_headers headers.
Proof.
  intros Harg Henv Hh. unfold Honeycomb.resolve_api_key, Honeycomb.getenv_default.
  rewrite Hh. unfold Honeycomb.py_or at 2. rewrite Harg.
  unfold Honeycomb.py_or. rewrite Henv.
  now destruct (Honeycomb.truthy (Some (Honeycomb.key_of_headers headers))).
Qed.

Lemma configure_with_key (env : Honeycomb.environ) (service_name : string)
    (api_key dataset endpoint : option string) (sample_rate : Z) (key : string) :
  Honeycomb.resolve_api_key env api_key = key ->
  (key <> "" ->
   exists tp,
     Honeycomb.configure_honeycomb env service_name api_key dataset endpoint sample_rate
     = Some tp /\
     List.hd_error (Honeycomb.exporter_headers tp) = Some ("x-honeycomb-team", key)) /\
  (key = "" ->
   Honeycomb.configure_honeycomb env service_name api_key dataset endpoint sample_rate
   = None).
Proof.
  intros Hkey. unfold Honeycomb.configure_honeycomb. rewrite Hkey.
  cbn [Honeycomb.truthy]. split.
  - intros Hne. apply String.eqb_neq in Hne. rewrite Hne. cbn [negb].
    eexists. split; [reflexivity |]. cbn [Honeycomb.exporter_headers].
    destruct (Honeycomb.py_or dataset (Honeycomb.getenv env "HONEYCOMB_DATASET")) as [d|];
      [destruct (Honeycomb.truthy (Some d)) |]; reflexivity.
  - intros ->. reflexivity.
Qed.

(** X14.  With no API key argument and no HONEYCOMB_API_KEY, when
    OTEL_EXPORTER_OTLP_HEADERS holds [x-honeycomb-team=<key>] once,
    with <key> free of commas and followed by a comma or the end, the
    key that is used is <key>: a non-empty one is sent as the
    x-honeycomb-team header, an empty one disables Honeycomb. *)
Theorem header_key_is_extracted :
  forall (env : Honeycomb.environ) (service_name : string)
         (api_key dataset endpoint : option string) (sample_rate : Z)
         (pre key rest : string),
    Honeycomb.truthy api_key = false ->
    Honeycomb.truthy (Honeycomb.getenv env "HONEYCOMB_API_KEY") = false ->
    env !! "OTEL_EXPORTER_OTLP_HEADERS"
    = Some (String.append pre (String.append "x-honeycomb-team=" (String.append key rest))) ->
    Honeycomb.occurrences "x-honeycomb-team="
      (String.append pre (String.append "x-honeycomb-team=" (String.append key rest)))
    = 1%nat ->
    Honeycomb.occurrences "," key = 0%nat ->
    rest = "" \/ (exists r, rest = String "," r) ->
    Honeycomb.resolve_api_key env api_key = key /\
    (key <> "" ->
     exists tp,
       Honeycomb.configure_honeycomb env service_name api_key dataset endpoint sample_rate
       = Some tp /\
       List.hd_error (Honeycomb.exporter_headers tp) = Some ("x-honeycomb-team", key)) /\
    (key = "" ->
     Honeycomb.configure_honeycomb env service_name api_key dataset endpoint sample_rate
     = None).
Proof.
  intros env sn api_key dataset endpoint sr pre key rest Harg Henv Hh Hone Hkey Hrest.
  assert (Honeycomb.resolve_api_key env api_key = key) as Hres.
  { rewrite (resolve_from_headers env api_key _ Harg Henv Hh).
    now apply key_of_headers_marked. }
  split; [exact Hres |]. now apply configure_with_key.
Qed.

Lemma header_key_is_extracted_witness :
  Honeycomb.resolve_api_key
    (<["OTEL_EXPORTER_OTLP_HEADERS" := "x-honeycomb-dataset=ds,x-honeycomb-team=abc123,x-other=1"]> ∅)
    None
  = "abc123" /\
  ("abc123" <> "" ->
   exists tp,
     Honeycomb.configure_honeycomb
       (<["OTEL_EXPORTER_OTLP_HEADERS" := "x-honeycomb-dataset=ds,x-honeycomb-team=abc123,x-other=1"]> ∅)
       "tedxsdg-search-backend" None None None 1
     = Some tp /\
     List.hd_error (Honeycomb.exporter_headers tp) = Some ("x-honeycomb-team", "abc123")) /\
  ("abc123" = "" ->
   Honeycomb.configure_honeycomb
     (<["OTEL_EXPORTER_OTLP_HEADERS" := "x-honeycomb-dataset=ds,x-honeycomb-team=abc123,x-other=1"]> ∅)
     "tedxsdg-search-backend" None None None 1
   = None).
Proof.
  apply (header_key_is_extracted
           (<["OTEL_EXPORTER_OTLP_HEADERS" := "x-honeycomb-dataset=ds,x-honeycomb-team=abc123,x-other=1"]> ∅)
           "tedxsdg-search-backend" None None None 1
           "x-honeycomb-dataset=ds," "abc123" ",x-other=1").
  - reflexivity.
  - vm_compute. reflexivity.
  - vm_compute. reflexivity.
  - vm_compute. reflexivity.
  - vm_compute. reflexivity.
  - right. exists "x-other=1". reflexivity.
Defined.

(** X15.  With no API key argument and no HONEYCOMB_API_KEY, when
    OTEL_EXPORTER_OTLP_HEADERS does not hold [x-honeycomb-team=] at
    all, the text up to its first comma is taken for the API key: a
    header of another kind switches Honeycomb on and is sent as the
    x-honeycomb-team value. *)
Theorem headers_without_marker_become_the_key :
  forall (env : Honeycomb.environ) (service_name : string)
         (api_key dataset endpoint : option string) (sample_rate : Z)
         (segment rest : string),
    Honeycomb.truthy api_key = false ->
    Honeycomb.truthy (Honeycomb.getenv env "HONEYCOMB_API_KEY") = false ->
    env !! "OTEL_EXPORTER_OTLP_HEADERS" = Some (String.append segment rest) ->
    Honeycomb.occurrences "x-honeycomb-team=" (String.append segment rest) = 0%nat ->
    Honeycomb.occurrences "," segment = 0%nat ->
    rest = "" \/ (exists r, rest = String "," r) ->
    segment <> "" ->
    exists tp,
      Honeycomb.configure_honeycomb env service_name api_key dataset endpoint sample_rate
      = Some tp /\
      List.hd_error (Honeycomb.exporter_headers tp) = Some ("x-honeycomb-team", segment).
Proof.
  intros env sn api_key dataset endpoint sr segment rest Harg Henv Hh Hnone Hseg Hrest Hne.
  assert (Honeycomb.resolve_api_key env api_key = segment) as Hres.
  { rewrite (resolve_from_headers env api_key _ Harg Henv Hh).
    now apply key_of_headers_unmarked. }
  now apply (configure_with_key env sn api_key dataset endpoint sr segment Hres).
Qed.

Lemma headers_without_marker_become_the_key_witness :
  exists tp,
    Honeycomb.configure_honeycomb
      (<["OTEL_EXPORTER_OTLP_HEADERS" := "authorization=Bearer t,x-other=1"]> ∅)
      "tedxsdg-search-backend" None None None 1
    = Some tp /\
    List.hd_error (Honeycomb.exporter_headers tp)
    = Some ("x-honeycomb-team", "authorization=Bearer t").
Proof.
  apply (headers_without_marker_become_the_key
           (<["OTEL_EXPORTER_OTLP_HEADERS" := "authorization=Bearer t,x-other=1"]> ∅)
           "tedxsdg-search-backend" None None None 1
           "authorization=Bearer t" ",x-other=1").
  - reflexivity.
  - vm_compute. reflexivity.
  - vm_compute. reflexivity.
  - vm_compute. reflexivity.
  - vm_compute. reflexivity.
  - right. exists "x-other=1". reflexivity.
  - discriminate.
Defined.

(** X16.  A configuration that is switched on never sends an empty
    header value (the API key is not empty, and the dataset header is
    only present with a non-empty dataset), names the SampleRate
    attribute only for a rate above 1, and always exports to the
    endpoint followed by [/v1/traces]. *)
Theorem enabled_configuration_is_complete :
  forall (env : Honeycomb.environ) (service_name : string)
         (api_key dataset endpoint : option string) (sample_rate : Z)
         (tp : Honeycomb.tracer_provider),
    Honeycomb.configure_honeycomb env service_name api_key dataset endpoint sample_rate
    = Some tp ->
    List.Forall (fun kv => snd kv <> "") (Honeycomb.exporter_headers tp) /\
    List.hd_error (Honeycomb.exporter_headers tp)
    = Some ("x-honeycomb-team", Honeycomb.resolve_api_key env api_key) /\
    (forall v, In ("SampleRate", v) (Honeycomb.resource_attributes tp) ->
               v = Honeycomb.AttrInt sample_rate /\ 1 < sample_rate) /\
    (1 < sample_rate ->
     In ("SampleRate", Honeycomb.AttrInt sample_rate) (Honeycomb.resource_attributes tp)) /\
    Honeycomb.exporter_endpoint tp
    = String.append (Honeycomb.resolve_endpoint env endpoint) "/v1/traces".
Proof.
  intros env sn api_key dataset endpoint sr tp. unfold Honeycomb.configure_honeycomb.
  set (key := Honeycomb.resolve_api_key env api_key).
  cbn [Honeycomb.truthy].
  destruct (String.eqb_spec key "") as [| Hkey]; cbn [negb]; [discriminate |].
  intros H. injection H as <-.
  cbn [Honeycomb.exporter_headers Honeycomb.resource_attributes Honeycomb.exporter_endpoint].
  split; [| split; [| split; [| split]]].
  - destruct (Honeycomb.py_or dataset (Honeycomb.getenv env "HONEYCOMB_DATASET")) as [d|].
    + cbn [Honeycomb.truthy]. destruct (String.eqb_spec d ""); cbn [negb app];
        repeat constructor; assumption.
    + repeat constructor. assumption.
  - destruct (Honeycomb.py_or dataset (Honeycomb.getenv env "HONEYCOMB_DATASET")) as [d|];
      [destruct (Honeycomb.truthy (Some d)) |]; reflexivity.
  - intros v. destruct (Z.ltb_spec 1 sr); cbn [app In]; intros Hin.
    + destruct Hin as [Hin | [Hin | []]]; [discriminate |].
      injection Hin as <-. auto.
    + destruct Hin as [Hin | []]. discriminate.
  - intros Hsr. apply Z.ltb_lt in Hsr. rewrite Hsr. cbn [app In]. auto.
  - reflexivity.
Qed.

Lemma enabled_configuration_is_complete_witness :
  List.Forall (fun kv => snd kv <> "")
    [("x-honeycomb-team", "abc123"); ("x-honeycomb-dataset", "ds")] /\
  List.hd_error [("x-honeycomb-team", "abc123"); ("x-honeycomb-dataset", "ds")]
  = Some ("x-honeycomb-team",
          Honeycomb.resolve_api_key (<["HONEYCOMB_DATASET" := "ds"]> ∅) (Some "abc123")) /\
  (forall v, In ("SampleRate", v)
                [("service.name", Honeycomb.AttrStr "tedxsdg-search-backend");
                 ("SampleRate", Honeycomb.AttrInt 4)] ->
             v = Honeycomb.AttrInt 4 /\ 1 < 4) /\
  (1 < 4 ->
   In ("SampleRate", Honeycomb.AttrInt 4)
      [("service.name", Honeycomb.AttrStr "tedxsdg-search-backend");
       ("SampleRate", Honeycomb.AttrInt 4)]) /\
  "https://api.honeycomb.io:443/v1/traces"
  = String.append (Honeycomb.resolve_endpoint (<["HONEYCOMB_DATASET" := "ds"]> ∅) None)
                  "/v1/traces".
Proof.
  apply (enabled_configuration_is_complete
           (<["HONEYCOMB_DATASET" := "ds"]> ∅) "tedxsdg-search-backend"
           (Some "abc123") None None 4
           {| Honeycomb.resource_attributes :=
                [("service.name", Honeycomb.AttrStr "tedxsdg-search-backend");
                 ("SampleRate", Honeycomb.AttrInt 4)];
              Honeycomb.exporter_endpoint := "https://api.honeycomb.io:443/v1/traces";
              Honeycomb.exporter_headers :=
                [("x-honeycomb-team", "abc123"); ("x-honeycomb-dataset", "ds")] |}).
  vm_compute. reflexivity.
Defined.
